(** * The OBS WebSocket client of chromadon-mcp (obs-client.ts)

    A shallow embedding of [class OBSClient]: its connection life cycle
    ([connect], [scheduleReconnect], the handlers of the transport's
    events), the command serializer ([serialize]) and the operations built
    on them, followed by the properties the specification states.

    The client is asynchronous JavaScript.  A method is embedded as a
    program tree [Prog]: a leaf returns or throws, a node performs one
    effect of the client (a field read or write, a promise operation, a
    call of the transport, a timer) and continues with the answer.  The
    same tree is given two semantics:
    - [run], one call run to completion against a controller that answers
      every request ([Env]), nothing else being in flight;
    - [step], the event loop: several calls in flight, each suspended at
      an [await], resumed one at a time in any order, the transport
      answering as it pleases.

    A JavaScript number is embedded as the rational it is ([Q]); the
    operations that round (the products, the sum and the quotient of the
    jitter in [connect]) round to the nearest double ([Js.double]).  A
    turn of the event loop that performs no effect (the microtask between
    the end of a body and its [finally]) is not a step of its own.

    The HTTP client of the Desktop control server (client.ts) and the tool
    handlers built on it are embedded after the OBS client, in a state and
    error monad ([Node.M]) over the requests made, the timers pending and
    the lines written, the answers of the server being given by a
    [Node.Host]. *)

From Stdlib Require Import String Ascii List Bool Arith ZArith.
From Stdlib Require Import QArith Qround Qminmax Qpower Lqa.
From Stdlib Require Import Lia DecimalString.
Import ListNotations.

Local Close Scope Q_scope.
Local Open Scope string_scope.
Local Open Scope list_scope.

(** ** JavaScript strings, arrays and thrown values *)

Module Js.

(** [hay.includes(needle)] on strings. *)
Fixpoint includes (needle hay : string) : bool :=
  String.prefix needle hay
  || match hay with
     | EmptyString => false
     | String _ rest => includes needle rest
     end.

(** [arr.includes(x)] on an array of strings. *)
Definition arr_includes (x : string) (arr : list string) : bool :=
  existsb (String.eqb x) arr.

(** [arr.join(sep)]. *)
Definition join (sep : string) (arr : list string) : string :=
  String.concat sep arr.

(** Truthiness of an optional string argument: [undefined] and the empty
    string are falsy. *)
Definition truthy (s : option string) : bool :=
  match s with
  | None => false
  | Some EmptyString => false
  | Some _ => true
  end.

(** A thrown (or rejected) value: an [Error] object with its message, or
    any other value, kept by its [String(v)] rendering. *)
Inductive Thrown : Type :=
| Error (message : string)
| NonError (rendering : string).

(** [err instanceof Error ? err.message : String(err)]. *)
Definition message_of (err : Thrown) : string :=
  match err with
  | Error m => m
  | NonError s => s
  end.

(** [String(err)]. *)
Definition to_string (err : Thrown) : string :=
  match err with
  | Error EmptyString => "Error"
  | Error m => "Error: " ++ m
  | NonError s => s
  end.

(** [err.message || String(err)], for the error of a transport event. *)
Definition message_or_string (err : Thrown) : string :=
  match err with
  | Error EmptyString => to_string err
  | Error m => m
  | NonError s => s
  end.

(** Decimal rendering of an integer-valued number. *)
Definition show_int (z : Z) : string :=
  NilZero.string_of_int (Z.to_int z).

(** [Math.round(x)]: the nearest integer, halves rounded up. *)
Definition round (x : Q) : Z := Qfloor (x + (1 # 2)).

(** *** Double precision *)

(** [floor (log2 x)], for [x > 0]. *)
Definition binade (x : Q) : Z :=
  let e := (Z.log2 (Qnum x) - Z.log2 (Zpos (Qden x)))%Z in
  if Qle_bool (Qpower 2 e) x then e else (e - 1)%Z.

(** The distance between the doubles around [x > 0]: 53 significant
    bits, the exponent not below that of the subnormal numbers. *)
Definition ulp (x : Q) : Q :=
  Qpower 2 (Z.max (binade x) (-1022) - 52).

(** The integer nearest to [x], the even one of two equally near. *)
Definition nearest_even (x : Q) : Z :=
  let f := Qfloor x in
  match Qcompare (x - inject_Z f) (1 # 2) with
  | Lt => f
  | Gt => (f + 1)%Z
  | Eq => if Z.even f then f else (f + 1)%Z
  end.

Definition nearest (x : Q) : Q :=
  (inject_Z (nearest_even (x / ulp x)) * ulp x)%Q.

(** The double nearest to [x], ties to the even significand (the rounding
    of IEEE 754 binary64), for [x] below the overflow threshold. *)
Definition double (x : Q) : Q :=
  if Qle_bool 0 x then nearest x else (- nearest (- x))%Q.

(** [x * y], [x + y] and [x / y] on numbers. *)
Definition fmul (x y : Q) : Q := double (x * y).
Definition fadd (x y : Q) : Q := double (x + y).
Definition fdiv (x y : Q) : Q := double (x / y).

Definition newline : string := String (ascii_of_nat 10) EmptyString.

(** The double-quote character in a message. *)
Definition quote : string := String (ascii_of_nat 34) EmptyString.

End Js.

(** ** Configuration (module constants read from the environment) *)

Record Config : Type := {
  OBS_HOST : string;
  OBS_PORT : Z;
  OBS_PASSWORD : string;
  SAFE_MODE : bool;
  SAFE_SCENES : list string
}.

Definition OBS_WS_URL (cfg : Config) : string :=
  "ws://" ++ OBS_HOST cfg ++ ":" ++ Js.show_int (OBS_PORT cfg).

(** The values the module takes when no environment variable is set. *)
Definition default_config : Config := {|
  OBS_HOST := "127.0.0.1";
  OBS_PORT := 4455%Z;
  OBS_PASSWORD := EmptyString;
  SAFE_MODE := true;
  SAFE_SCENES := ["StartingSoon"; "Main"]
|}.

(** ** Types *)

Record OBSStatus : Type := {
  st_connected : bool;
  st_streaming : bool;
  st_recording : bool;
  st_currentScene : string;
  st_availableScenes : list string;
  st_streamTimecode : option string;
  st_recordTimecode : option string;
  st_cpuUsage : option Q;
  st_memoryUsage : option Q;
  st_fps : option Q
}.

(** The result object of an operation: [{ success, message, outputPath? }]. *)
Record OpResult : Type := {
  success : bool;
  message : string;
  outputPath : option string
}.

Definition result (ok : bool) (msg : string) : OpResult :=
  {| success := ok; message := msg; outputPath := None |}.

(** ** The controller's RPC interface, as far as the client uses it *)

Inductive Request : Type :=
| GetStreamStatus
| GetRecordStatus
| StartStream
| StopStream
| StartRecord
| StopRecord
| GetCurrentProgramScene
| GetSceneList
| SetCurrentProgramScene (sceneName : string)
| SetInputMute (inputName : string) (inputMuted : bool)
| GetInputList
| GetSceneItemId (sceneName sourceName : string)
| SetSceneItemEnabled (sceneName : string) (sceneItemId : Z)
                      (sceneItemEnabled : bool)
| GetStats.

Record OutputStatus : Type := {
  outputActive : bool;
  outputTimecode : string
}.

Record SceneEntry : Type := { sceneName : string }.
Record InputEntry : Type := { inputName : string }.

(** [scenes.map((s) => s.sceneName)] and [inputs.map((i) => i.inputName)]. *)
Definition scene_names (scenes : list SceneEntry) : list string :=
  map sceneName scenes.

Definition input_names (inputs : list InputEntry) : list string :=
  map inputName inputs.

Record Stats : Type := {
  cpuUsage : Q;
  memoryUsage : Q;
  activeFps : Q
}.

(** The response data of each request type. *)
Definition Response (r : Request) : Type :=
  match r with
  | GetStreamStatus | GetRecordStatus => OutputStatus
  | StopRecord => string                    (* outputPath *)
  | GetCurrentProgramScene => string        (* currentProgramSceneName *)
  | GetSceneList => list SceneEntry         (* scenes *)
  | GetInputList => list InputEntry         (* inputs *)
  | GetSceneItemId _ _ => Z                 (* sceneItemId *)
  | GetStats => Stats
  | _ => unit
  end.

(** A settled promise of the transport: rejected with a thrown value or
    fulfilled with the response. *)
Definition Settled (T : Type) : Type := (Js.Thrown + T)%type.

(** The settled results of several calls issued together. *)
Fixpoint SettledAll (rs : list Request) : Type :=
  match rs with
  | [] => unit
  | r :: rs' => (Settled (Response r) * SettledAll rs')%type
  end.

(** What [obs.connect] resolves to. *)
Record Hello : Type := {
  obsWebSocketVersion : string;
  negotiatedRpcVersion : Z
}.

(** ** Effects of the client and program trees *)

Definition PromiseId : Type := nat.

Inductive clientE : Type -> Type :=
(* fields of the client object *)
| GetConnected : clientE bool
| SetConnected (b : bool) : clientE unit
| GetConnecting : clientE bool
| SetConnecting (b : bool) : clientE unit
| GetRetryCount : clientE nat
| SetRetryCount (n : nat) : clientE unit
| GetCommandQueue : clientE PromiseId
| SetCommandQueue (p : PromiseId) : clientE unit
(* promises *)
| NewPromise : clientE PromiseId
| ResolvePromise (p : PromiseId) : clientE unit
| AwaitPromise (p : PromiseId) : clientE unit
(* the transport *)
| ObsConnect (url password : string) (rpcVersion : Z) : clientE (Settled Hello)
| ObsCall (r : Request) : clientE (Settled (Response r))
| ObsCallAll (rs : list Request) : clientE (SettledAll rs)
| ObsDisconnect : clientE (Settled unit)
(* the runtime *)
| MathRandom : clientE Q
| Sleep (ms : Q) : clientE unit
| SetTimeoutReconnect (ms : Z) : clientE unit
| StderrWrite (line : string) : clientE unit.

Inductive Prog (A : Type) : Type :=
| Ret (a : A)
| Throw (err : Js.Thrown)
| Vis {T : Type} (e : clientE T) (k : T -> Prog A)
| Spin.                         (* a loop that used up its unrolling bound *)

Arguments Ret {A} a.
Arguments Throw {A} err.
Arguments Vis {A T} e k.
Arguments Spin {A}.

Fixpoint bind {A B : Type} (p : Prog A) (f : A -> Prog B) : Prog B :=
  match p with
  | Ret a => f a
  | Throw err => Throw err
  | Vis e k => Vis e (fun x => bind (k x) f)
  | Spin => Spin
  end.

(** [try { p } catch (err) { handler err }]. *)
Fixpoint try_catch {A : Type} (p : Prog A) (handler : Js.Thrown -> Prog A)
  : Prog A :=
  match p with
  | Ret a => Ret a
  | Throw err => handler err
  | Vis e k => Vis e (fun x => try_catch (k x) handler)
  | Spin => Spin
  end.

(** [try { p } finally { cleanup }]. *)
Fixpoint try_finally {A : Type} (p : Prog A) (cleanup : Prog unit) : Prog A :=
  match p with
  | Ret a => bind cleanup (fun _ => Ret a)
  | Throw err => bind cleanup (fun _ => Throw err)
  | Vis e k => Vis e (fun x => try_finally (k x) cleanup)
  | Spin => Spin
  end.

Declare Scope prog_scope.
Delimit Scope prog_scope with prog.
Notation "x <- p ;; q" := (bind p (fun x => q))
  (at level 61, p at next level, right associativity) : prog_scope.
Notation "p ;; q" := (bind p (fun _ => q))
  (at level 61, right associativity) : prog_scope.
Local Open Scope prog_scope.

Definition perform {T : Type} (e : clientE T) : Prog T := Vis e Ret.

(** [await promise]: the fulfilment value, or the rejection thrown. *)
Definition await {T : Type} (e : clientE (Settled T)) : Prog T :=
  Vis e (fun s => match s with inl err => Throw err | inr v => Ret v end).

(** [log(msg)] writes one line to stderr. *)
Definition log (msg : string) : Prog unit :=
  perform (StderrWrite ("[chromadon-mcp:obs] " ++ msg ++ Js.newline)).

(** The value of a call is dropped. *)
Definition ignore {A : Type} (p : Prog A) : Prog unit := p ;; Ret tt.

(** ** The world a program runs in *)

(** What the client does to the outside, in order. *)
Inductive Event : Type :=
| EvConnect (url password : string) (rpcVersion : Z)
| EvCall (r : Request)
| EvDisconnect
| EvSleep (ms : Q)
| EvSetTimeout (ms : Z).

Record World : Type := {
  (* private fields of OBSClient *)
  connected : bool;
  connecting : bool;
  retryCount : nat;
  commandQueue : PromiseId;
  (* the promises made so far: ids below [nextPromise]; the resolved ones *)
  resolved : list PromiseId;
  nextPromise : PromiseId;
  (* the outside *)
  trace : list Event;
  randomDraws : nat;
  pendingReconnects : nat;
  stderr : list string
}.

(** [new OBSClient()]: [commandQueue = Promise.resolve()] is promise 0. *)
Definition fresh_client : World := {|
  connected := false;
  connecting := false;
  retryCount := 0;
  commandQueue := 0;
  resolved := [0];
  nextPromise := 1;
  trace := [];
  randomDraws := 0;
  pendingReconnects := 0;
  stderr := []
|}.

Definition with_connected (b : bool) (w : World) : World :=
  {| connected := b; connecting := connecting w; retryCount := retryCount w;
     commandQueue := commandQueue w; resolved := resolved w;
     nextPromise := nextPromise w; trace := trace w;
     randomDraws := randomDraws w; pendingReconnects := pendingReconnects w;
     stderr := stderr w |}.

Definition with_connecting (b : bool) (w : World) : World :=
  {| connected := connected w; connecting := b; retryCount := retryCount w;
     commandQueue := commandQueue w; resolved := resolved w;
     nextPromise := nextPromise w; trace := trace w;
     randomDraws := randomDraws w; pendingReconnects := pendingReconnects w;
     stderr := stderr w |}.

Definition with_retryCount (n : nat) (w : World) : World :=
  {| connected := connected w; connecting := connecting w; retryCount := n;
     commandQueue := commandQueue w; resolved := resolved w;
     nextPromise := nextPromise w; trace := trace w;
     randomDraws := randomDraws w; pendingReconnects := pendingReconnects w;
     stderr := stderr w |}.

Definition with_commandQueue (p : PromiseId) (w : World) : World :=
  {| connected := connected w; connecting := connecting w;
     retryCount := retryCount w; commandQueue := p; resolved := resolved w;
     nextPromise := nextPromise w; trace := trace w;
     randomDraws := randomDraws w; pendingReconnects := pendingReconnects w;
     stderr := stderr w |}.

Definition with_promises (res : list PromiseId) (next : PromiseId) (w : World)
  : World :=
  {| connected := connected w; connecting := connecting w;
     retryCount := retryCount w; commandQueue := commandQueue w;
     resolved := res; nextPromise := next; trace := trace w;
     randomDraws := randomDraws w; pendingReconnects := pendingReconnects w;
     stderr := stderr w |}.

Definition with_trace (tr : list Event) (w : World) : World :=
  {| connected := connected w; connecting := connecting w;
     retryCount := retryCount w; commandQueue := commandQueue w;
     resolved := resolved w; nextPromise := nextPromise w; trace := tr;
     randomDraws := randomDraws w; pendingReconnects := pendingReconnects w;
     stderr := stderr w |}.

Definition with_randomDraws (n : nat) (w : World) : World :=
  {| connected := connected w; connecting := connecting w;
     retryCount := retryCount w; commandQueue := commandQueue w;
     resolved := resolved w; nextPromise := nextPromise w; trace := trace w;
     randomDraws := n; pendingReconnects := pendingReconnects w;
     stderr := stderr w |}.

Definition with_pendingReconnects (n : nat) (w : World) : World :=
  {| connected := connected w; connecting := connecting w;
     retryCount := retryCount w; commandQueue := commandQueue w;
     resolved := resolved w; nextPromise := nextPromise w; trace := trace w;
     randomDraws := randomDraws w; pendingReconnects := n;
     stderr := stderr w |}.

Definition with_stderr (out : list string) (w : World) : World :=
  {| connected := connected w; connecting := connecting w;
     retryCount := retryCount w; commandQueue := commandQueue w;
     resolved := resolved w; nextPromise := nextPromise w; trace := trace w;
     randomDraws := randomDraws w; pendingReconnects := pendingReconnects w;
     stderr := out |}.

Definition emit (ev : list Event) (w : World) : World :=
  with_trace (trace w ++ ev) w.

Definition is_resolved (p : PromiseId) (w : World) : bool :=
  existsb (Nat.eqb p) (resolved w).

(** The effects that complete within the current turn of the event loop.
    [random n] is the value of the [n]-th call of [Math.random]. *)
Definition sync {T : Type} (random : nat -> Q) (e : clientE T) (w : World)
  : option (T * World) :=
  match e in clientE T return option (T * World) with
  | GetConnected => Some (connected w, w)
  | SetConnected b => Some (tt, with_connected b w)
  | GetConnecting => Some (connecting w, w)
  | SetConnecting b => Some (tt, with_connecting b w)
  | GetRetryCount => Some (retryCount w, w)
  | SetRetryCount n => Some (tt, with_retryCount n w)
  | GetCommandQueue => Some (commandQueue w, w)
  | SetCommandQueue p => Some (tt, with_commandQueue p w)
  | NewPromise =>
      Some (nextPromise w, with_promises (resolved w) (S (nextPromise w)) w)
  | ResolvePromise p =>
      Some (tt, with_promises (p :: resolved w) (nextPromise w) w)
  | MathRandom =>
      Some (random (randomDraws w), with_randomDraws (S (randomDraws w)) w)
  | SetTimeoutReconnect ms =>
      Some (tt, with_pendingReconnects (S (pendingReconnects w))
                  (emit [EvSetTimeout ms] w))
  | StderrWrite line => Some (tt, with_stderr (stderr w ++ [line]) w)
  | AwaitPromise _ | ObsConnect _ _ _ | ObsCall _ | ObsCallAll _
  | ObsDisconnect | Sleep _ => None
  end.

(** The other effects suspend the caller.  Those of the transport and the
    timer first send something out: *)
Definition issue {T : Type} (e : clientE T) (w : World) : World :=
  match e with
  | ObsConnect url password v => emit [EvConnect url password v] w
  | ObsCall r => emit [EvCall r] w
  | ObsCallAll rs => emit (map EvCall rs) w
  | ObsDisconnect => emit [EvDisconnect] w
  | Sleep ms => emit [EvSleep ms] w
  | _ => w
  end.

(** ** A controller that answers, and runs to completion *)

(** The controller and the runtime as the client sees them.  An answer may
    depend on everything the client has sent so far, the request (and
    those issued together with it) included. *)
Record Env : Type := {
  env_connect : list Event -> Settled Hello;
  env_call : list Event -> forall r : Request, Settled (Response r);
  env_disconnect : list Event -> Settled unit;
  env_random : nat -> Q
}.

(** The answers to requests issued together, all of them in [sent]. *)
Fixpoint answer_all (env : Env) (sent : list Event) (rs : list Request)
  : SettledAll rs :=
  match rs with
  | [] => tt
  | r :: rs' => (env_call env sent r, answer_all env sent rs')
  end.

(** The value a suspended effect resumes with in the world [w], what it
    sent being in the trace; [None] when it cannot resume: a promise that
    is not resolved.  (The effects of [sync] do not suspend; their lines
    only make the function total.) *)
Definition settle {T : Type} (env : Env) (e : clientE T) (w : World)
  : option T :=
  match e in clientE T return option T with
  | AwaitPromise p => if is_resolved p w then Some tt else None
  | ObsConnect _ _ _ => Some (env_connect env (trace w))
  | ObsCall r => Some (env_call env (trace w) r)
  | ObsCallAll rs => Some (answer_all env (trace w) rs)
  | ObsDisconnect => Some (env_disconnect env (trace w))
  | Sleep _ => Some tt
  | GetConnected => Some (connected w)
  | GetConnecting => Some (connecting w)
  | GetRetryCount => Some (retryCount w)
  | GetCommandQueue => Some (commandQueue w)
  | NewPromise => Some (nextPromise w)
  | MathRandom => Some (env_random env (randomDraws w))
  | SetConnected _ | SetConnecting _ | SetRetryCount _ | SetCommandQueue _
  | ResolvePromise _ | SetTimeoutReconnect _ | StderrWrite _ => Some tt
  end.

Inductive Outcome (A : Type) : Type :=
| Returned (a : A)
| Thrown (err : Js.Thrown)
| Blocked                       (* awaiting a promise that is not resolved *)
| Diverged.                     (* [Spin] *)

Arguments Returned {A} a.
Arguments Thrown {A} err.
Arguments Blocked {A}.
Arguments Diverged {A}.

(** One call, run to completion with nothing else in flight. *)
Fixpoint run {A : Type} (env : Env) (p : Prog A) (w : World)
  : Outcome A * World :=
  match p with
  | Ret a => (Returned a, w)
  | Throw err => (Thrown err, w)
  | Spin => (Diverged, w)
  | Vis e k =>
      match sync (env_random env) e w with
      | Some (x, w') => run env (k x) w'
      | None =>
          let w' := issue e w in
          match settle env e w' with
          | Some x => run env (k x) w'
          | None => (Blocked, w')
          end
      end
  end.

(** ** class OBSClient *)

Definition maxRetries : nat := 10.
Definition baseDelay : Q := 1000.      (* 1s *)
Definition maxDelay : Q := 30000.      (* 30s *)

(** The three branches of the error classification in [connect]. *)
Inductive ConnectFailure : Type :=
| Refused                       (* message.includes('ECONNREFUSED') *)
| AuthFailed                    (* else: 'Authentication' or 'auth' *)
| OtherFailure.

Definition classify (message : string) : ConnectFailure :=
  if Js.includes "ECONNREFUSED" message then Refused
  else if Js.includes "Authentication" message || Js.includes "auth" message
       then AuthFailed
       else OtherFailure.

(** [Math.min(baseDelay * Math.pow(2, retryCount - 1), maxDelay)]; a power
    of two and its product with 1000 are doubles, nothing is rounded. *)
Definition backoff (retryCount : nat) : Q :=
  Qmin (baseDelay * Qpower 2 (Z.of_nat retryCount - 1)) maxDelay.

(** [delay * (0.7 + Math.random() * 0.6)]; the literals are the doubles
    nearest to 7/10 and 6/10. *)
Definition jittered (delay random : Q) : Q :=
  Js.fmul delay
    (Js.fadd (Js.double (7 # 10)) (Js.fmul random (Js.double (6 # 10)))).

(** How an iteration of a loop body ends. *)
Inductive Flow (A : Type) : Type :=
| Continue
| Return (a : A).

Arguments Continue {A}.
Arguments Return {A} a.

Section Client.

Variable cfg : Config.

(** One iteration of the [while] loop of [connect]. *)
Definition connect_attempt : Prog (Flow unit) :=
  try_catch
    (rc <- perform GetRetryCount ;;
     log ("Connecting to OBS WebSocket at " ++ OBS_HOST cfg ++ ":"
          ++ Js.show_int (OBS_PORT cfg)
          ++ (if (0 <? rc)%nat
              then " (attempt " ++ Js.show_int (Z.of_nat (rc + 1)) ++ ")"
              else EmptyString)) ;;
     hello <- await (ObsConnect (OBS_WS_URL cfg) (OBS_PASSWORD cfg) 1) ;;
     perform (SetConnected true) ;;
     perform (SetConnecting false) ;;
     perform (SetRetryCount 0) ;;
     log ("Connected to OBS WebSocket (v" ++ obsWebSocketVersion hello
          ++ ", rpc=" ++ Js.show_int (negotiatedRpcVersion hello) ++ ")") ;;
     Ret (Return tt))
    (fun err =>
       let message := Js.message_of err in
       rc <- perform GetRetryCount ;;
       perform (SetRetryCount (rc + 1)) ;;
       match classify message with
       | Refused =>
           log ("OBS is not running or WebSocket server is not enabled. "
                ++ "Open OBS → Tools → WebSocket Server Settings → "
                ++ "Enable WebSocket server")
       | AuthFailed =>
           log ("OBS WebSocket authentication failed. Check "
                ++ "OBS_WS_PASSWORD matches "
                ++ "OBS → Tools → WebSocket Server Settings → "
                ++ "Server Password") ;;
           perform (SetConnecting false) ;;
           Throw (Js.Error
                    "AUTH_FAILED: OBS WebSocket password is incorrect")
       | OtherFailure => log ("Connection failed: " ++ message)
       end ;;
       rc <- perform GetRetryCount ;;
       (if (maxRetries <? rc)%nat
        then perform (SetConnecting false) ;;
             Throw (Js.Error
                      ("Failed to connect after "
                       ++ Js.show_int (Z.of_nat maxRetries)
                       ++ " attempts. Last error: " ++ message))
        else Ret tt) ;;
       rc <- perform GetRetryCount ;;
       let delay := backoff rc in
       random <- perform MathRandom ;;
       let jitter := jittered delay random in
       log ("Retrying in " ++ Js.show_int (Js.round (Js.fdiv jitter 1000))
            ++ "s...") ;;
       perform (Sleep jitter) ;;
       Ret Continue).

(** [while (this.retryCount <= this.maxRetries) { ... }], unrolled at
    most [bound] times; falling out of the loop returns. *)
Fixpoint connect_loop (bound : nat) : Prog unit :=
  match bound with
  | O => Spin
  | S bound' =>
      rc <- perform GetRetryCount ;;
      if (rc <=? maxRetries)%nat
      then flow <- connect_attempt ;;
           match flow with
           | Return v => Ret v
           | Continue => connect_loop bound'
           end
      else Ret tt
  end.

(** Every iteration that continues has incremented [retryCount], so the
    condition fails after at most [maxRetries + 1] of them. *)
Definition connect : Prog unit :=
  c <- perform GetConnected ;;
  g <- perform GetConnecting ;;
  if c || g then Ret tt
  else
    perform (SetConnecting true) ;;
    connect_loop (maxRetries + 2).

Definition scheduleReconnect : Prog unit :=
  g <- perform GetConnecting ;;
  if negb g then perform (SetTimeoutReconnect 3000) else Ret tt.

(** The callback of that timer: [() => this.connect().catch(() => {})]. *)
Definition reconnect_timer : Prog unit :=
  try_catch connect (fun _ => Ret tt).

(** [this.obs.on('ConnectionClosed', ...)]. *)
Definition on_ConnectionClosed : Prog unit :=
  perform (SetConnected false) ;;
  log "OBS WebSocket connection closed" ;;
  scheduleReconnect.

(** [this.obs.on('ConnectionError', ...)]; [err.message || String(err)]
    is the text of the error. *)
Definition on_ConnectionError (err : Js.Thrown) : Prog unit :=
  perform (SetConnected false) ;;
  log ("OBS WebSocket connection error: " ++ Js.message_or_string err).

Definition serialize {A : Type} (fn : Prog A) : Prog A :=
  prev <- perform GetCommandQueue ;;
  resolve <- perform NewPromise ;;
  perform (SetCommandQueue resolve) ;;
  perform (AwaitPromise prev) ;;
  try_finally fn (perform (ResolvePromise resolve)).

Definition ensureConnected : Prog unit :=
  c <- perform GetConnected ;;
  if negb c
  then Throw (Js.Error
                ("NOT_CONNECTED: OBS WebSocket is not connected. "
                 ++ "Is OBS running with WebSocket enabled?"))
  else Ret tt.

Definition call (r : Request) : Prog (Response r) := await (ObsCall r).

(** *** Scene queries *)

Definition getCurrentScene : Prog string :=
  ensureConnected ;;
  call GetCurrentProgramScene.

Definition getSceneList : Prog (list string) :=
  ensureConnected ;;
  scenes <- call GetSceneList ;;
  Ret (scene_names scenes).

(** *** Stream control *)

Definition startStream_body : Prog OpResult :=
  ensureConnected ;;
  refusal <-
    (if SAFE_MODE cfg
     then scene <- getCurrentScene ;;
          if negb (Js.arr_includes scene (SAFE_SCENES cfg))
          then Ret (Some (result false
                 ("SAFE_MODE: Refusing to start stream. Current scene "
                  ++ Js.quote ++ scene ++ Js.quote
                  ++ " is not in safe list ["
                  ++ Js.join ", " (SAFE_SCENES cfg)
                  ++ "]. Switch to an approved scene first.")))
          else Ret None
     else Ret None) ;;
  match refusal with
  | Some r => Ret r
  | None =>
      status <- call GetStreamStatus ;;
      if outputActive status
      then Ret (result true "Stream already active")
      else call StartStream ;;
           log "Stream started" ;;
           Ret (result true "Stream started")
  end.

Definition startStream : Prog OpResult := serialize startStream_body.

Definition stopStream_body : Prog OpResult :=
  ensureConnected ;;
  status <- call GetStreamStatus ;;
  if negb (outputActive status)
  then Ret (result true "Stream already stopped")
  else call StopStream ;;
       log "Stream stopped" ;;
       Ret (result true "Stream stopped").

Definition stopStream : Prog OpResult := serialize stopStream_body.

(** *** Recording control *)

Definition startRecording_body : Prog OpResult :=
  ensureConnected ;;
  status <- call GetRecordStatus ;;
  if outputActive status
  then Ret (result true "Recording already active")
  else call StartRecord ;;
       log "Recording started" ;;
       Ret (result true "Recording started").

Definition startRecording : Prog OpResult := serialize startRecording_body.

Definition stopRecording_body : Prog OpResult :=
  ensureConnected ;;
  status <- call GetRecordStatus ;;
  if negb (outputActive status)
  then Ret (result true "Recording already stopped")
  else path <- call StopRecord ;;
       log ("Recording stopped, output: " ++ path) ;;
       Ret {| success := true; message := "Recording stopped";
              outputPath := Some path |}.

Definition stopRecording : Prog OpResult := serialize stopRecording_body.

(** *** Scene control *)

Definition setScene_body (sceneName : string) : Prog OpResult :=
  ensureConnected ;;
  scenes <- getSceneList ;;
  if negb (Js.arr_includes sceneName scenes)
  then Ret (result false
         ("SCENE_NOT_FOUND: Scene " ++ Js.quote ++ sceneName ++ Js.quote
          ++ " does not exist. Available: ["
          ++ Js.join ", " scenes ++ "]"))
  else call (SetCurrentProgramScene sceneName) ;;
       log ("Scene switched to: " ++ sceneName) ;;
       Ret (result true ("Switched to scene: " ++ sceneName)).

Definition setScene (sceneName : string) : Prog OpResult :=
  serialize (setScene_body sceneName).

(** *** Audio control *)

Definition fallback_mic_names : list string :=
  ["Mic/Aux"; "Blue Yeti"; "Microphone"; "Mic"; "Audio Input Capture";
   "Desktop Audio"].

(** [inputName ? [inputName] : [...]]. *)
Definition micNames (inputName : option string) : list string :=
  match inputName with
  | Some name => if Js.truthy inputName then [name] else fallback_mic_names
  | None => fallback_mic_names
  end.

Definition muted_text (mute : bool) : string :=
  if mute then "muted" else "unmuted".

(** [for (const name of micNames) { try { ...; return } catch { continue } }] *)
Fixpoint try_micNames (mute : bool) (names : list string)
  : Prog (Flow OpResult) :=
  match names with
  | [] => Ret Continue
  | name :: rest =>
      flow <- try_catch
                (call (SetInputMute name mute) ;;
                 log (name ++ " " ++ muted_text mute) ;;
                 Ret (Return (result true (name ++ " " ++ muted_text mute))))
                (fun _ => Ret Continue) ;;
      match flow with
      | Return r => Ret (Return r)
      | Continue => try_micNames mute rest
      end
  end.

Definition setMicMute_body (mute : bool) (inputName : option string)
  : Prog OpResult :=
  ensureConnected ;;
  let names := micNames inputName in
  flow <- try_micNames mute names ;;
  match flow with
  | Return r => Ret r
  | Continue =>
      inputs <- call GetInputList ;;
      let available := input_names inputs in
      Ret (result false
             ("MIC_NOT_FOUND: Could not find mic input. Tried: ["
              ++ Js.join ", " names ++ "]. Available inputs: ["
              ++ Js.join ", " available ++ "]"))
  end.

Definition setMicMute (mute : bool) (inputName : option string)
  : Prog OpResult :=
  serialize (setMicMute_body mute inputName).

(** *** Source visibility *)

Definition visible_text (visible : bool) : string :=
  if visible then "visible" else "hidden".

Definition setSourceVisibility_body
  (sceneName sourceName : string) (visible : bool) : Prog OpResult :=
  ensureConnected ;;
  try_catch
    (sceneItemId <- call (GetSceneItemId sceneName sourceName) ;;
     call (SetSceneItemEnabled sceneName sceneItemId visible) ;;
     log ("Source " ++ Js.quote ++ sourceName ++ Js.quote ++ " in "
          ++ Js.quote ++ sceneName ++ Js.quote ++ " set to "
          ++ visible_text visible) ;;
     Ret (result true
            (sourceName ++ " in " ++ sceneName ++ " set to "
             ++ visible_text visible)))
    (fun err =>
       let message := Js.message_of err in
       if Js.includes "NotFound" message || Js.includes "600" message
       then Ret (result false
              ("SOURCE_NOT_FOUND: " ++ Js.quote ++ sourceName ++ Js.quote
               ++ " not found in scene " ++ Js.quote ++ sceneName
               ++ Js.quote
               ++ ". Check exact source and scene names in OBS."))
       else Throw err).

Definition setSourceVisibility
  (sceneName sourceName : string) (visible : bool) : Prog OpResult :=
  serialize (setSourceVisibility_body sceneName sourceName visible).

(** *** Full status *)

Definition disconnected_status : OBSStatus := {|
  st_connected := false;
  st_streaming := false;
  st_recording := false;
  st_currentScene := "N/A";
  st_availableScenes := [];
  st_streamTimecode := None;
  st_recordTimecode := None;
  st_cpuUsage := None;
  st_memoryUsage := None;
  st_fps := None
|}.

Definition error_status : OBSStatus := {|
  st_connected := false;
  st_streaming := false;
  st_recording := false;
  st_currentScene := "ERROR";
  st_availableScenes := [];
  st_streamTimecode := None;
  st_recordTimecode := None;
  st_cpuUsage := None;
  st_memoryUsage := None;
  st_fps := None
|}.

(** [s || null] on a string. *)
Definition or_null (s : string) : option string :=
  match s with
  | EmptyString => None
  | _ => Some s
  end.

(** An element of [Promise.all]: its value, or its rejection thrown. *)
Definition fulfilled {T : Type} (s : Settled T) : Prog T :=
  match s with
  | inl err => Throw err
  | inr v => Ret v
  end.

(** [promise.catch(() => null)]. *)
Definition catch_null {T : Type} (s : Settled T) : option T :=
  match s with
  | inl _ => None
  | inr v => Some v
  end.

(** The five calls are issued together and awaited together; of several
    rejections the first in the order of the array is the one caught
    (it only reaches the log). *)
Definition getStatus : Prog OBSStatus :=
  c <- perform GetConnected ;;
  if negb c then Ret disconnected_status
  else
    try_catch
      (settled <- perform (ObsCallAll [GetStreamStatus; GetRecordStatus;
                                       GetCurrentProgramScene; GetSceneList;
                                       GetStats]) ;;
       let '(s1, (s2, (s3, (s4, (s5, _))))) := settled in
       streamStatus <- fulfilled s1 ;;
       recordStatus <- fulfilled s2 ;;
       sceneInfo <- fulfilled s3 ;;
       sceneList <- fulfilled s4 ;;
       let stats := catch_null s5 in
       Ret {| st_connected := true;
              st_streaming := outputActive streamStatus;
              st_recording := outputActive recordStatus;
              st_currentScene := sceneInfo;
              st_availableScenes := scene_names sceneList;
              st_streamTimecode := or_null (outputTimecode streamStatus);
              st_recordTimecode := or_null (outputTimecode recordStatus);
              st_cpuUsage := option_map cpuUsage stats;
              st_memoryUsage := option_map memoryUsage stats;
              st_fps := option_map activeFps stats |})
      (fun err =>
         log ("Failed to get OBS status: " ++ Js.message_of err) ;;
         Ret error_status).

(** *** Connection state *)

Definition isConnected : Prog bool := perform GetConnected.

Definition disconnect : Prog unit :=
  c <- perform GetConnected ;;
  if c
  then await ObsDisconnect ;;
       perform (SetConnected false) ;;
       log "Disconnected from OBS WebSocket"
  else Ret tt.

End Client.


(** ** What happens to a client *)

(** One thing at a time: a caller invokes a method, the transport raises
    an event, or a reconnect timer fires. *)
Inductive Action : Type :=
| call_connect
| call_disconnect
| call_startStream
| call_stopStream
| call_startRecording
| call_stopRecording
| call_getCurrentScene
| call_getSceneList
| call_setScene (sceneName : string)
| call_setMicMute (mute : bool) (inputName : option string)
| call_setSourceVisibility (sceneName sourceName : string) (visible : bool)
| call_getStatus
| call_isConnected
| ConnectionClosed
| ConnectionError (err : Js.Thrown)
| reconnect_timer_fires.

Definition action_prog (cfg : Config) (a : Action) : Prog unit :=
  match a with
  | call_connect => connect cfg
  | call_disconnect => disconnect
  | call_startStream => ignore (startStream cfg)
  | call_stopStream => ignore stopStream
  | call_startRecording => ignore startRecording
  | call_stopRecording => ignore stopRecording
  | call_getCurrentScene => ignore getCurrentScene
  | call_getSceneList => ignore getSceneList
  | call_setScene name => ignore (setScene name)
  | call_setMicMute mute name => ignore (setMicMute mute name)
  | call_setSourceVisibility scene source visible =>
      ignore (setSourceVisibility scene source visible)
  | call_getStatus => ignore getStatus
  | call_isConnected => ignore isConnected
  | ConnectionClosed => on_ConnectionClosed
  | ConnectionError err => on_ConnectionError err
  | reconnect_timer_fires => reconnect_timer cfg
  end.

(** The operations that go through [serialize]. *)
Definition mutating (a : Action) : bool :=
  match a with
  | call_startStream | call_stopStream | call_startRecording
  | call_stopRecording | call_setScene _ | call_setMicMute _ _
  | call_setSourceVisibility _ _ _ => true
  | _ => false
  end.

(** The body a mutating action hands to [serialize]. *)
Definition body_of (cfg : Config) (a : Action) : Prog OpResult :=
  match a with
  | call_startStream => startStream_body cfg
  | call_stopStream => stopStream_body
  | call_startRecording => startRecording_body
  | call_stopRecording => stopRecording_body
  | call_setScene name => setScene_body name
  | call_setMicMute mute name => setMicMute_body mute name
  | call_setSourceVisibility scene source visible =>
      setSourceVisibility_body scene source visible
  | _ => Throw (Js.Error "not a serialized operation")
  end.

(** *** One action after the other *)

(** An action run to completion; a timer fires only if one is pending. *)
Definition run_action (cfg : Config) (env : Env) (a : Action) (w : World)
  : Outcome unit * World :=
  match a with
  | reconnect_timer_fires =>
      match pendingReconnects w with
      | O => (Returned tt, w)
      | S n => run env (reconnect_timer cfg) (with_pendingReconnects n w)
      end
  | _ => run env (action_prog cfg a) w
  end.

Definition run_actions (cfg : Config) (env : Env) (history : list Action)
  (w : World) : World :=
  fold_left (fun w a => snd (run_action cfg env a w)) history w.

(** *** The event loop *)

(** A call in flight: settled, or suspended at an [await] whose effect has
    been issued. *)
Inductive Task (A : Type) : Type :=
| Finished (o : Outcome A)
| Suspended {T : Type} (e : clientE T) (k : T -> Prog A).

Arguments Finished {A} o.
Arguments Suspended {A T} e k.

(** Run [p] to its next [await]: one turn of the event loop. *)
Fixpoint advance {A : Type} (random : nat -> Q) (p : Prog A) (w : World)
  : Task A * World :=
  match p with
  | Ret a => (Finished (Returned a), w)
  | Throw err => (Finished (Thrown err), w)
  | Spin => (Finished Diverged, w)
  | Vis e k =>
      match sync random e w with
      | Some (x, w') => advance random (k x) w'
      | None => (Suspended e k, issue e w)
      end
  end.

(** The values a suspended effect may resume with in world [w]: a promise
    of the client must be resolved; the transport and the timers answer
    as they please. *)
Definition can_resume {T : Type} (e : clientE T) (x : T) (w : World) : Prop :=
  match e with
  | AwaitPromise p => is_resolved p w = true
  | _ => True
  end.

(** [p] is what the task [t] continues with when it is resumed in [w]. *)
Definition next {A : Type} (t : Task A) (w : World) (p : Prog A) : Prop :=
  match t with
  | Finished _ => False
  | Suspended e k => exists x, can_resume e x w /\ p = k x
  end.

Record System : Type := {
  world : World;
  (* the calls made so far, oldest first, each with what started it *)
  tasks : list (Action * Task unit);
  (* the requests sent so far, each with the index of the task that sent it *)
  calls : list (nat * Request)
}.

Definition start (w : World) : System :=
  {| world := w; tasks := []; calls := [] |}.

(** The requests of a trace, in order. *)
Definition calls_of (tr : list Event) : list Request :=
  flat_map (fun ev => match ev with EvCall r => [r] | _ => [] end) tr.

(** The requests sent between the worlds [w] and [w']. *)
Definition issued_calls (w w' : World) : list Request :=
  calls_of (skipn (length (trace w)) (trace w')).

Fixpoint update {A : Type} (i : nat) (x : A) (l : list A) : list A :=
  match l, i with
  | [], _ => []
  | _ :: rest, O => x :: rest
  | y :: rest, S i' => y :: update i' x rest
  end.

Definition timer_ready (a : Action) (w : World) : Prop :=
  match a with
  | reconnect_timer_fires => pendingReconnects w <> 0
  | _ => True
  end.

Definition before_action (a : Action) (w : World) : World :=
  match a with
  | reconnect_timer_fires =>
      with_pendingReconnects (pred (pendingReconnects w)) w
  | _ => w
  end.

(** Action [a] starts: it runs to its first [await]. *)
Definition spawn (cfg : Config) (random : nat -> Q) (a : Action) (s : System)
  : System :=
  let w := before_action a (world s) in
  let (t, w') := advance random (action_prog cfg a) w in
  {| world := w';
     tasks := tasks s ++ [(a, t)];
     calls := calls s
              ++ map (fun r => (length (tasks s), r)) (issued_calls w w') |}.

(** Task [i], started by [a], continues with [p] to its next [await]. *)
Definition resume (random : nat -> Q) (i : nat) (a : Action) (p : Prog unit)
  (s : System) : System :=
  let (t, w') := advance random p (world s) in
  {| world := w';
     tasks := update i (a, t) (tasks s);
     calls := calls s ++ map (fun r => (i, r)) (issued_calls (world s) w') |}.

Inductive step (cfg : Config) (random : nat -> Q) : System -> System -> Prop :=
| step_spawn a s :
    timer_ready a (world s) ->
    step cfg random s (spawn cfg random a s)
| step_resume i a t p s :
    nth_error (tasks s) i = Some (a, t) ->
    next t (world s) p ->
    step cfg random s (resume random i a p s).

(** No serialized operation is in progress or waiting. *)
Definition idle (w : World) : Prop :=
  is_resolved (commandQueue w) w = true.

(** The queue as [new OBSClient()] leaves it, or as the operations leave
    it when all have finished: its tail is resolved. *)
Definition queue_ready (w : World) : Prop :=
  idle w /\
  commandQueue w < nextPromise w /\
  forall p, is_resolved p w = true -> p < nextPromise w.

Inductive reachable (cfg : Config) (random : nat -> Q) : System -> Prop :=
| reach_start w : queue_ready w -> reachable cfg random (start w)
| reach_step s s' :
    reachable cfg random s -> step cfg random s s' -> reachable cfg random s'.

(** * The vocabulary of the properties *)

(** ** Runs *)

(** How a run of [p] continues into what follows it. *)
Definition and_then {A B : Type} (r : Outcome A * World)
  (next : A -> World -> Outcome B * World) : Outcome B * World :=
  match r with
  | (Returned a, w) => next a w
  | (Thrown err, w) => (Thrown err, w)
  | (Blocked, w) => (Blocked, w)
  | (Diverged, w) => (Diverged, w)
  end.

(** The serializer's bookkeeping on the world: a new promise becomes the
    tail of the queue; resolving it releases the slot. *)
Definition enqueue (w : World) : World :=
  with_commandQueue (nextPromise w)
    (with_promises (resolved w) (S (nextPromise w)) w).

Definition release (p : PromiseId) (w : World) : World :=
  with_promises (p :: resolved w) (nextPromise w) w.

Definition log_line (msg : string) (w : World) : World :=
  with_stderr
    (stderr w ++ [("[chromadon-mcp:obs] " ++ msg ++ Js.newline)%string]) w.

(** The delays slept and the number of handshakes in a trace. *)
Definition sleeps_of (tr : list Event) : list Q :=
  flat_map (fun ev => match ev with EvSleep ms => [ms] | _ => [] end) tr.

Definition handshakes_of (tr : list Event) : nat :=
  length (filter (fun ev => match ev with
                            | EvConnect _ _ _ => true
                            | _ => false
                            end) tr).

(** The events a call added to the trace: [w] before, [w'] after. *)
Definition issued (w w' : World) : list Event :=
  skipn (length (trace w)) (trace w').

(** ** Connecting *)

(** The handshake [connect] sends. *)
Definition handshake (cfg : Config) : Event :=
  EvConnect (OBS_WS_URL cfg) (OBS_PASSWORD cfg) 1.

(** The two errors [connect] throws. *)
Definition exhausted_error (message : string) : Js.Thrown :=
  Js.Error ("Failed to connect after " ++ Js.show_int (Z.of_nat maxRetries)
            ++ " attempts. Last error: " ++ message).

Definition auth_error : Js.Thrown :=
  Js.Error "AUTH_FAILED: OBS WebSocket password is incorrect".

(** What the trace gains, after the handshake, in an attempt that fails
    otherwise than by authentication and leaves [retryCount] at [rc]. *)
Definition retry_events (rc : nat) (random : Q) : list Event :=
  if (maxRetries <? rc)%nat then []
  else [EvSleep (jittered (backoff rc) random)].

(** Every handshake fails, and none as an authentication failure. *)
Definition always_refused (env : Env) : Prop :=
  forall sent, exists err,
    env_connect env sent = inl err /\
    classify (Js.message_of err) <> AuthFailed.

(** What [connect] sends when [n] more retries are allowed, [retryCount]
    is [rc] and [Math.random] has been called [d] times: a handshake and a
    sleep per retry, and the last handshake. *)
Fixpoint retries_trace (cfg : Config) (env : Env) (n rc d : nat)
  : list Event :=
  match n with
  | O => [handshake cfg]
  | S n' =>
      handshake cfg
        :: EvSleep (jittered (backoff (rc + 1)) (env_random env d))
        :: retries_trace cfg env n' (rc + 1) (S d)
  end.

Fixpoint nondecreasing (l : list Q) : Prop :=
  match l with
  | a :: (b :: _) as rest => (a <= b)%Q /\ nondecreasing rest
  | _ => True
  end.

Fixpoint increasing (l : list Q) : Prop :=
  match l with
  | a :: (b :: _) as rest => (a < b)%Q /\ increasing rest
  | _ => True
  end.

(** How a run of the retry loop from the world [w] can end. *)
Inductive loop_end (w : World) : Outcome unit -> World -> Prop :=
| end_connected w' :
    connected w' = true -> connecting w' = false -> retryCount w' = 0 ->
    loop_end w (Returned tt) w'
| end_skipped :
    maxRetries < retryCount w ->
    loop_end w (Returned tt) w
| end_auth w' :
    connected w' = connected w -> connecting w' = false ->
    loop_end w (Thrown auth_error) w'
| end_exhausted message w' :
    connected w' = connected w -> connecting w' = false ->
    maxRetries < retryCount w' ->
    loop_end w (Thrown (exhausted_error message)) w'.

(** After the retries are used up: *)
Definition dead (w : World) : Prop :=
  maxRetries < retryCount w /\ connected w = false.

(** What no action changes on a dead client, and what it can only set. *)
Definition stays_dead (w w' : World) : Prop :=
  retryCount w' = retryCount w /\
  connected w' = false /\
  handshakes_of (trace w') = handshakes_of (trace w) /\
  (connecting w = true -> connecting w' = true).

(** ** Operations *)

(** The condition [setSourceVisibility] maps to SOURCE_NOT_FOUND. *)
Definition not_found_condition (message : string) : bool :=
  Js.includes "NotFound" message || Js.includes "600" message.

(** The error of the first request of [setSourceVisibility] that the
    controller rejects, if any. *)
Definition visibility_failure (env : Env) (w : World)
  (sceneName sourceName : string) (visible : bool) : option Js.Thrown :=
  let sent := trace w ++ [EvCall (GetSceneItemId sceneName sourceName)] in
  match env_call env sent (GetSceneItemId sceneName sourceName) with
  | inl err => Some err
  | inr id =>
      match env_call env
              (sent ++ [EvCall (SetSceneItemEnabled sceneName id visible)])
              (SetSceneItemEnabled sceneName id visible) with
      | inl err => Some err
      | inr _ => None
      end
  end.

(** Whether the controller accepts [SetInputMute name mute] after [sent]. *)
Definition accepts (env : Env) (sent : list Event) (mute : bool)
  (name : string) : bool :=
  match env_call env (sent ++ [EvCall (SetInputMute name mute)])
          (SetInputMute name mute) with
  | inl _ => false
  | inr _ => true
  end.

Definition mute_calls (mute : bool) (names : list string) : list Event :=
  map (fun name => EvCall (SetInputMute name mute)) names.

(** The controller rejects each of [names], tried one after the other. *)
Fixpoint rejects_all (env : Env) (sent : list Event) (mute : bool)
  (names : list string) : Prop :=
  match names with
  | [] => True
  | name :: rest =>
      accepts env sent mute name = false /\
      rejects_all env (sent ++ [EvCall (SetInputMute name mute)]) mute rest
  end.

(** ** Status snapshots as JSON *)

Inductive JsValue : Type :=
| JsNull
| JsBool (b : bool)
| JsNumber (x : Q)
| JsString (s : string)
| JsArray (items : list string).

Inductive StatusField : Type :=
| f_connected | f_streaming | f_recording | f_currentScene
| f_availableScenes | f_streamTimecode | f_recordTimecode
| f_cpuUsage | f_memoryUsage | f_fps.

Definition nullable {T : Type} (inj : T -> JsValue) (v : option T) : JsValue :=
  match v with
  | Some x => inj x
  | None => JsNull
  end.

Definition field_value (s : OBSStatus) (f : StatusField) : JsValue :=
  match f with
  | f_connected => JsBool (st_connected s)
  | f_streaming => JsBool (st_streaming s)
  | f_recording => JsBool (st_recording s)
  | f_currentScene => JsString (st_currentScene s)
  | f_availableScenes => JsArray (st_availableScenes s)
  | f_streamTimecode => nullable JsString (st_streamTimecode s)
  | f_recordTimecode => nullable JsString (st_recordTimecode s)
  | f_cpuUsage => nullable JsNumber (st_cpuUsage s)
  | f_memoryUsage => nullable JsNumber (st_memoryUsage s)
  | f_fps => nullable JsNumber (st_fps s)
  end.

(** The five requests of [getStatus]. *)
Definition status_requests : list Request :=
  [GetStreamStatus; GetRecordStatus; GetCurrentProgramScene; GetSceneList;
   GetStats].


(** ** The queue of serialized calls *)

(** A task waits at the gate of [serialize] ([await prev]); a task has
    completed when it has returned or thrown. *)
Definition at_gate {A : Type} (t : Task A) : bool :=
  match t with
  | Suspended (AwaitPromise _) _ => true
  | _ => false
  end.

Definition completed {A : Type} (t : Task A) : bool :=
  match t with
  | Finished (Returned _) | Finished (Thrown _) => true
  | _ => false
  end.

Definition mutating_at (ts : list (Action * Task unit)) (i : nat) : bool :=
  match nth_error ts i with
  | Some (a, _) => mutating a
  | None => false
  end.

(** A task can be resumed whatever the answer, or has ended. *)
Definition resumable {A : Type} (t : Task A) (w : World) : Prop :=
  match t with
  | Finished _ => True
  | Suspended e _ => forall x, can_resume e x w
  end.

(** In the log of requests, a request of a later serialized call never
    comes before a request of an earlier one. *)
Definition fifo (ts : list (Action * Task unit)) (cs : list (nat * Request))
  : Prop :=
  forall m n i r j r',
    m < n ->
    nth_error cs m = Some (i, r) ->
    nth_error cs n = Some (j, r') ->
    mutating_at ts i = true ->
    mutating_at ts j = true ->
    i <= j.

Definition touches_queue {T : Type} (e : clientE T) : bool :=
  match e with
  | GetCommandQueue | SetCommandQueue _ | NewPromise | ResolvePromise _
  | AwaitPromise _ => true
  | _ => false
  end.

(** No effect of [p] reads or writes the queue or a promise; with
    [spin_ok = false], moreover, [p] has no [Spin] leaf. *)
Fixpoint queue_free {A : Type} (spin_ok : bool) (p : Prog A) : Prop :=
  match p with
  | Ret _ | Throw _ => True
  | Spin => spin_ok = true
  | Vis e k => touches_queue e = false /\ forall x, queue_free spin_ok (k x)
  end.

(** What [serialize fn] runs past the gate, inside an action. *)
Definition guarded {A : Type} (fn : Prog A) (resolve : PromiseId) : Prog unit :=
  ignore (try_finally fn (perform (ResolvePromise resolve))).

Definition same_queue (w w' : World) : Prop :=
  commandQueue w' = commandQueue w /\
  resolved w' = resolved w /\
  nextPromise w' = nextPromise w.

Definition resolved_grows (w w' : World) : Prop :=
  forall x, is_resolved x w = true -> is_resolved x w' = true.

Definition task_queue_free {A : Type} (spin_ok : bool) (t : Task A) : Prop :=
  match t with
  | Finished o => spin_ok = false -> o <> Diverged /\ o <> Blocked
  | Suspended e k =>
      touches_queue e = false /\ forall x, queue_free spin_ok (k x)
  end.

(** A serialized call that waits for promise [q] and resolves promise [p]
    is at the gate, inside its body, or done. *)
Inductive slot_state (w : World) (q p : PromiseId) : Task unit -> Prop :=
| slot_gate (fn : Prog OpResult) :
    queue_free false fn ->
    is_resolved p w = false ->
    slot_state w q p (Suspended (AwaitPromise q) (fun _ => guarded fn p))
| slot_inside (T : Type) (e : clientE T) (k : T -> Prog OpResult) :
    touches_queue e = false ->
    (forall x, queue_free false (k x)) ->
    is_resolved q w = true ->
    is_resolved p w = false ->
    slot_state w q p (Suspended e (fun x => guarded (k x) p))
| slot_done (o : Outcome unit) :
    completed (Finished o) = true ->
    is_resolved q w = true ->
    is_resolved p w = true ->
    slot_state w q p (Finished o).

(** The tasks in order: each serialized call waits for the promise of the
    one before it ([q] for the first; [q'] is the promise of the last). *)
Inductive chain (w : World)
  : PromiseId -> list (Action * Task unit) -> PromiseId -> Prop :=
| chain_nil q : chain w q [] q
| chain_other q a t ts q' :
    mutating a = false ->
    task_queue_free true t ->
    chain w q ts q' ->
    chain w q ((a, t) :: ts) q'
| chain_slot q p a t ts q' :
    mutating a = true ->
    q < p ->
    slot_state w q p t ->
    chain w p ts q' ->
    chain w q ((a, t) :: ts) q'.

(** What every reachable state of the event loop satisfies. *)
Definition invariant (s : System) : Prop :=
  (exists q0,
     is_resolved q0 (world s) = true /\
     chain (world s) q0 (tasks s) (commandQueue (world s))) /\
  commandQueue (world s) < nextPromise (world s) /\
  (forall p, is_resolved p (world s) = true -> p < nextPromise (world s)) /\
  (forall j r, In (j, r) (calls s) -> j < length (tasks s)) /\
  (forall j r a t,
     In (j, r) (calls s) -> nth_error (tasks s) j = Some (a, t) ->
     mutating a = true -> at_gate t = false) /\
  fifo (tasks s) (calls s).

(** ** Concrete controllers, clients and runs *)

(** A client whose transport is down: every handshake is refused with
    [message], every request fails. *)
Definition refusing_env (message : string) (random : nat -> Q) : Env := {|
  env_connect := fun _ => inl (Js.Error message);
  env_call := fun _ _ => inl (Js.Error "Not connected");
  env_disconnect := fun _ => inr tt;
  env_random := random
|}.

Definition silent_env : Env :=
  refusing_env "connect ECONNREFUSED 127.0.0.1:4455" (fun _ => 0%Q).

(** A controller that rejects every request with [err]. *)
Definition rejecting_env (err : Js.Thrown) : Env := {|
  env_connect := fun _ =>
    inr {| obsWebSocketVersion := "5.1.0"; negotiatedRpcVersion := 1 |};
  env_call := fun _ _ => inl err;
  env_disconnect := fun _ => inr tt;
  env_random := fun _ => 0%Q
|}.

(** [Math.random] returning 0 except for the sixth call, 1/2. *)
Definition sixth_half (n : nat) : Q :=
  if (n =? 5)%nat then (1 # 2)%Q else 0%Q.

(** A controller showing the scene [scene], with the scenes [scenes], one
    input named Elgato Wave, no scene item and no statistics. *)
Definition studio_env (scene : string) (scenes : list string) : Env := {|
  env_connect := fun _ =>
    inr {| obsWebSocketVersion := "5.1.0"; negotiatedRpcVersion := 1 |};
  env_call := fun _ r =>
    match r as r0 return Settled (Response r0) with
    | GetCurrentProgramScene => inr scene
    | GetSceneList => inr (map (fun n => {| sceneName := n |}) scenes)
    | GetStreamStatus | GetRecordStatus =>
        inr {| outputActive := false; outputTimecode := EmptyString |}
    | GetInputList => inr [{| inputName := "Elgato Wave" |}]
    | SetInputMute _ _ => inl (Js.Error "No source was found (code 600)")
    | GetSceneItemId _ _ => inl (Js.Error "No scene items were found (600)")
    | GetStats => inl (Js.Error "request timed out")
    | StopRecord => inr "/tmp/out.mkv"
    | _ => inr tt
    end;
  env_disconnect := fun _ => inr tt;
  env_random := fun _ => 0%Q
|}.

Definition connected_client : World := with_connected true fresh_client.

(** A run of the event loop: [setScene "Live"] and [startStream] are
    called one after the other on a connected client; the first passes the
    gate and awaits the scene list, the controller being slow to answer. *)
Definition no_jitter : nat -> Q := fun _ => 0%Q.

Definition one_call : System :=
  spawn default_config no_jitter (call_setScene "Live")
    (start connected_client).

Definition two_calls : System :=
  spawn default_config no_jitter call_startStream one_call.

Definition two_calls_first_inside : System :=
  resume no_jitter 0 (call_setScene "Live")
    (guarded (setScene_body "Live") 1) two_calls.

Definition task_at (s : System) (i : nat) : Task unit :=
  snd (nth i (tasks s) (call_isConnected, Finished Blocked)).

(** What a task suspended at a request continues with when the controller
    answers it with [answer]. *)
Definition answered (answer : forall r, Settled (Response r))
  (t : Task unit) : Prog unit :=
  match t with
  | Suspended e k =>
      match e in clientE T return (T -> Prog unit) -> Prog unit with
      | ObsCall r => fun k => k (answer r)
      | _ => fun _ => Spin
      end k
  | Finished _ => Spin
  end.

(** The run goes on: the controller rejects the scene list request, so the
    first call throws; then the second call passes the gate and asks for
    the current scene. *)
Definition first_rejected : System :=
  resume no_jitter 0 (call_setScene "Live")
    (answered (fun _ => inl (Js.Error "socket hang up"))
       (task_at two_calls_first_inside 0))
    two_calls_first_inside.

Definition second_inside : System :=
  resume no_jitter 1 call_startStream
    (guarded (startStream_body default_config) 2) first_rejected.

(** * More of the vocabulary *)

(** ** Connecting, whatever the controller answers *)

(** How a call of [connect] that went through [j] retries ends. *)
Definition connect_end (w : World) (j : nat) (o : Outcome unit) (w' : World)
  : Prop :=
  match o with
  | Returned _ => connected w' = true /\ retryCount w' = 0
  | Thrown err =>
      connected w' = connected w /\
      retryCount w' = retryCount w + j + 1 /\
      (err = auth_error \/
       exists message,
         err = exhausted_error message /\ retryCount w + j = maxRetries)
  | Blocked | Diverged => False
  end.

(** The first [k] handshakes sent after [sent0] fail otherwise than by
    authentication; the one after them is accepted with [hello]. *)
Definition recovers_after (env : Env) (sent0 : list Event) (k : nat)
  (hello : Hello) : Prop :=
  (forall sent,
     handshakes_of sent <= handshakes_of sent0 + k ->
     exists err,
       env_connect env sent = inl err /\
       classify (Js.message_of err) <> AuthFailed) /\
  (forall sent,
     handshakes_of sent = handshakes_of sent0 + k + 1 ->
     env_connect env sent = inr hello).

(** Every handshake fails as an authentication failure. *)
Definition always_auth (env : Env) : Prop :=
  forall sent, exists err,
    env_connect env sent = inl err /\
    classify (Js.message_of err) = AuthFailed.

(** [Math.random] returns a number of the interval [0, 1). *)
Definition unit_interval (random : nat -> Q) : Prop :=
  forall n, (0 <= random n)%Q /\ (random n < 1)%Q.

Definition total (delays : list Q) : Q := fold_right Qplus 0%Q delays.

(** A controller whose first [k] handshakes are refused. *)
Definition flaky_env (k : nat) : Env := {|
  env_connect := fun sent =>
    if (handshakes_of sent <=? k)%nat
    then inl (Js.Error "connect ECONNREFUSED 127.0.0.1:4455")
    else inr {| obsWebSocketVersion := "5.1.0"; negotiatedRpcVersion := 1 |};
  env_call := fun _ _ => inl (Js.Error "Not connected");
  env_disconnect := fun _ => inr tt;
  env_random := fun _ => (1 # 2)%Q
|}.

(** A controller that rejects the password. *)
Definition wrong_password_env : Env := {|
  env_connect := fun _ => inl (Js.Error "Authentication failed");
  env_call := fun _ _ => inl (Js.Error "Not connected");
  env_disconnect := fun _ => inr tt;
  env_random := fun _ => 0%Q
|}.

(** ** The effects a program is limited to *)

Definition Allowed : Type := forall T : Type, clientE T -> bool.

(** Every effect of [p] satisfies [allowed]. *)
Fixpoint only {A : Type} (allowed : Allowed) (p : Prog A) : Prop :=
  match p with
  | Ret _ | Throw _ | Spin => True
  | Vis e k => allowed _ e = true /\ forall x, only allowed (k x)
  end.

(** What an operation does: it reads [connected], goes through the queue,
    sends requests and logs. *)
Definition operation_effect : Allowed := fun _ e =>
  match e with
  | GetConnected | GetCommandQueue | SetCommandQueue _ | NewPromise
  | ResolvePromise _ | AwaitPromise _ | ObsCall _ | ObsCallAll _
  | StderrWrite _ => true
  | _ => false
  end.

Definition no_timer : Allowed := fun _ e =>
  match e with
  | SetTimeoutReconnect _ => false
  | _ => true
  end.

(** The methods that query or command the controller. *)
Definition operation (a : Action) : bool :=
  mutating a
  || match a with
     | call_getCurrentScene | call_getSceneList | call_getStatus
     | call_isConnected => true
     | _ => false
     end.

(** The methods that start with [ensureConnected]. *)
Definition needs_connection (a : Action) : bool :=
  mutating a
  || match a with
     | call_getCurrentScene | call_getSceneList => true
     | _ => false
     end.

Definition not_connected_error : Js.Thrown :=
  Js.Error ("NOT_CONNECTED: OBS WebSocket is not connected. "
            ++ "Is OBS running with WebSocket enabled?").

(** A call has settled when it has returned or thrown. *)
Definition settles {A : Type} (o : Outcome A) : Prop :=
  match o with
  | Returned _ | Thrown _ => True
  | Blocked | Diverged => False
  end.

(** ** Switching an output on or off *)

(** The four operations that start or stop an output: the status request
    each begins with, the state it asks for and the request that switches. *)
Inductive Toggle : Type :=
| start_stream | stop_stream | start_recording | stop_recording.

Definition toggle_op (cfg : Config) (t : Toggle) : Prog OpResult :=
  match t with
  | start_stream => startStream cfg
  | stop_stream => stopStream
  | start_recording => startRecording
  | stop_recording => stopRecording
  end.

Definition toggle_status (t : Toggle) : Request :=
  match t with
  | start_stream | stop_stream => GetStreamStatus
  | start_recording | stop_recording => GetRecordStatus
  end.

Definition toggle_request (t : Toggle) : Request :=
  match t with
  | start_stream => StartStream
  | stop_stream => StopStream
  | start_recording => StartRecord
  | stop_recording => StopRecord
  end.

Definition toggle_wanted (t : Toggle) : bool :=
  match t with
  | start_stream | start_recording => true
  | stop_stream | stop_recording => false
  end.

(** The controller's answer to the status request of [t]. *)
Definition status_answer (env : Env) (sent : list Event) (t : Toggle)
  : Settled OutputStatus :=
  match t with
  | start_stream | stop_stream => env_call env sent GetStreamStatus
  | start_recording | stop_recording => env_call env sent GetRecordStatus
  end.

(** The path the controller reports when a recording stops. *)
Definition stopped_path (env : Env) (sent : list Event) (t : Toggle)
  : option string :=
  match t with
  | stop_recording =>
      match env_call env sent StopRecord with
      | inr path => Some path
      | inl _ => None
      end
  | _ => None
  end.

(** A controller that accepts every request; every scene item has the
    identifier [id]. *)
Definition answering_env (id : Z) : Env := {|
  env_connect := fun _ =>
    inr {| obsWebSocketVersion := "5.1.0"; negotiatedRpcVersion := 1 |};
  env_call := fun _ r =>
    match r as r0 return Settled (Response r0) with
    | GetCurrentProgramScene => inr "Main"
    | GetSceneList => inr [{| sceneName := "Main" |}]
    | GetStreamStatus | GetRecordStatus =>
        inr {| outputActive := true; outputTimecode := "00:01:02.345" |}
    | GetInputList => inr [{| inputName := "Mic/Aux" |}]
    | GetSceneItemId _ _ => inr id
    | GetStats =>
        inr {| cpuUsage := (5 # 2)%Q; memoryUsage := 512%Q;
               activeFps := 60%Q |}
    | StopRecord => inr "/tmp/out.mkv"
    | _ => inr tt
    end;
  env_disconnect := fun _ => inr tt;
  env_random := fun _ => 0%Q
|}.

(** ** Calls in flight *)

(** The calls that run [connect]. *)
Definition connects (a : Action) : bool :=
  match a with
  | call_connect | reconnect_timer_fires => true
  | _ => false
  end.

Definition in_flight {A : Type} (t : Task A) : bool :=
  match t with
  | Suspended _ _ => true
  | Finished _ => false
  end.

(** A call to [getStatus] made while [setScene "Live"] is in the queue. *)
Definition status_during_call : System :=
  spawn default_config no_jitter call_getStatus one_call.

(** [connect] called twice in a row on a new client. *)
Definition connecting_twice : System :=
  spawn default_config no_jitter call_connect
    (spawn default_config no_jitter call_connect (start fresh_client)).

(** The effects that suspend the caller (those [sync] does not complete). *)
Definition suspends {T : Type} (e : clientE T) : bool :=
  match e with
  | AwaitPromise _ | ObsConnect _ _ _ | ObsCall _ | ObsCallAll _
  | ObsDisconnect | Sleep _ => true
  | _ => false
  end.

Definition writes_connecting {T : Type} (e : clientE T) : option bool :=
  match e with
  | SetConnecting b => Some b
  | _ => None
  end.

Definition no_flag : Allowed := fun _ e =>
  match e with
  | SetConnecting _ => false
  | _ => true
  end.

(** Started where [connecting] has the value [flag], and nothing else
    writing it, [p] suspends only while [connecting] is [true]; where it
    returns [a], or throws, [connecting] has a value [b] with [ret b a],
    or [thr b]. *)
Fixpoint flagged {A : Type} (flag : bool) (p : Prog A)
  (ret : bool -> A -> Prop) (thr : bool -> Prop) : Prop :=
  match p with
  | Ret a => ret flag a
  | Throw _ => thr flag
  | Spin => True
  | Vis e k =>
      (suspends e = true -> flag = true) /\
      forall x,
        flagged (match writes_connecting e with
                 | Some b => b
                 | None => flag
                 end) (k x) ret thr
  end.

(** The continuation of a task satisfies [P] whatever it is resumed with. *)
Definition continuation {A : Type} (P : Prog A -> Prop) (t : Task A) : Prop :=
  match t with
  | Finished _ => True
  | Suspended _ k => forall x, P (k x)
  end.

(** What every reachable state satisfies as to [connecting]: the calls
    other than [connect] never write it; a call of [connect] in flight
    holds it; there is at most one such call. *)
Definition connect_invariant (s : System) : Prop :=
  (forall i a t,
     nth_error (tasks s) i = Some (a, t) -> connects a = false ->
     continuation (only no_flag) t) /\
  (forall i a t,
     nth_error (tasks s) i = Some (a, t) -> connects a = true ->
     in_flight t = true ->
     connecting (world s) = true /\
     continuation (fun p => flagged true p (fun _ _ => True) (fun _ => True))
       t) /\
  (forall i j a b t u,
     nth_error (tasks s) i = Some (a, t) ->
     nth_error (tasks s) j = Some (b, u) ->
     connects a = true -> connects b = true ->
     in_flight t = true -> in_flight u = true ->
     i = j).

(** * The tools and the HTTP client of the Desktop control server *)

(** ** JavaScript values *)

Module Json.

(** A value as [JSON.parse] produces it, or [undefined]. *)
#[warnings="-register-all"] Inductive value : Type :=
| Undefined
| Null
| Bool (b : bool)
| Number (x : Q)
| Str (s : string)
| Arr (items : list value)
| Obj (fields : list (string * value)).

(** An object, by its own properties in insertion order. *)
Definition object : Type := list (string * value).

(** [obj.key]: [undefined] when the object has no such property. *)
Fixpoint field (key : string) (obj : object) : value :=
  match obj with
  | [] => Undefined
  | (k, v) :: rest => if String.eqb k key then v else field key rest
  end.

(** Truthiness, as [if (v)] tests it. *)
Definition truthy (v : value) : bool :=
  match v with
  | Undefined | Null => false
  | Bool b => b
  | Number x => negb (Qeq_bool x 0)
  | Str EmptyString => false
  | Str _ | Arr _ | Obj _ => true
  end.

(** [v !== undefined]. *)
Definition defined (v : value) : bool :=
  match v with
  | Undefined => false
  | _ => true
  end.

(** [cond ? [(key, v)] : []]: a property set under a condition. *)
Definition set_if (cond : bool) (key : string) (v : value) : object :=
  if cond then [(key, v)] else [].

End Json.

(** ** The runtime: promises that settle, [fetch], timers, [sharp] *)

Module Node.

(** A thrown value: an instance of [Error] with its name and message, or
    any other value, kept by its [String(v)] rendering. *)
Inductive Thrown : Type :=
| ErrorObject (name message : string)
| OtherValue (rendering : string).

(** [new Error(message)]. *)
Definition new_Error (message : string) : Thrown :=
  ErrorObject "Error" message.

(** [error instanceof Error ? error.message : String(error)]. *)
Definition message_of (error : Thrown) : string :=
  match error with
  | ErrorObject _ message => message
  | OtherValue rendering => rendering
  end.

Definition Settled (T : Type) : Type := (Thrown + T)%type.

Definition Buffer : Type := list Byte.byte.

(** The second argument of [fetch], the abort signal apart. *)
Record Options : Type := {
  method : option string;
  headers : list (string * string);
  body : option string
}.

(** [{}]. *)
Definition no_options : Options :=
  {| method := None; headers := []; body := None |}.

Record Request : Type := {
  url : string;
  options : Options
}.

(** A response: its status line, and what reading its body gives. *)
Record Response : Type := {
  ok : bool;
  status : Z;
  text : Settled string;
  json : Settled Json.value;
  arrayBuffer : Settled Buffer
}.

(** [sharp(buffer).metadata()], as far as it is read. *)
Record Metadata : Type := {
  width : option Z;
  height : option Z
}.

(** What the program does not decide: the answers of the server, a
    request that gets none within the timeout being rejected with an
    [AbortError]; the built-in conversions; the image library. *)
Record Host : Type := {
  fetch_answer : list Request -> Request -> Settled Response;
  JSON_stringify : Json.value -> string;          (* JSON.stringify(v) *)
  JSON_pretty : Json.value -> string;    (* JSON.stringify(v, null, 2) *)
  String_of : Json.value -> string;               (* `${v}` *)
  sharp_metadata : Buffer -> Settled Metadata;
  sharp_resize : Buffer -> Z -> Z -> Settled Buffer;
  base64 : Buffer -> string                (* buffer.toString('base64') *)
}.

(** What the program does to the outside. *)
Record Net : Type := {
  sent : list Request;                (* the requests made, in order *)
  timers : list (nat * Z);            (* the timers set and not cleared *)
  nextTimer : nat;
  written : list string               (* the lines written to stderr *)
}.

Definition offline : Net :=
  {| sent := []; timers := []; nextTimer := 0; written := [] |}.

(** An asynchronous computation, run to completion. *)
Definition M (A : Type) : Type := Host -> Net -> Settled A * Net.

Definition ret {A : Type} (a : A) : M A := fun _ n => (inr a, n).

Definition throw {A : Type} (error : Thrown) : M A := fun _ n => (inl error, n).

Definition bind {A B : Type} (m : M A) (f : A -> M B) : M B :=
  fun h n =>
    match m h n with
    | (inr a, n') => f a h n'
    | (inl error, n') => (inl error, n')
    end.

(** [try { m } catch (error) { handler error }]. *)
Definition try_catch {A : Type} (m : M A) (handler : Thrown -> M A) : M A :=
  fun h n =>
    match m h n with
    | (inl error, n') => handler error h n'
    | settled => settled
    end.

(** [try { m } finally { cleanup }]. *)
Definition try_finally {A : Type} (m : M A) (cleanup : M unit) : M A :=
  fun h n =>
    let (settled, n') := m h n in
    match cleanup h n' with
    | (inr _, n'') => (settled, n'')
    | (inl error, n'') => (inl error, n'')
    end.

(** [await p] for a promise the host settles. *)
Definition await {A : Type} (p : Host -> Settled A) : M A :=
  fun h n => (p h, n).

(** A built-in conversion. *)
Definition builtin {A : Type} (f : Host -> A) : M A :=
  fun h n => (inr (f h), n).

Definition setTimeout (ms : Z) : M nat :=
  fun _ n =>
    (inr (nextTimer n),
     {| sent := sent n; timers := (nextTimer n, ms) :: timers n;
        nextTimer := S (nextTimer n); written := written n |}).

Definition clearTimeout (timer : nat) : M unit :=
  fun _ n =>
    (inr tt,
     {| sent := sent n;
        timers := filter (fun t => negb (fst t =? timer)%nat) (timers n);
        nextTimer := nextTimer n; written := written n |}).

(** [fetch(url, { ...options, signal })]. *)
Definition fetch (url : string) (options : Options) : M Response :=
  fun h n =>
    let request := {| url := url; options := options |} in
    let requests := sent n ++ [request] in
    (fetch_answer h requests request,
     {| sent := requests; timers := timers n; nextTimer := nextTimer n;
        written := written n |}).

(** [process.stderr.write(line)]. *)
Definition stderr_write (line : string) : M unit :=
  fun _ n =>
    (inr tt,
     {| sent := sent n; timers := timers n; nextTimer := nextTimer n;
        written := written n ++ [line] |}).

End Node.

Declare Scope node_scope.
Delimit Scope node_scope with node.
Notation "x <- p ;; q" := (Node.bind p (fun x => q))
  (at level 61, p at next level, right associativity) : node_scope.
Notation "p ;; q" := (Node.bind p (fun _ => q))
  (at level 61, right associativity) : node_scope.

(** ** client.ts *)

Module Client.

Import Node.
Local Open Scope node_scope.

Definition BASE_URL : string := "http://127.0.0.1:3002".
Definition TIMEOUT_MS : Z := 10000.

Definition log (msg : string) : M unit :=
  stderr_write ("[chromadon-mcp] " ++ msg ++ Js.newline).

(** [error instanceof Error && error.name === 'AbortError']. *)
Definition is_AbortError (error : Thrown) : bool :=
  match error with
  | ErrorObject name _ => String.eqb name "AbortError"
  | OtherValue _ => false
  end.

Definition fetchWithTimeout (url : string) (options : Options) : M Response :=
  timer <- setTimeout TIMEOUT_MS ;;
  try_finally
    (try_catch
       (response <- fetch url options ;;
        ret response)
       (fun error =>
          if is_AbortError error
          then throw (new_Error ("Request to " ++ url ++ " timed out after "
                                 ++ Js.show_int TIMEOUT_MS ++ "ms"))
          else throw error))
    (clearTimeout timer).

Definition isAvailable : M bool :=
  try_catch
    (response <- fetchWithTimeout (BASE_URL ++ "/health") no_options ;;
     ret (ok response))
    (fun _ => ret false).

Definition ensureConnected : M unit := ret tt.

Definition checkConnection : M unit :=
  available <- isAvailable ;;
  if negb available
  then throw (new_Error
                ("CHROMADON Desktop is not running or not reachable at "
                 ++ "http://127.0.0.1:3002. "
                 ++ "Please start the CHROMADON Desktop app first."))
  else ret tt.

Definition get (path : string) : M Json.value :=
  checkConnection ;;
  let url := (BASE_URL ++ path)%string in
  log ("GET " ++ path) ;;
  response <- fetchWithTimeout url no_options ;;
  if negb (ok response)
  then text <- await (fun _ => text response) ;;
       throw (new_Error ("GET " ++ path ++ " failed ("
                         ++ Js.show_int (status response) ++ "): " ++ text))
  else await (fun _ => json response).

(** [body] is [Json.Undefined] when the argument is left out. *)
Definition post (path : string) (body : Json.value) : M Json.value :=
  checkConnection ;;
  let url := (BASE_URL ++ path)%string in
  log ("POST " ++ path) ;;
  serialized <- builtin (fun h =>
                  if Json.defined body then Some (JSON_stringify h body)
                  else None) ;;
  response <- fetchWithTimeout url
                {| method := Some "POST";
                   headers := [("Content-Type", "application/json")];
                   body := serialized |} ;;
  if negb (ok response)
  then text <- await (fun _ => text response) ;;
       throw (new_Error ("POST " ++ path ++ " failed ("
                         ++ Js.show_int (status response) ++ "): " ++ text))
  else await (fun _ => json response).

Definition getBinary (path : string) : M Buffer :=
  checkConnection ;;
  let url := (BASE_URL ++ path)%string in
  log ("GET (binary) " ++ path) ;;
  response <- fetchWithTimeout url no_options ;;
  if negb (ok response)
  then text <- await (fun _ => text response) ;;
       throw (new_Error ("GET " ++ path ++ " failed ("
                         ++ Js.show_int (status response) ++ "): " ++ text))
  else await (fun _ => arrayBuffer response).

End Client.

(** ** screenshot.js *)

Module Screenshot.

Import Node.
Local Open Scope node_scope.

Definition MAX_DIMENSION : Z := 1920.

Record ScreenshotResult : Type := {
  data : string;
  mimeType : string
}.

(** [dimension || 0]. *)
Definition or_zero (dimension : option Z) : Z :=
  match dimension with
  | Some d => d
  | None => 0
  end.

Definition processScreenshot (pngBuffer : Buffer) : M ScreenshotResult :=
  metadata <- await (fun h => sharp_metadata h pngBuffer) ;;
  let width := or_zero (width metadata) in
  let height := or_zero (height metadata) in
  outputBuffer <-
    (if (MAX_DIMENSION <? width)%Z || (MAX_DIMENSION <? height)%Z
     then resized <- await (fun h => sharp_resize h pngBuffer MAX_DIMENSION
                                       MAX_DIMENSION) ;;
          stderr_write ("[chromadon-mcp] Screenshot resized: "
                        ++ Js.show_int width ++ "x" ++ Js.show_int height
                        ++ " -> max " ++ Js.show_int MAX_DIMENSION ++ "px"
                        ++ Js.newline) ;;
          ret resized
     else ret pngBuffer) ;;
  encoded <- builtin (fun h => base64 h outputBuffer) ;;
  ret {| data := encoded; mimeType := "image/png" |}.

End Screenshot.

(** ** The tool modules *)

(** A content block of a tool result. *)
Inductive ContentBlock : Type :=
| text_block (text : string)
| image_block (data mimeType : string).

(** [return JSON.stringify(await request, null, 2)], the end of most
    handlers. *)
Definition stringified (request : Node.M Json.value)
  : Node.M (option string) :=
  (result <- request ;;
   text <- Node.builtin (fun h => Node.JSON_pretty h result) ;;
   Node.ret (Some text))%node.

(** *** dist/tools/observation.js: without a tab it captures the whole
    window *)

Module ObservationJs.

Import Node.
Local Open Scope node_scope.

Definition tool_names : list string :=
  ["take_screenshot"; "get_interactive_elements"; "execute_script"].

Definition handle (name : string) (args : Json.object)
  : M (option (list ContentBlock)) :=
  if String.eqb name "take_screenshot" then
    pngBuffer <-
      (if Json.defined (Json.field "tabId" args)
       then path <- builtin (fun h =>
                       ("/tabs/screenshot/"
                        ++ String_of h (Json.field "tabId" args))%string) ;;
            Client.getBinary path
       else Client.getBinary "/screenshot") ;;
    screenshot <- Screenshot.processScreenshot pngBuffer ;;
    ret (Some [image_block (Screenshot.data screenshot)
                 (Screenshot.mimeType screenshot)])
  else if String.eqb name "get_interactive_elements" then
    let body :=
      Json.set_if (Json.defined (Json.field "tabId" args))
        "id" (Json.field "tabId" args) in
    result <- Client.post "/tabs/get-interactive-elements" (Json.Obj body) ;;
    text <- builtin (fun h => JSON_pretty h result) ;;
    ret (Some [text_block text])
  else if String.eqb name "execute_script" then
    result <- Client.post "/tabs/execute"
                (Json.Obj [("id", Json.field "tabId" args);
                           ("script", Json.field "script" args)]) ;;
    text <- builtin (fun h => JSON_pretty h result) ;;
    ret (Some [text_block text])
  else ret None.

End ObservationJs.

(** *** dist/tools/tabs.js *)

Module Tabs.

Import Node.
Local Open Scope node_scope.

Definition tool_names : list string :=
  ["list_tabs"; "create_tab"; "navigate"; "close_tab"; "focus_tab"].

Definition handle (name : string) (args : Json.object) : M (option string) :=
  if String.eqb name "list_tabs" then
    stringified (Client.get "/tabs")
  else if String.eqb name "create_tab" then
    let body :=
      Json.set_if (Json.truthy (Json.field "url" args))
        "url" (Json.field "url" args) in
    stringified (Client.post "/tabs/create" (Json.Obj body))
  else if String.eqb name "navigate" then
    stringified (Client.post "/tabs/navigate"
                   (Json.Obj [("id", Json.field "tabId" args);
                              ("url", Json.field "url" args)]))
  else if String.eqb name "close_tab" then
    stringified (Client.post "/tabs/close"
                   (Json.Obj [("id", Json.field "tabId" args)]))
  else if String.eqb name "focus_tab" then
    stringified (Client.post "/tabs/focus"
                   (Json.Obj [("id", Json.field "tabId" args)]))
  else ret None.

End Tabs.

(** *** tools/interaction.ts *)

Module Interaction.

Import Node.
Local Open Scope node_scope.

Definition tool_names : list string :=
  ["click"; "type"; "hover"; "hover_and_click"; "press_key"; "scroll"].

Definition handle (name : string) (args : Json.object) : M (option string) :=
  let arg key := Json.field key args in
  if String.eqb name "click" then
    let body :=
      [("id", arg "tabId")]
      ++ Json.set_if (Json.truthy (arg "selector"))
           "selector" (arg "selector")
      ++ Json.set_if (Json.truthy (arg "text")) "text" (arg "text") in
    stringified (Client.post "/tabs/click" (Json.Obj body))
  else if String.eqb name "type" then
    let body :=
      [("id", arg "tabId"); ("text", arg "text")]
      ++ Json.set_if (Json.truthy (arg "selector"))
           "selector" (arg "selector")
      ++ Json.set_if (Json.defined (arg "clearFirst"))
           "clearFirst" (arg "clearFirst") in
    stringified (Client.post "/tabs/type" (Json.Obj body))
  else if String.eqb name "hover" then
    let body :=
      [("id", arg "tabId")]
      ++ Json.set_if (Json.truthy (arg "selector"))
           "selector" (arg "selector")
      ++ Json.set_if (Json.truthy (arg "text")) "text" (arg "text") in
    stringified (Client.post "/tabs/hover" (Json.Obj body))
  else if String.eqb name "hover_and_click" then
    let body :=
      [("id", arg "tabId"); ("clickText", arg "clickText")]
      ++ Json.set_if (Json.truthy (arg "hoverSelector"))
           "hoverSelector" (arg "hoverSelector")
      ++ Json.set_if (Json.truthy (arg "hoverText"))
           "hoverText" (arg "hoverText")
      ++ Json.set_if (Json.defined (arg "waitMs")) "waitMs" (arg "waitMs") in
    stringified (Client.post "/tabs/hover-and-click" (Json.Obj body))
  else if String.eqb name "press_key" then
    let tabId := arg "tabId" in
    path <- builtin (fun h => ("/tabs/key/" ++ String_of h tabId)%string) ;;
    stringified (Client.post path (Json.Obj [("key", arg "key")]))
  else if String.eqb name "scroll" then
    let tabId := arg "tabId" in
    let body :=
      Json.set_if (Json.truthy (arg "direction"))
        "direction" (arg "direction")
      ++ Json.set_if (Json.defined (arg "amount")) "amount" (arg "amount") in
    path <- builtin (fun h => ("/tabs/scroll/" ++ String_of h tabId)%string) ;;
    stringified (Client.post path (Json.Obj body))
  else ret None.

End Interaction.

(** *** tools/system.ts *)

Module SystemTools.

Import Node.
Local Open Scope node_scope.

Definition tool_names : list string := ["health_check"; "upload_file"].

Definition handle (name : string) (args : Json.object) : M (option string) :=
  let arg key := Json.field key args in
  if String.eqb name "health_check" then
    try_catch
      (stringified (Client.get "/health"))
      (fun error =>
         text <- builtin (fun h =>
                   JSON_pretty h
                     (Json.Obj
                        [("status", Json.Str "unreachable");
                         ("error", Json.Str (message_of error));
                         ("hint",
                          Json.Str
                            "Make sure CHROMADON Desktop is running.")])) ;;
         ret (Some text))
  else if String.eqb name "upload_file" then
    let body :=
      [("id", arg "tabId"); ("filePath", arg "filePath")]
      ++ Json.set_if (Json.truthy (arg "selector"))
           "selector" (arg "selector") in
    stringified (Client.post "/tabs/upload" (Json.Obj body))
  else ret None.

End SystemTools.

(** *** dist/tools/index.js, the registry *)

Module Registry.

Import Node.
Local Open Scope node_scope.

Definition TOOLS : list string :=
  Tabs.tool_names ++ Interaction.tool_names ++ ObservationJs.tool_names
  ++ SystemTools.tool_names.

(** [{ content, isError? }]. *)
Record CallResult : Type := {
  content : list ContentBlock;
  isError : option bool
}.

(** [(await first) ?? (await second)]. *)
Definition or_else (first second : M (option string)) : M (option string) :=
  value <- first ;;
  match value with
  | Some _ => ret value
  | None => second
  end.

Definition handleToolCall (name : string) (args : Json.object)
  : M CallResult :=
  try_catch
    (observationResult <- ObservationJs.handle name args ;;
     match observationResult with
     | Some blocks => ret {| content := blocks; isError := None |}
     | None =>
         textResult <-
           or_else (Tabs.handle name args)
             (or_else (Interaction.handle name args)
                (SystemTools.handle name args)) ;;
         match textResult with
         | Some text =>
             ret {| content := [text_block text]; isError := None |}
         | None =>
             ret {| content := [text_block ("Unknown tool: " ++ name)];
                    isError := Some true |}
         end
     end)
    (fun error =>
       let message := message_of error in
       stderr_write ("[chromadon-mcp] Error in " ++ name ++ ": " ++ message
                     ++ Js.newline) ;;
       ret {| content := [text_block ("Error: " ++ message)];
              isError := Some true |}).

End Registry.

(** ** The Desktop server, as the client finds it *)

(** The request of [isAvailable]. *)
Definition health_request : Node.Request :=
  {| Node.url := "http://127.0.0.1:3002/health";
     Node.options := Node.no_options |}.

(** Whether the health check made after the requests [sent] finds the
    server: it answers, and with a success status. *)
Definition healthy (h : Node.Host) (sent : list Node.Request) : bool :=
  match Node.fetch_answer h (sent ++ [health_request]) health_request with
  | inr response => Node.ok response
  | inl _ => false
  end.

Definition not_running_error : Node.Thrown :=
  Node.new_Error
    ("CHROMADON Desktop is not running or not reachable at "
     ++ "http://127.0.0.1:3002. "
     ++ "Please start the CHROMADON Desktop app first.").

Definition timeout_error (url : string) : Node.Thrown :=
  Node.new_Error ("Request to " ++ url ++ " timed out after 10000ms").

(** No pending timer has the identifier the next timer gets. *)
Definition fresh_timers (n : Node.Net) : Prop :=
  forall t, In t (Node.timers n) -> fst t < Node.nextTimer n.

(** The world after one more request, its timer set and cleared. *)
Definition requested (request : Node.Request) (n : Node.Net) : Node.Net :=
  {| Node.sent := Node.sent n ++ [request];
     Node.timers := Node.timers n;
     Node.nextTimer := S (Node.nextTimer n);
     Node.written := Node.written n |}.

Definition logged (line : string) (n : Node.Net) : Node.Net :=
  {| Node.sent := Node.sent n;
     Node.timers := Node.timers n;
     Node.nextTimer := Node.nextTimer n;
     Node.written := Node.written n ++ [line] |}.

(** What [fetchWithTimeout] makes of the answer to its request. *)
Definition fetched (url : string) (answer : Node.Settled Node.Response)
  : Node.Settled Node.Response :=
  match answer with
  | inl error =>
      inl (if Client.is_AbortError error then timeout_error url else error)
  | inr response => inr response
  end.

(** What a request made with [verb] for [path] comes to, given what
    [fetchWithTimeout] returned; [read] reads the body of a success. *)
Definition outcome {A : Type} (verb path : string)
  (read : Node.Response -> Node.Settled A)
  (answer : Node.Settled Node.Response) : Node.Settled A :=
  match answer with
  | inl error => inl error
  | inr response =>
      if Node.ok response then read response
      else match Node.text response with
           | inl error => inl error
           | inr text =>
               inl (Node.new_Error
                      (verb ++ " " ++ path ++ " failed ("
                       ++ Js.show_int (Node.status response) ++ "): " ++ text))
           end
  end.

(** A computation leaves the timers as it found them. *)
Definition tidy {A : Type} (m : Node.M A) : Prop :=
  forall h n,
    fresh_timers n ->
    fresh_timers (snd (m h n)) /\ Node.timers (snd (m h n)) = Node.timers n.

(** A host for examples: the server is up, and answers every request
    but the health check with the status [status]. *)
Definition answering_host (status : Z) : Node.Host := {|
  Node.fetch_answer := fun _ request =>
    let code :=
      if String.eqb (Node.url request) (Node.url health_request)
      then 200%Z else status in
    inr {| Node.ok := (200 <=? code)%Z && (code <? 300)%Z;
           Node.status := code;
           Node.text := inr "Service Unavailable";
           Node.json := inr (Json.Obj [("ok", Json.Bool true)]);
           Node.arrayBuffer := inr [] |};
  Node.JSON_stringify := fun _ => "{}";
  Node.JSON_pretty := fun _ => "{}";
  Node.String_of := fun _ => "1";
  Node.sharp_metadata := fun _ =>
    inr {| Node.width := Some 3840%Z; Node.height := Some 2160%Z |};
  Node.sharp_resize := fun buffer _ _ => inr buffer;
  Node.base64 := fun _ => EmptyString
|}.

(** A host whose server is down: every request is refused. *)
Definition down_host : Node.Host := {|
  Node.fetch_answer := fun _ _ =>
    inl (Node.ErrorObject "TypeError" "fetch failed");
  Node.JSON_stringify := fun _ => "{}";
  Node.JSON_pretty := fun _ => "{}";
  Node.String_of := fun _ => "1";
  Node.sharp_metadata := fun _ =>
    inr {| Node.width := None; Node.height := None |};
  Node.sharp_resize := fun buffer _ _ => inr buffer;
  Node.base64 := fun _ => EmptyString
|}.

(** The world after a request for [path] that got through the health
    check and was logged with [line]. *)
Definition exchanged (line : string) (request : Node.Request) (n : Node.Net)
  : Node.Net :=
  requested request
    (logged ("[chromadon-mcp] " ++ line ++ Js.newline)
       (requested health_request n)).

Definition get_request (path : string) : Node.Request :=
  {| Node.url := Client.BASE_URL ++ path; Node.options := Node.no_options |}.

Definition post_request (h : Node.Host) (path : string) (body : Json.value)
  : Node.Request :=
  {| Node.url := Client.BASE_URL ++ path;
     Node.options :=
       {| Node.method := Some "POST";
          Node.headers := [("Content-Type", "application/json")];
          Node.body := if Json.defined body
                       then Some (Node.JSON_stringify h body)
                       else None |} |}.

(** The answer of the server to [request], made after the health check. *)
Definition answer_to (h : Node.Host) (n : Node.Net) (request : Node.Request)
  : Node.Settled Node.Response :=
  fetched (Node.url request)
    (Node.fetch_answer h (Node.sent n ++ [health_request; request]) request).

(** ** What a tool call returns *)

(** The result of [handleToolCall] for a thrown error with [message]. *)
Definition error_result (message : string) : Registry.CallResult :=
  {| Registry.content := [text_block ("Error: " ++ message)];
     Registry.isError := Some true |}.

Definition unknown_tool_result (name : string) : Registry.CallResult :=
  {| Registry.content := [text_block ("Unknown tool: " ++ name)];
     Registry.isError := Some true |}.

(** The line [handleToolCall] writes for an error of the tool [name]. *)
Definition error_line (name message : string) : string :=
  "[chromadon-mcp] Error in " ++ name ++ ": " ++ message ++ Js.newline.

(** The report of [health_check] when the server does not answer. *)
Definition unreachable_report (error : Node.Thrown) : Json.value :=
  Json.Obj
    [("status", Json.Str "unreachable");
     ("error", Json.Str (Node.message_of error));
     ("hint", Json.Str "Make sure CHROMADON Desktop is running.")].

(** * Properties *)

(** ** Strings *)

Lemma prefix_append (s rest : string) : String.prefix s (s ++ rest) = true.
Proof.
  induction s as [| c s IH]; simpl.
  - destruct rest; reflexivity.
  - destruct (ascii_dec c c) as [_ | ne]; [exact IH | congruence].
Qed.

Lemma includes_here (s rest : string) : Js.includes s (s ++ rest) = true.
Proof.
  destruct s as [| c s]; simpl.
  - destruct rest; reflexivity.
  - destruct (ascii_dec c c) as [_ | ne]; [| congruence].
    rewrite prefix_append. reflexivity.
Qed.

Lemma includes_later (s before hay : string) :
  Js.includes s hay = true -> Js.includes s (before ++ hay) = true.
Proof.
  intros H. induction before as [| c before IH]; simpl.
  - exact H.
  - rewrite IH. apply orb_true_r.
Qed.

Lemma includes_skip (s : string) (c : ascii) (hay : string) :
  Js.includes s hay = true -> Js.includes s (String c hay) = true.
Proof. intros H. simpl. rewrite H. apply orb_true_r. Qed.

(** [s] occurs in a concatenation one of whose pieces it is. *)
Ltac includes_solve :=
  repeat first [ apply includes_here | apply includes_skip
               | apply includes_later ].

(** *** Rounding to the nearest double *)

Section Numbers.

Local Open Scope Q_scope.

Lemma pow2_pos (e : Z) : 0 < 2 ^ e.
Proof. apply Qpower_0_lt. reflexivity. Qed.

Lemma pow2_succ (e : Z) : 2 ^ (e + 1) == 2 * 2 ^ e.
Proof.
  rewrite Qpower_plus by discriminate. rewrite Qpower_1_r. ring.
Qed.

Lemma pow2_le (e e' : Z) : (e <= e')%Z -> 2 ^ e <= 2 ^ e'.
Proof. intros H. apply Qpower_le_compat_l; [exact H | discriminate]. Qed.

Lemma pow2_log2 (a : Z) :
  (0 < a)%Z ->
  2 ^ Z.log2 a <= inject_Z a /\ inject_Z a < 2 * 2 ^ Z.log2 a.
Proof.
  intros Ha. destruct (Z.log2_spec a Ha) as [Hlo Hhi].
  pose proof (Z.log2_nonneg a) as Hnn.
  split.
  - rewrite <- (Zpower_Qpower 2 (Z.log2 a) Hnn). rewrite <- Zle_Qle. exact Hlo.
  - rewrite <- pow2_succ.
    rewrite <- (Zpower_Qpower 2 (Z.log2 a + 1)) by lia.
    rewrite <- Zlt_Qlt. exact Hhi.
Qed.

Lemma div_lt_div (a b c d : Q) :
  0 < b -> 0 < d -> a * d < c * b -> a / b < c / d.
Proof.
  intros Hb Hd H. apply Qlt_shift_div_r; [exact Hb |].
  setoid_replace (c / d * b) with (c * b / d) by (field; lra).
  apply Qlt_shift_div_l; assumption.
Qed.

Lemma div_le_div (a b c d : Q) :
  0 < b -> 0 < d -> a * d <= c * b -> a / b <= c / d.
Proof.
  intros Hb Hd H. apply Qle_shift_div_r; [exact Hb |].
  setoid_replace (c / d * b) with (c * b / d) by (field; lra).
  apply Qle_shift_div_l; assumption.
Qed.

(** [Js.binade x] is the exponent of the power of two at or below [x]. *)
Lemma binade_spec (x : Q) :
  0 < x -> 2 ^ Js.binade x <= x /\ x < 2 ^ (Js.binade x + 1).
Proof.
  intros Hx. destruct x as [a b].
  assert (Ha : (0 < a)%Z).
  { unfold Qlt in Hx. cbn in Hx. lia. }
  destruct (pow2_log2 a Ha) as [HA1 HA2].
  destruct (pow2_log2 (Zpos b) eq_refl) as [HB1 HB2].
  unfold Js.binade. cbn [Qnum Qden].
  set (la := Z.log2 a) in *. set (lb := Z.log2 (Zpos b)) in *.
  pose proof (pow2_pos la) as HP. pose proof (pow2_pos lb) as HR.
  assert (Hx' : a # b == inject_Z a / inject_Z (Zpos b))
    by apply Qmake_Qdiv.
  assert (He : 2 ^ (la - lb) == 2 ^ la / 2 ^ lb)
    by (apply Qpower_minus; discriminate).
  assert (HB0 : 0 < inject_Z (Zpos b)) by reflexivity.
  destruct (Qle_bool (2 ^ (la - lb)) (a # b)) eqn:Hcmp.
  - apply Qle_bool_iff in Hcmp. split; [exact Hcmp |].
    rewrite pow2_succ, He, Hx'.
    setoid_replace (2 * (2 ^ la / 2 ^ lb)) with ((2 * 2 ^ la) / 2 ^ lb)
      by (field; lra).
    apply div_lt_div; [exact HB0 | exact HR |]. nra.
  - assert (Hlt : a # b < 2 ^ (la - lb)).
    { apply Qnot_le_lt. intros Hle. apply Qle_bool_iff in Hle. congruence. }
    replace (la - lb - 1 + 1)%Z with (la - lb)%Z by lia.
    split; [| exact Hlt].
    assert (Hpred : 2 ^ (la - lb - 1) == 2 ^ la / (2 * 2 ^ lb)).
    { rewrite (Qpower_minus 2 (la - lb) 1) by discriminate.
      rewrite He, Qpower_1_r. field. lra. }
    rewrite Hpred, Hx'.
    apply div_le_div; [nra | exact HB0 |]. nra.
Qed.

Lemma binade_mono (x y : Q) :
  0 < x -> x <= y -> (Js.binade x <= Js.binade y)%Z.
Proof.
  intros Hx Hxy.
  destruct (binade_spec x Hx) as [Hx1 _].
  destruct (binade_spec y) as [_ Hy2]; [lra |].
  destruct (Z_le_gt_dec (Js.binade x) (Js.binade y)) as [H | H]; [exact H |].
  exfalso.
  pose proof (pow2_le (Js.binade y + 1) (Js.binade x) ltac:(lia)). lra.
Qed.

Lemma nearest_even_range (x : Q) :
  (Qfloor x <= Js.nearest_even x <= Qfloor x + 1)%Z.
Proof.
  unfold Js.nearest_even.
  destruct (x - inject_Z (Qfloor x) ?= 1 # 2); [destruct (Z.even _) | |]; lia.
Qed.

Lemma nearest_even_mono (x y : Q) :
  x <= y -> (Js.nearest_even x <= Js.nearest_even y)%Z.
Proof.
  intros Hxy. pose proof (Qfloor_resp_le x y Hxy) as Hf.
  pose proof (nearest_even_range x) as Hx.
  pose proof (nearest_even_range y) as Hy.
  destruct (Z.eq_dec (Qfloor x) (Qfloor y)) as [Heq | Hne]; [| lia].
  unfold Js.nearest_even. rewrite <- Heq.
  destruct (Qcompare_spec (x - inject_Z (Qfloor x)) (1 # 2)) as [Cx | Cx | Cx];
    destruct (Qcompare_spec (y - inject_Z (Qfloor x)) (1 # 2))
      as [Cy | Cy | Cy];
    try (destruct (Z.even (Qfloor x))); try lia; exfalso; lra.
Qed.

Lemma nearest_even_Z (z : Z) : Js.nearest_even (inject_Z z) = z.
Proof.
  unfold Js.nearest_even. rewrite Qfloor_Z.
  replace (inject_Z z - inject_Z z ?= 1 # 2) with Lt; [reflexivity |].
  symmetry. apply Qlt_alt.
  setoid_replace (inject_Z z - inject_Z z) with 0 by ring. reflexivity.
Qed.

Lemma nearest_even_above (z : Z) (x : Q) :
  inject_Z z <= x -> (z <= Js.nearest_even x)%Z.
Proof.
  intros H. rewrite <- (nearest_even_Z z). apply nearest_even_mono, H.
Qed.

Lemma nearest_even_below (z : Z) (x : Q) :
  x <= inject_Z z -> (Js.nearest_even x <= z)%Z.
Proof.
  intros H. rewrite <- (nearest_even_Z z). apply nearest_even_mono, H.
Qed.

Lemma ulp_pos (x : Q) : 0 < Js.ulp x.
Proof. apply pow2_pos. Qed.

(** Within a binade the grid is the same; a number of a lower binade
    rounds to at most the power of two between them. *)
Lemma nearest_mono (x y : Q) :
  0 < x -> x <= y -> Js.nearest x <= Js.nearest y.
Proof.
  intros Hx Hxy. assert (Hy : 0 < y) by lra.
  pose proof (binade_mono x y Hx Hxy) as Hb.
  destruct (binade_spec x Hx) as [Hx1 Hx2].
  destruct (binade_spec y Hy) as [Hy1 Hy2].
  unfold Js.nearest, Js.ulp.
  set (ex := Z.max (Js.binade x) (-1022)).
  set (ey := Z.max (Js.binade y) (-1022)).
  assert (Hex : (ex <= ey)%Z) by (subst ex ey; lia).
  pose proof (pow2_pos (ex - 52)) as Hux.
  pose proof (pow2_pos (ey - 52)) as Huy.
  destruct (Z.eq_dec ex ey) as [Heq | Hne].
  - rewrite <- Heq.
    apply Qmult_le_compat_r; [| lra].
    rewrite <- Zle_Qle. apply nearest_even_mono.
    apply Qmult_le_compat_r; [exact Hxy |].
    apply Qlt_le_weak, Qinv_lt_0_compat, Hux.
  - assert (Hlt : (ex < ey)%Z) by lia.
    assert (Hey : ey = Js.binade y) by (subst ex ey; lia).
    apply Qle_trans with (2 ^ (ex + 1)).
    + assert (Hx3 : x <= 2 ^ (ex + 1)).
      { apply Qle_trans with (2 ^ (Js.binade x + 1)); [lra |].
        apply pow2_le. subst ex. lia. }
      assert (Hgrid : 2 ^ (ex + 1) == inject_Z (2 ^ 53) * 2 ^ (ex - 52)).
      { replace (ex + 1)%Z with (53 + (ex - 52))%Z by lia.
        rewrite Qpower_plus by discriminate.
        rewrite (Zpower_Qpower 2 53) by lia. reflexivity. }
      rewrite Hgrid. apply Qmult_le_compat_r; [| lra].
      rewrite <- Zle_Qle. apply nearest_even_below.
      apply Qle_shift_div_r; [exact Hux |]. rewrite <- Hgrid. exact Hx3.
    + apply Qle_trans with (2 ^ ey); [apply pow2_le; lia |].
      assert (Hgrid : 2 ^ ey == inject_Z (2 ^ 52) * 2 ^ (ey - 52)).
      { replace ey with (52 + (ey - 52))%Z at 1 by lia.
        rewrite Qpower_plus by discriminate.
        rewrite (Zpower_Qpower 2 52) by lia. reflexivity. }
      rewrite Hgrid. apply Qmult_le_compat_r; [| lra].
      rewrite <- Zle_Qle. apply nearest_even_above.
      apply Qle_shift_div_l; [exact Huy |]. rewrite <- Hgrid.
      rewrite Hey. exact Hy1.
Qed.

Lemma nearest_nonneg (x : Q) : 0 <= x -> 0 <= Js.nearest x.
Proof.
  intros Hx. unfold Js.nearest. pose proof (ulp_pos x) as Hu.
  apply Qmult_le_0_compat; [| lra].
  change 0 with (inject_Z 0). rewrite <- Zle_Qle.
  apply nearest_even_above. change (inject_Z 0) with 0.
  apply Qle_shift_div_l; [exact Hu | lra].
Qed.

Lemma nearest_0 (x : Q) : x == 0 -> Js.nearest x == 0.
Proof.
  intros Hx. unfold Js.nearest.
  assert (H : Js.nearest_even (x / Js.ulp x) = 0%Z).
  { pose proof (ulp_pos x) as Hu.
    apply Z.le_antisymm.
    - apply nearest_even_below. change (inject_Z 0) with 0.
      apply Qle_shift_div_r; [exact Hu | lra].
    - apply nearest_even_above. change (inject_Z 0) with 0.
      apply Qle_shift_div_l; [exact Hu | lra]. }
  rewrite H. ring.
Qed.

(** Rounding keeps the order of the numbers it rounds. *)
Lemma double_mono (x y : Q) :
  0 <= x -> x <= y -> Js.double x <= Js.double y.
Proof.
  intros Hx Hxy. unfold Js.double.
  replace (Qle_bool 0 x) with true by (symmetry; apply Qle_bool_iff; exact Hx).
  replace (Qle_bool 0 y) with true by (symmetry; apply Qle_bool_iff; lra).
  destruct (Qlt_le_dec 0 x) as [Hpos | Hzero].
  - apply nearest_mono; assumption.
  - rewrite (nearest_0 x) by lra. apply nearest_nonneg. lra.
Qed.

Lemma double_nonneg (x : Q) : 0 <= x -> 0 <= Js.double x.
Proof.
  intros Hx. unfold Js.double.
  replace (Qle_bool 0 x) with true by (symmetry; apply Qle_bool_iff; exact Hx).
  apply nearest_nonneg, Hx.
Qed.

End Numbers.

(** ** Running programs *)

Lemma run_bind {A B : Type} (env : Env) (p : Prog A) (f : A -> Prog B) :
  forall w, run env (bind p f) w = and_then (run env p w) (fun a => run env (f a)).
Proof.
  induction p as [a | err | T e k IH |]; intros w; simpl; try reflexivity.
  destruct (sync (env_random env) e w) as [[x w'] |].
  - apply IH.
  - destruct (settle env e (issue e w)) as [x |]; [apply IH | reflexivity].
Qed.

Lemma run_try_catch {A : Type} (env : Env) (p : Prog A)
  (handler : Js.Thrown -> Prog A) :
  forall w,
    run env (try_catch p handler) w =
    match run env p w with
    | (Thrown err, w') => run env (handler err) w'
    | other => other
    end.
Proof.
  induction p as [a | err | T e k IH |]; intros w; simpl; try reflexivity.
  destruct (sync (env_random env) e w) as [[x w'] |].
  - apply IH.
  - destruct (settle env e (issue e w)) as [x |]; [apply IH | reflexivity].
Qed.

Lemma run_try_finally_release {A : Type} (env : Env) (p : Prog A)
  (q : PromiseId) :
  forall w,
    run env (try_finally p (perform (ResolvePromise q))) w =
    match run env p w with
    | (Returned a, w') => (Returned a, release q w')
    | (Thrown err, w') => (Thrown err, release q w')
    | other => other
    end.
Proof.
  induction p as [a | err | T e k IH |]; intros w; simpl; try reflexivity.
  destruct (sync (env_random env) e w) as [[x w'] |].
  - apply IH.
  - destruct (settle env e (issue e w)) as [x |]; [apply IH | reflexivity].
Qed.

(** With the queue idle a serialized operation starts at once, and the
    slot is released however it ends. *)
Lemma run_serialize {A : Type} (env : Env) (fn : Prog A) (w : World) :
  idle w ->
  run env (serialize fn) w =
  match run env fn (enqueue w) with
  | (Returned a, w') => (Returned a, release (nextPromise w) w')
  | (Thrown err, w') => (Thrown err, release (nextPromise w) w')
  | other => other
  end.
Proof.
  unfold idle, serialize. intros Hidle.
  cbn [bind perform run sync issue settle].
  change (is_resolved (commandQueue w)
            (with_commandQueue (nextPromise w)
               (with_promises (resolved w) (S (nextPromise w)) w)))
    with (is_resolved (commandQueue w) w).
  rewrite Hidle. apply run_try_finally_release.
Qed.

Lemma run_log (env : Env) (msg : string) (w : World) :
  run env (log msg) w = (Returned tt, log_line msg w).
Proof. reflexivity. Qed.

Lemma run_ensureConnected (env : Env) (w : World) :
  run env ensureConnected w =
  if connected w then (Returned tt, w)
  else (Thrown (Js.Error
                  ("NOT_CONNECTED: OBS WebSocket is not connected. "
                   ++ "Is OBS running with WebSocket enabled?")), w).
Proof. unfold ensureConnected. simpl. destruct (connected w); reflexivity. Qed.

Lemma run_call (env : Env) (r : Request) (w : World) :
  run env (call r) w =
  match env_call env (trace w ++ [EvCall r]) r with
  | inl err => (Thrown err, emit [EvCall r] w)
  | inr v => (Returned v, emit [EvCall r] w)
  end.
Proof.
  unfold call, await. simpl.
  destruct (env_call env (trace w ++ [EvCall r]) r); reflexivity.
Qed.

Lemma emit_emit (ev1 ev2 : list Event) (w : World) :
  emit ev2 (emit ev1 w) = emit (ev1 ++ ev2) w.
Proof. unfold emit, with_trace. cbn. rewrite app_assoc. reflexivity. Qed.

Lemma snd_run_ignore {A : Type} (env : Env) (p : Prog A) (w : World) :
  snd (run env (ignore p) w) = snd (run env p w).
Proof.
  unfold ignore. rewrite run_bind.
  destruct (run env p w) as [[] ?]; reflexivity.
Qed.

(** A run to completion is the event loop with a single task, resumed at
    each [await] with the answer of the controller. *)
Lemma run_advance {A : Type} (env : Env) (p : Prog A) :
  forall w,
    run env p w =
    match advance (env_random env) p w with
    | (Finished o, w') => (o, w')
    | (Suspended e k, w') =>
        match settle env e w' with
        | Some x => run env (k x) w'
        | None => (Blocked, w')
        end
    end.
Proof.
  induction p as [a | err | T e k IH |]; intros w; cbn [run advance];
    try reflexivity.
  destruct (sync (env_random env) e w) as [[x w'] |]; [apply IH | reflexivity].
Qed.

Ltac world_simpl :=
  cbn [connected connecting retryCount commandQueue resolved nextPromise
       trace randomDraws pendingReconnects stderr
       with_connected with_connecting with_retryCount with_commandQueue
       with_promises with_trace with_randomDraws with_pendingReconnects
       with_stderr emit enqueue release log_line] in *.

(** One step of a run through [bind], [log], [ensureConnected],
    [try_catch] or [call]. *)
Ltac run_step :=
  first [ rewrite run_bind | rewrite run_log | rewrite run_ensureConnected
        | rewrite run_try_catch
        | match goal with
          | |- context [run ?env (call ?r) ?w] =>
              first [ rewrite (run_call env r w)
                    | let H := fresh in
                      pose proof (run_call env r w) as H; cbn [Response] in H;
                      rewrite H; clear H ]
          end ];
  cbn [and_then run]; world_simpl.

(** ** Safe mode *)

(** C4. With safe mode on and the queue idle, [startStream] on a connected
    client whose current scene is outside the allow-list returns
    [success = false] with a message that contains the scene and the joined
    allow-list; the scene query is the only request it sends: neither
    [GetStreamStatus] nor [StartStream] is issued. *)
Theorem startStream_safe_mode_refusal
  (cfg : Config) (env : Env) (w : World) (scene : string) :
  SAFE_MODE cfg = true ->
  connected w = true ->
  idle w ->
  env_call env (trace w ++ [EvCall GetCurrentProgramScene])
    GetCurrentProgramScene = inr scene ->
  Js.arr_includes scene (SAFE_SCENES cfg) = false ->
  exists r w',
    run env (startStream cfg) w = (Returned r, w') /\
    success r = false /\
    Js.includes scene (message r) = true /\
    Js.includes (Js.join ", " (SAFE_SCENES cfg)) (message r) = true /\
    trace w' = trace w ++ [EvCall GetCurrentProgramScene] /\
    calls_of (issued w w') = [GetCurrentProgramScene].
Proof.
  intros Hsafe Hconn Hidle Hscene Hnot.
  unfold startStream. rewrite run_serialize by exact Hidle.
  unfold startStream_body, getCurrentScene. rewrite Hsafe.
  repeat run_step. rewrite Hconn. cbn [and_then].
  repeat run_step. rewrite Hconn. cbn [and_then].
  repeat run_step. rewrite Hscene. cbn [and_then].
  rewrite Hnot. cbn [and_then negb run].
  do 2 eexists. split; [reflexivity |]. cbn [success message result].
  unfold issued. world_simpl.
  split; [reflexivity |]. split; [includes_solve |].
  split; [includes_solve |]. split; [reflexivity |].
  rewrite skipn_app, skipn_all, Nat.sub_diag. reflexivity.
Qed.

Lemma startStream_safe_mode_refusal_witness :
  exists r w',
    run (studio_env "BRB" ["StartingSoon"; "Main"; "BRB"])
      (startStream default_config) connected_client = (Returned r, w') /\
    success r = false /\
    Js.includes "BRB" (message r) = true /\
    Js.includes (Js.join ", " (SAFE_SCENES default_config)) (message r)
    = true /\
    trace w' = trace connected_client ++ [EvCall GetCurrentProgramScene] /\
    calls_of (issued connected_client w') = [GetCurrentProgramScene].
Proof.
  apply (startStream_safe_mode_refusal default_config
           (studio_env "BRB" ["StartingSoon"; "Main"; "BRB"])
           connected_client "BRB");
    reflexivity.
Defined.

(** ** Scene switching *)

(** C5. With the queue idle, [setScene name] on a connected client, where
    [name] is not in the scene list the controller returns, returns (does
    not throw) [success = false] with a message that contains the joined
    scene list; [GetSceneList] is the only request sent, so no
    [SetCurrentProgramScene]. *)
Theorem setScene_unknown_scene
  (env : Env) (w : World) (name : string) (scenes : list SceneEntry) :
  connected w = true ->
  idle w ->
  env_call env (trace w ++ [EvCall GetSceneList]) GetSceneList = inr scenes ->
  Js.arr_includes name (scene_names scenes) = false ->
  exists r w',
    run env (setScene name) w = (Returned r, w') /\
    success r = false /\
    Js.includes (Js.join ", " (scene_names scenes)) (message r) = true /\
    trace w' = trace w ++ [EvCall GetSceneList] /\
    calls_of (issued w w') = [GetSceneList].
Proof.
  intros Hconn Hidle Hlist Hnot.
  unfold setScene. rewrite run_serialize by exact Hidle.
  unfold setScene_body, getSceneList.
  repeat run_step. rewrite Hconn. cbn [and_then].
  repeat run_step. rewrite Hconn. cbn [and_then].
  repeat run_step. rewrite Hlist. cbn [and_then run].
  rewrite Hnot. cbn [and_then negb run].
  do 2 eexists. split; [reflexivity |]. cbn [success message result].
  unfold issued. world_simpl.
  split; [reflexivity |]. split; [includes_solve |]. split; [reflexivity |].
  rewrite skipn_app, skipn_all, Nat.sub_diag. reflexivity.
Qed.

Lemma setScene_unknown_scene_witness :
  exists r w',
    run (studio_env "Main" ["StartingSoon"; "Main"]) (setScene "Outro")
      connected_client = (Returned r, w') /\
    success r = false /\
    Js.includes
      (Js.join ", "
         (scene_names [{| sceneName := "StartingSoon" |};
                       {| sceneName := "Main" |}]))
      (message r) = true /\
    trace w' = trace connected_client ++ [EvCall GetSceneList] /\
    calls_of (issued connected_client w') = [GetSceneList].
Proof.
  apply (setScene_unknown_scene
           (studio_env "Main" ["StartingSoon"; "Main"]) connected_client
           "Outro" [{| sceneName := "StartingSoon" |};
                    {| sceneName := "Main" |}]);
    reflexivity.
Defined.

(** ** Source visibility *)

(** C8, as the specification states it, fails whichever rejections are
    taken for the transport's not-found condition, as soon as a request
    that timed out after 6000ms is not one of them, or a rejection saying
    that no scene item was found is one: the code tests the message for
    NotFound and 600 and nothing else, so it maps the first to
    SOURCE_NOT_FOUND and rethrows the second. *)
Lemma setSourceVisibility_tests_message_only :
  ~ (exists transport_not_found : Js.Thrown -> bool,
       (transport_not_found (Js.Error "Request timed out after 6000ms")
        = false \/
        transport_not_found
          (Js.Error "No scene items were found in the specified scene.")
        = true) /\
       forall (env : Env) (w : World) (sceneName sourceName : string)
              (visible : bool) (err : Js.Thrown),
         connected w = true ->
         idle w ->
         visibility_failure env w sceneName sourceName visible = Some err ->
         exists w',
           (transport_not_found err = true ->
            exists r,
              run env (setSourceVisibility sceneName sourceName visible) w
              = (Returned r, w') /\
              success r = false /\
              String.prefix "SOURCE_NOT_FOUND" (message r) = true) /\
           (transport_not_found err = false ->
            run env (setSourceVisibility sceneName sourceName visible) w
            = (Thrown err, w'))).
Proof.
  intros (transport_not_found & [Htimeout | Hmissing] & claim).
  - destruct (claim (rejecting_env
                       (Js.Error "Request timed out after 6000ms"))
                connected_client "Main" "Webcam" true _
                eq_refl eq_refl eq_refl) as (w' & _ & Hthrown).
    specialize (Hthrown Htimeout). vm_compute in Hthrown.
    discriminate Hthrown.
  - destruct (claim (rejecting_env
                       (Js.Error
                          "No scene items were found in the specified scene."))
                connected_client "Main" "Webcam" true _
                eq_refl eq_refl eq_refl) as (w' & Hmapped & _).
    destruct (Hmapped Hmissing) as (r & Hrun & _). vm_compute in Hrun.
    discriminate Hrun.
Qed.

(** C8, amended. With the queue idle, when a request of
    [setSourceVisibility] on a connected client is rejected with [err]: if
    the message of [err] contains NotFound or 600, the call returns
    [success = false] with a SOURCE_NOT_FOUND message that names the source
    and the scene; otherwise, whatever the error, the call throws [err]
    itself. *)
Theorem setSourceVisibility_failure
  (env : Env) (w : World) (sceneName sourceName : string) (visible : bool)
  (err : Js.Thrown) :
  connected w = true ->
  idle w ->
  visibility_failure env w sceneName sourceName visible = Some err ->
  exists w',
    (not_found_condition (Js.message_of err) = true ->
     exists r,
       run env (setSourceVisibility sceneName sourceName visible) w
       = (Returned r, w') /\
       success r = false /\
       String.prefix "SOURCE_NOT_FOUND" (message r) = true /\
       Js.includes sourceName (message r) = true /\
       Js.includes sceneName (message r) = true) /\
    (not_found_condition (Js.message_of err) = false ->
     run env (setSourceVisibility sceneName sourceName visible) w
     = (Thrown err, w')).
Proof.
  intros Hconn Hidle Hfail.
  unfold setSourceVisibility. rewrite run_serialize by exact Hidle.
  unfold setSourceVisibility_body.
  repeat run_step. rewrite Hconn. cbn [and_then].
  repeat run_step.
  unfold visibility_failure in Hfail.
  destruct (env_call env _ (GetSceneItemId sceneName sourceName))
    as [err1 | id].
  - injection Hfail as ->. cbn [and_then].
    fold (not_found_condition (Js.message_of err)).
    eexists. split; intros Hnf; rewrite Hnf; cbn [run]; [| reflexivity].
    eexists. split; [reflexivity |]. cbn [success message result].
    repeat split; includes_solve.
  - cbn [and_then]. repeat run_step.
    destruct (env_call env _ (SetSceneItemEnabled sceneName id visible))
      as [err2 | []]; [| discriminate Hfail].
    injection Hfail as ->. cbn [and_then].
    fold (not_found_condition (Js.message_of err)).
    eexists. split; intros Hnf; rewrite Hnf; cbn [run]; [| reflexivity].
    eexists. split; [reflexivity |]. cbn [success message result].
    repeat split; includes_solve.
Qed.

Lemma setSourceVisibility_failure_witness :
  exists r w',
    run (studio_env "Main" ["Main"])
      (setSourceVisibility "Main" "Webcam" true) connected_client
    = (Returned r, w') /\
    success r = false /\
    Js.includes "Webcam" (message r) = true.
Proof.
  destruct (setSourceVisibility_failure (studio_env "Main" ["Main"])
              connected_client "Main" "Webcam" true
              (Js.Error "No scene items were found (600)")
              eq_refl eq_refl eq_refl) as (w' & Hfound & _).
  destruct (Hfound eq_refl) as (r & Hrun & Hfalse & _ & Hsource & _).
  exists r, w'. repeat split; assumption.
Defined.

(** ** Status *)

Lemma run_getStatus_offline (env : Env) (w : World) :
  connected w = false ->
  run env getStatus w = (Returned disconnected_status, w).
Proof.
  intros Hconn. unfold getStatus. cbn [bind perform run sync].
  rewrite Hconn. reflexivity.
Qed.

(** C6, as the specification states it, fails: the snapshot of a
    disconnected client has [currentScene = "N/A"], which is not null
    (and [availableScenes = []]). *)
Lemma getStatus_offline_scene_not_null :
  ~ (forall (env : Env) (w : World),
       connected w = false ->
       exists s w',
         run env getStatus w = (Returned s, w') /\
         st_connected s = false /\
         (forall f,
            In f [f_currentScene; f_availableScenes; f_streamTimecode;
                  f_recordTimecode; f_cpuUsage; f_memoryUsage; f_fps] ->
            field_value s f = JsNull) /\
         trace w' = trace w).
Proof.
  intros claim.
  destruct (claim silent_env fresh_client eq_refl)
    as (s & w' & Hrun & _ & Hnull & _).
  injection Hrun as <- _.
  specialize (Hnull f_currentScene (or_introl eq_refl)).
  discriminate Hnull.
Qed.

(** C6, amended. [getStatus] on a disconnected client returns (does not
    throw) the snapshot with [connected = false], [currentScene = "N/A"],
    [availableScenes = []] and the five nullable fields null, and leaves
    the world as it was: no request is sent. *)
Theorem getStatus_disconnected_snapshot (env : Env) (w : World) :
  connected w = false ->
  exists s,
    run env getStatus w = (Returned s, w) /\
    st_connected s = false /\
    st_currentScene s = "N/A" /\
    st_availableScenes s = [] /\
    (forall f,
       In f [f_streamTimecode; f_recordTimecode; f_cpuUsage; f_memoryUsage;
             f_fps] ->
       field_value s f = JsNull).
Proof.
  intros Hconn. exists disconnected_status.
  split; [apply run_getStatus_offline; exact Hconn |].
  repeat split.
  intros f [<- | [<- | [<- | [<- | [<- | []]]]]]; reflexivity.
Qed.

Lemma getStatus_disconnected_snapshot_witness :
  exists s,
    run silent_env getStatus fresh_client = (Returned s, fresh_client) /\
    st_connected s = false /\
    st_currentScene s = "N/A" /\
    st_availableScenes s = [] /\
    (forall f,
       In f [f_streamTimecode; f_recordTimecode; f_cpuUsage; f_memoryUsage;
             f_fps] ->
       field_value s f = JsNull).
Proof.
  apply (getStatus_disconnected_snapshot silent_env fresh_client).
  reflexivity.
Defined.



(** ** Muting the microphone *)

Lemma run_try_micNames_rejected (env : Env) (mute : bool)
  (names : list string) :
  forall w,
    rejects_all env (trace w) mute names ->
    run env (try_micNames mute names) w
    = (Returned Continue, emit (mute_calls mute names) w).
Proof.
  induction names as [| name rest IH]; intros w Hrej.
  - cbn. unfold emit. rewrite app_nil_r. destruct w; reflexivity.
  - destruct Hrej as [Hname Hrest]. cbn [try_micNames].
    unfold accepts in Hname.
    repeat run_step.
    destruct (env_call env _ (SetInputMute name mute)) as [err | []];
      [| discriminate Hname].
    cbn [and_then run]. rewrite IH by exact Hrest.
    rewrite emit_emit. reflexivity.
Qed.

Lemma run_try_micNames_accepted (env : Env) (mute : bool)
  (before : list string) (name : string) (rest : list string) :
  forall w,
    rejects_all env (trace w) mute before ->
    accepts env (trace w ++ mute_calls mute before) mute name = true ->
    run env (try_micNames mute (before ++ name :: rest)) w
    = (Returned (Return (result true (name ++ " " ++ muted_text mute))),
       log_line (name ++ " " ++ muted_text mute)
         (emit (mute_calls mute (before ++ [name])) w)).
Proof.
  induction before as [| b before IH]; intros w Hrej Hacc.
  - cbn [app try_micNames]. unfold accepts in Hacc.
    cbn [mute_calls map] in Hacc. rewrite app_nil_r in Hacc.
    repeat run_step.
    destruct (env_call env _ (SetInputMute name mute)) as [err | []];
      [discriminate Hacc |].
    cbn [and_then run]. repeat run_step. reflexivity.
  - destruct Hrej as [Hb Hrest]. cbn [app try_micNames].
    unfold accepts in Hb.
    repeat run_step.
    destruct (env_call env _ (SetInputMute b mute)) as [err | []];
      [| discriminate Hb].
    cbn [and_then run]. rewrite IH.
    + rewrite emit_emit. reflexivity.
    + exact Hrest.
    + world_simpl. cbn [mute_calls map] in Hacc.
      rewrite <- app_assoc. exact Hacc.
Qed.

(** C7, as the specification states it, fails twice.  For the explicit
    name that is the empty string the six fallback names are tried; and
    when every candidate is rejected and [GetInputList] is rejected too,
    the call throws instead of returning [success = false]. *)
Lemma setMicMute_as_stated_fails :
  ~ (forall (env : Env) (w : World) (mute : bool) (name : string)
            (o : Outcome OpResult) (w' : World),
       connected w = true ->
       idle w ->
       run env (setMicMute mute (Some name)) w = (o, w') ->
       forall n m,
         In (EvCall (SetInputMute n m)) (issued w w') -> n = name) /\
  ~ (forall (env : Env) (w : World) (mute : bool),
       connected w = true ->
       idle w ->
       rejects_all env (trace w) mute (micNames None) ->
       exists r w',
         run env (setMicMute mute None) w = (Returned r, w') /\
         success r = false).
Proof.
  split; intros claim.
  - specialize (claim silent_env connected_client true EmptyString _ _
                  eq_refl eq_refl eq_refl "Mic/Aux" true).
    discriminate claim. left. reflexivity.
  - destruct (claim silent_env connected_client true eq_refl eq_refl)
      as (r & w' & Hrun & _).
    + cbn. repeat split.
    + vm_compute in Hrun. discriminate Hrun.
Qed.

(** C7, amended. With no explicit name the candidates are the six
    fallback names in their fixed order, with an explicit name that is
    not the empty string only that name (the empty string counts as no
    name).  On a connected client with the queue idle, [setMicMute] tries
    the candidates in order and returns [success = true] at the first one
    the controller accepts, having sent [SetInputMute] for it and for the
    rejected ones before it only; if every candidate is rejected and the
    controller answers [GetInputList], it returns [success = false] with a
    message that contains the joined tried names and the joined input
    names of the controller. *)
Theorem setMicMute_candidates
  (env : Env) (w : World) (mute : bool) (inputName : option string) :
  connected w = true ->
  idle w ->
  micNames None
  = ["Mic/Aux"; "Blue Yeti"; "Microphone"; "Mic"; "Audio Input Capture";
     "Desktop Audio"] /\
  (forall name, name <> EmptyString -> micNames (Some name) = [name]) /\
  (forall before name rest,
     micNames inputName = before ++ name :: rest ->
     rejects_all env (trace w) mute before ->
     accepts env (trace w ++ mute_calls mute before) mute name = true ->
     exists r w',
       run env (setMicMute mute inputName) w = (Returned r, w') /\
       success r = true /\
       trace w' = trace w ++ mute_calls mute (before ++ [name])) /\
  (forall inputs,
     rejects_all env (trace w) mute (micNames inputName) ->
     env_call env
       ((trace w ++ mute_calls mute (micNames inputName))
        ++ [EvCall GetInputList]) GetInputList = inr inputs ->
     exists r w',
       run env (setMicMute mute inputName) w = (Returned r, w') /\
       success r = false /\
       Js.includes (Js.join ", " (micNames inputName)) (message r) = true /\
       Js.includes (Js.join ", " (input_names inputs)) (message r) = true /\
       trace w' = (trace w ++ mute_calls mute (micNames inputName))
                  ++ [EvCall GetInputList]).
Proof.
  intros Hconn Hidle. split; [reflexivity |]. split.
  { intros [| c name] Hne; [congruence | reflexivity]. }
  split.
  - intros before name rest Hnames Hrej Hacc.
    unfold setMicMute. rewrite run_serialize by exact Hidle.
    unfold setMicMute_body. repeat run_step. rewrite Hconn. cbn [and_then].
    repeat run_step. rewrite Hnames.
    rewrite run_try_micNames_accepted by assumption.
    cbn [and_then run]. do 2 eexists. split; [reflexivity |].
    split; reflexivity.
  - intros inputs Hrej Hlist.
    unfold setMicMute. rewrite run_serialize by exact Hidle.
    unfold setMicMute_body. repeat run_step. rewrite Hconn. cbn [and_then].
    repeat run_step.
    rewrite run_try_micNames_rejected by assumption.
    cbn [and_then run]. repeat run_step. rewrite Hlist. cbn [and_then run].
    do 2 eexists. split; [reflexivity |]. cbn [success message result].
    world_simpl. repeat split; includes_solve.
Qed.

Lemma setMicMute_candidates_witness :
  exists r w',
    run (studio_env "Main" ["Main"]) (setMicMute true None) connected_client
    = (Returned r, w') /\
    success r = false /\
    Js.includes (Js.join ", " (micNames None)) (message r) = true /\
    Js.includes (Js.join ", " ["Elgato Wave"]) (message r) = true /\
    trace w' = (trace connected_client ++ mute_calls true (micNames None))
               ++ [EvCall GetInputList].
Proof.
  destruct (setMicMute_candidates (studio_env "Main" ["Main"])
              connected_client true None eq_refl eq_refl)
    as (_ & _ & _ & Hall).
  apply (Hall [{| inputName := "Elgato Wave" |}]).
  - cbn. repeat split.
  - reflexivity.
Defined.

(** ** Connecting *)

Section Connecting.

Variable cfg : Config.
Variable env : Env.

Lemma run_connect_attempt_ok (w : World) (hello : Hello) :
  env_connect env (trace w ++ [handshake cfg]) = inr hello ->
  exists w',
    run env (connect_attempt cfg) w = (Returned (Return tt), w') /\
    trace w' = trace w ++ [handshake cfg] /\
    connected w' = true /\
    connecting w' = false /\
    retryCount w' = 0.
Proof.
  intros Hans. unfold connect_attempt. rewrite run_try_catch.
  cbn [bind perform await run sync issue settle log]. world_simpl.
  fold (handshake cfg). rewrite Hans. cbn [run bind perform sync log].
  eexists. split; [reflexivity |]. world_simpl. repeat split.
Qed.

Lemma run_connect_attempt_auth (w : World) (err : Js.Thrown) :
  env_connect env (trace w ++ [handshake cfg]) = inl err ->
  classify (Js.message_of err) = AuthFailed ->
  exists w',
    run env (connect_attempt cfg) w = (Thrown auth_error, w') /\
    trace w' = trace w ++ [handshake cfg] /\
    connected w' = connected w /\
    connecting w' = false /\
    retryCount w' = retryCount w + 1.
Proof.
  intros Hans Hclass. unfold connect_attempt.
  rewrite run_try_catch.
  cbn [bind perform await run sync issue settle log]. world_simpl.
  fold (handshake cfg). rewrite Hans. cbn [run bind perform sync].
  rewrite Hclass. cbn [run bind perform sync log].
  eexists. split; [reflexivity |]. world_simpl. repeat split.
Qed.

Lemma run_connect_attempt_failed (w : World) (err : Js.Thrown) :
  env_connect env (trace w ++ [handshake cfg]) = inl err ->
  classify (Js.message_of err) <> AuthFailed ->
  exists w',
    run env (connect_attempt cfg) w
    = (if (maxRetries <? retryCount w + 1)%nat
       then Thrown (exhausted_error (Js.message_of err))
       else Returned Continue, w') /\
    trace w'
    = trace w ++ handshake cfg
        :: retry_events (retryCount w + 1) (env_random env (randomDraws w)) /\
    connected w' = connected w /\
    connecting w'
    = (if (maxRetries <? retryCount w + 1)%nat then false else connecting w) /\
    retryCount w' = retryCount w + 1 /\
    randomDraws w'
    = (if (maxRetries <? retryCount w + 1)%nat then randomDraws w
       else S (randomDraws w)).
Proof.
  intros Hans Hclass. unfold connect_attempt.
  rewrite run_try_catch.
  cbn [bind perform await run sync issue settle log]. world_simpl.
  fold (handshake cfg). rewrite Hans. cbn [run bind perform sync].
  unfold retry_events.
  destruct (classify (Js.message_of err)); [| congruence |];
    cbn [run bind perform sync log]; world_simpl;
    destruct (maxRetries <? retryCount w + 1)%nat;
    cbn [run bind perform sync log issue settle]; world_simpl;
    (eexists; split; [reflexivity |]); world_simpl;
    rewrite <- ?app_assoc; repeat split.
Qed.

(** When every handshake is refused, the loop retries until [retryCount]
    has passed [maxRetries] and throws with the last error. *)
Lemma run_connect_loop_refused :
  always_refused env ->
  forall n bound w,
    retryCount w + n = maxRetries ->
    n < bound ->
    exists err w',
      run env (connect_loop cfg bound) w
      = (Thrown (exhausted_error (Js.message_of err)), w') /\
      env_connect env (trace w') = inl err /\
      trace w'
      = trace w ++ retries_trace cfg env n (retryCount w) (randomDraws w) /\
      connected w' = connected w /\
      connecting w' = false /\
      retryCount w' = maxRetries + 1.
Proof.
  intros Hrefused. induction n as [| n IH]; intros bound w Hrc Hbound.
  - destruct bound as [| bound]; [lia |]. cbn [connect_loop].
    cbn [bind perform run sync].
    replace (retryCount w <=? maxRetries)%nat with true
      by (symmetry; apply Nat.leb_le; lia).
    rewrite run_bind.
    destruct (Hrefused (trace w ++ [handshake cfg]))
      as (err & Hans & Hclass).
    destruct (run_connect_attempt_failed w err Hans Hclass)
      as (w' & Hrun & Htrace & Hconn & Hcing & Hcount & _).
    unfold retry_events in Htrace.
    replace (maxRetries <? retryCount w + 1)%nat with true in *
      by (symmetry; apply Nat.ltb_lt; lia).
    rewrite Hrun. cbn [and_then].
    exists err, w'.
    repeat split; try assumption.
    + rewrite Htrace. exact Hans.
    + lia.
  - destruct bound as [| bound]; [lia |]. cbn [connect_loop].
    cbn [bind perform run sync].
    replace (retryCount w <=? maxRetries)%nat with true
      by (symmetry; apply Nat.leb_le; lia).
    rewrite run_bind.
    destruct (Hrefused (trace w ++ [handshake cfg]))
      as (err & Hans & Hclass).
    destruct (run_connect_attempt_failed w err Hans Hclass)
      as (w1 & Hrun & Htrace & Hconn & Hcing & Hcount & Hdraws).
    unfold retry_events in Htrace.
    replace (maxRetries <? retryCount w + 1)%nat with false in *
      by (symmetry; apply Nat.ltb_ge; lia).
    rewrite Hrun. cbn [and_then].
    destruct (IH bound w1) as (err' & w' & H1 & H2 & H3 & H4 & H5 & H6);
      [lia | lia |].
    exists err', w'. repeat split; try assumption.
    + rewrite H3, Htrace, Hcount, Hdraws. cbn [retries_trace].
      rewrite <- app_assoc. reflexivity.
    + congruence.
Qed.

(** The unrolling bound of [connect] is never used up: whatever the
    controller does, the loop ends in one of four ways. *)
Lemma run_connect_loop_ends (bound : nat) :
  forall w,
    maxRetries + 1 - retryCount w < bound ->
    exists o w',
      run env (connect_loop cfg bound) w = (o, w') /\ loop_end w o w'.
Proof.
  induction bound as [| bound IH]; intros w Hbound; [lia |].
  cbn [connect_loop bind perform run sync].
  destruct (retryCount w <=? maxRetries)%nat eqn:Hle.
  2:{ apply Nat.leb_gt in Hle. cbn [run].
      do 2 eexists. split; [reflexivity |]. apply end_skipped. exact Hle. }
  apply Nat.leb_le in Hle. rewrite run_bind.
  destruct (env_connect env (trace w ++ [handshake cfg]))
    as [err | hello] eqn:Hans.
  - destruct (classify (Js.message_of err)) eqn:Hclass.
    2:{ destruct (run_connect_attempt_auth w err Hans Hclass)
          as (w' & Hrun & _ & Hc & Hg & _).
        rewrite Hrun. cbn [and_then]. do 2 eexists.
        split; [reflexivity |]. apply end_auth; assumption. }
    all: destruct (run_connect_attempt_failed w err Hans)
           as (w1 & Hrun & _ & Hc & Hg & Hrc & _); [congruence |];
         rewrite Hrun;
         destruct (maxRetries <? retryCount w + 1)%nat eqn:Hlt;
         cbn [and_then];
         [ apply Nat.ltb_lt in Hlt; do 2 eexists; split; [reflexivity |];
           apply end_exhausted; [assumption | assumption | lia]
         | apply Nat.ltb_ge in Hlt;
           destruct (IH w1) as (o & w' & Hrun' & Hend); [lia |];
           exists o, w'; split; [exact Hrun' |];
           destruct Hend;
           [ apply end_connected; assumption
           | lia
           | apply end_auth; congruence
           | apply end_exhausted; congruence ] ].
  - destruct (run_connect_attempt_ok w hello Hans)
      as (w' & Hrun & _ & Hc & Hg & Hrc).
    rewrite Hrun. cbn [and_then run]. do 2 eexists.
    split; [reflexivity |]. apply end_connected; assumption.
Qed.

(** [connect] returns or throws: it neither blocks nor diverges. *)
Lemma connect_returns_or_throws (w : World) :
  exists o w',
    run env (connect cfg) w = (o, w') /\
    (o = Returned tt \/ exists err, o = Thrown err).
Proof.
  unfold connect. cbn [bind perform run sync].
  destruct (connected w || connecting w); cbn [run bind perform sync].
  - do 2 eexists. split; [reflexivity |]. left. reflexivity.
  - destruct (run_connect_loop_ends (maxRetries + 2)
                (with_connecting true w)) as (o & w' & Hrun & Hend); [lia |].
    exists o, w'. split; [exact Hrun |].
    destruct Hend; [left | left | right | right]; eauto.
Qed.

End Connecting.

(** *** The delays *)

Lemma backoff_monotone (j k : nat) : j <= k -> (backoff j <= backoff k)%Q.
Proof.
  intros Hjk. unfold backoff. apply Q.min_le_compat_r.
  apply Qmult_le_l; [reflexivity |].
  apply Qpower_le_compat_l; [lia | discriminate].
Qed.

Lemma backoff_nonneg (k : nat) : (0 <= backoff k)%Q.
Proof.
  unfold backoff. apply Q.min_glb; [| discriminate].
  apply Qmult_le_0_compat; [discriminate |].
  apply Qpower_0_le. discriminate.
Qed.

(** The jittered delay grows with the delay and with the random number. *)
Lemma jittered_mono (d1 d2 r1 r2 : Q) :
  (0 <= d1)%Q -> (d1 <= d2)%Q -> (0 <= r1)%Q -> (r1 <= r2)%Q ->
  (jittered d1 r1 <= jittered d2 r2)%Q.
Proof.
  intros Hd1 Hd Hr1 Hr. unfold jittered, Js.fmul, Js.fadd.
  pose proof (double_nonneg (7 # 10) ltac:(discriminate)) as H7.
  pose proof (double_nonneg (6 # 10) ltac:(discriminate)) as H6.
  set (c7 := Js.double (7 # 10)) in *. set (c6 := Js.double (6 # 10)) in *.
  assert (Ha0 : (0 <= r1 * c6)%Q) by nra.
  assert (Ha : (r1 * c6 <= r2 * c6)%Q) by nra.
  pose proof (double_nonneg _ Ha0) as Hb0.
  pose proof (double_mono _ _ Ha0 Ha) as Hb.
  set (a1 := Js.double (r1 * c6)) in *. set (a2 := Js.double (r2 * c6)) in *.
  assert (Hf0 : (0 <= c7 + a1)%Q) by lra.
  assert (Hf : (c7 + a1 <= c7 + a2)%Q) by lra.
  pose proof (double_nonneg _ Hf0) as Hg0.
  pose proof (double_mono _ _ Hf0 Hf) as Hg.
  set (f1 := Js.double (c7 + a1)) in *. set (f2 := Js.double (c7 + a2)) in *.
  apply double_mono; nra.
Qed.

Lemma backoff_capped (rc : nat) : 6 <= rc -> (backoff rc == 30000)%Q.
Proof.
  intros H. apply Qle_antisym.
  - unfold backoff. apply Q.le_min_r.
  - apply Qle_trans with (backoff 6).
    + apply Qle_bool_imp_le. reflexivity.
    + apply backoff_monotone, H.
Qed.

(** The jitter factor lies between 0.7 and 1.3, rounding included. *)
Lemma jittered_bounds (rc : nat) (random : Q) :
  1 <= rc -> (0 <= random)%Q -> (random < 1)%Q ->
  ((7 # 10) * backoff rc <= jittered (backoff rc) random)%Q /\
  (jittered (backoff rc) random <= (13 # 10) * backoff rc)%Q.
Proof.
  intros Hrc H0 H1.
  pose proof (backoff_nonneg rc) as Hd.
  assert (Hlo : (jittered (backoff rc) 0 <= jittered (backoff rc) random)%Q)
    by (apply jittered_mono; lra).
  assert (Hhi : (jittered (backoff rc) random <= jittered (backoff rc) 1)%Q)
    by (apply jittered_mono; lra).
  destruct (le_lt_dec rc 5) as [Hsmall | Hbig].
  - assert (Hcases : rc = 1 \/ rc = 2 \/ rc = 3 \/ rc = 4 \/ rc = 5) by lia.
    assert (Hends : ((7 # 10) * backoff rc <= jittered (backoff rc) 0)%Q /\
                    (jittered (backoff rc) 1 <= (13 # 10) * backoff rc)%Q).
    { destruct Hcases as [-> | [-> | [-> | [-> | ->]]]];
        split; apply Qle_bool_imp_le; vm_compute; reflexivity. }
    destruct Hends. split; lra.
  - pose proof (backoff_capped rc Hbig) as Hcap.
    assert (H21 : (21000 <= jittered 30000 0)%Q)
      by (apply Qle_bool_imp_le; vm_compute; reflexivity).
    assert (H39 : (jittered 30000 1 <= 39000)%Q)
      by (apply Qle_bool_imp_le; vm_compute; reflexivity).
    assert (Hlo' : (jittered 30000 0 <= jittered (backoff rc) 0)%Q)
      by (apply jittered_mono; lra).
    assert (Hhi' : (jittered (backoff rc) 1 <= jittered 30000 1)%Q)
      by (apply jittered_mono; lra).
    split; lra.
Qed.

Lemma jittered_capped (rc : nat) (random : Q) :
  6 <= rc -> (0 <= random)%Q -> (random < 1)%Q ->
  (21000 <= jittered (backoff rc) random)%Q /\
  (jittered (backoff rc) random <= 39000)%Q.
Proof.
  intros Hrc H0 H1.
  destruct (jittered_bounds rc random ltac:(lia) H0 H1) as [Hlo Hhi].
  pose proof (backoff_capped rc Hrc) as Hcap.
  split; lra.
Qed.

(** While the delay doubles, and at the step to the cap, a sleep is
    shorter than the next whatever the random numbers. *)
Lemma jittered_increase (rc : nat) (r1 r2 : Q) :
  1 <= rc -> rc <= 5 ->
  (0 <= r1)%Q -> (r1 < 1)%Q -> (0 <= r2)%Q -> (r2 < 1)%Q ->
  (jittered (backoff rc) r1 < jittered (backoff (S rc)) r2)%Q.
Proof.
  intros Hrc Hrc' H1 H1' H2 H2'.
  pose proof (backoff_nonneg rc) as Hd. pose proof (backoff_nonneg (S rc)) as Hd'.
  assert (Hhi : (jittered (backoff rc) r1 <= jittered (backoff rc) 1)%Q)
    by (apply jittered_mono; lra).
  assert (Hlo : (jittered (backoff (S rc)) 0 <= jittered (backoff (S rc)) r2)%Q)
    by (apply jittered_mono; lra).
  assert (Hcases : rc = 1 \/ rc = 2 \/ rc = 3 \/ rc = 4 \/ rc = 5) by lia.
  assert (Hgap : (jittered (backoff rc) 1 < jittered (backoff (S rc)) 0)%Q).
  { destruct Hcases as [-> | [-> | [-> | [-> | ->]]]];
      unfold Qlt; vm_compute; reflexivity. }
  lra.
Qed.

Lemma sleeps_of_retries_trace (cfg : Config) (env : Env) (n : nat) :
  forall rc d,
    sleeps_of (retries_trace cfg env n rc d)
    = map (fun k => jittered (backoff (rc + S k)) (env_random env (d + k)))
        (seq 0 n).
Proof.
  induction n as [| n IH]; intros rc d;
    cbn [retries_trace sleeps_of flat_map handshake app seq map].
  - reflexivity.
  - f_equal.
    + rewrite Nat.add_0_r. reflexivity.
    + change (flat_map _ (retries_trace cfg env n (rc + 1) (S d)))
        with (sleeps_of (retries_trace cfg env n (rc + 1) (S d))).
      rewrite IH, <- seq_shift, map_map. apply map_ext. intros k.
      replace (rc + 1 + S k) with (rc + S (S k)) by lia.
      replace (S d + k) with (d + S k) by lia. reflexivity.
Qed.

Lemma handshakes_of_retries_trace (cfg : Config) (env : Env) (n : nat) :
  forall rc d, handshakes_of (retries_trace cfg env n rc d) = S n.
Proof.
  induction n as [| n IH]; intros rc d.
  - reflexivity.
  - cbn [retries_trace]. unfold handshakes_of in *.
    cbn [filter handshake length]. rewrite IH. reflexivity.
Qed.

(** *** A wrong password *)

(** C2, as the specification states it, fails for an error message that
    contains both ECONNREFUSED and auth: the refused branch is tested
    first, and [connect] retries until the retries are used up. *)
Lemma connect_auth_in_refused_message_retries :
  ~ (forall (env : Env) (err : Js.Thrown),
       env_connect env (trace fresh_client ++ [handshake default_config])
       = inl err ->
       Js.includes "Authentication" (Js.message_of err)
       || Js.includes "auth" (Js.message_of err) = true ->
       exists w',
         run env (connect default_config) fresh_client
         = (Thrown auth_error, w') /\
         handshakes_of (trace w') = 1 /\
         sleeps_of (trace w') = []).
Proof.
  intros claim.
  destruct (claim (refusing_env "connect ECONNREFUSED auth-gw:4455"
                     no_jitter) _ eq_refl eq_refl)
    as (w' & Hrun & _).
  vm_compute in Hrun. discriminate Hrun.
Qed.

(** C2, amended. On a client that is neither connected nor connecting,
    with [retryCount = 0], when the first handshake fails with a message
    that contains Authentication or auth and does not contain
    ECONNREFUSED, [connect] throws the AUTH_FAILED error; the handshake is
    the only event it adds to the trace (one attempt, no retry, no sleep),
    and the client is left neither connected nor connecting. *)
Theorem connect_auth_failure_no_retry
  (cfg : Config) (env : Env) (w : World) (err : Js.Thrown) :
  connected w = false ->
  connecting w = false ->
  retryCount w = 0 ->
  env_connect env (trace w ++ [handshake cfg]) = inl err ->
  Js.includes "Authentication" (Js.message_of err)
  || Js.includes "auth" (Js.message_of err) = true ->
  Js.includes "ECONNREFUSED" (Js.message_of err) = false ->
  exists w',
    run env (connect cfg) w = (Thrown auth_error, w') /\
    trace w' = trace w ++ [handshake cfg] /\
    handshakes_of (issued w w') = 1 /\
    sleeps_of (issued w w') = [] /\
    connected w' = false /\
    connecting w' = false.
Proof.
  intros Hconn Hcing Hrc Hans Hauth Hrefused.
  assert (Hclass : classify (Js.message_of err) = AuthFailed).
  { unfold classify. rewrite Hrefused, Hauth. reflexivity. }
  unfold connect. cbn [bind perform run sync]. rewrite Hconn, Hcing.
  change (maxRetries + 2) with (S (maxRetries + 1)).
  cbn [orb bind perform run sync connect_loop]. world_simpl.
  rewrite Hrc. cbn [Nat.leb]. rewrite run_bind.
  destruct (run_connect_attempt_auth cfg env (with_connecting true w) err)
    as (w' & Hrun & Htrace & Hc & Hg & _); [exact Hans | exact Hclass |].
  rewrite Hrun. cbn [and_then]. world_simpl.
  exists w'. unfold issued. rewrite Htrace, skipn_app, skipn_all, Nat.sub_diag.
  repeat split; try assumption. congruence.
Qed.

Lemma connect_auth_failure_no_retry_witness :
  exists w',
    run (refusing_env "Authentication failed." no_jitter)
      (connect default_config) fresh_client = (Thrown auth_error, w') /\
    trace w' = trace fresh_client ++ [handshake default_config] /\
    handshakes_of (issued fresh_client w') = 1 /\
    sleeps_of (issued fresh_client w') = [] /\
    connected w' = false /\
    connecting w' = false.
Proof.
  apply (connect_auth_failure_no_retry default_config
           (refusing_env "Authentication failed." no_jitter) fresh_client
           (Js.Error "Authentication failed."));
    reflexivity.
Defined.

(** *** A refused connection *)

(** C3, as the specification states it, fails: from the cap on, the
    delays slept are not non-decreasing.  With the sixth random number 1/2
    and the others 0, the sixth sleep is 30000 ms and the seventh
    21000 ms, in double precision as the code computes them. *)
Lemma connect_jittered_sleeps_decrease :
  ~ (forall env : Env,
       (forall sent, exists err,
          env_connect env sent = inl err /\
          Js.includes "ECONNREFUSED" (Js.message_of err) = true) ->
       (forall n, (0 <= env_random env n)%Q /\ (env_random env n < 1)%Q) ->
       exists err w',
         run env (connect default_config) fresh_client = (Thrown err, w') /\
         connected w' = false /\
         nondecreasing (sleeps_of (trace w'))).
Proof.
  intros claim.
  destruct (claim (refusing_env "connect ECONNREFUSED 127.0.0.1:4455"
                     sixth_half))
    as (err & w' & Hrun & _ & Hsorted).
  - intros sent. eexists. split; reflexivity.
  - intros n. cbn. unfold sixth_half.
    destruct (Nat.eqb n 5); split; reflexivity || discriminate.
  - vm_compute in Hrun. injection Hrun as _ <-.
    cbv in Hsorted.
    destruct Hsorted as (_ & _ & _ & _ & _ & H & _). apply H. reflexivity.
Qed.

(** C3, amended. On a client that is neither connected nor connecting,
    with [retryCount = 0], when every handshake fails otherwise than by
    authentication and [Math.random] stays in [0, 1): [connect] makes
    [maxRetries + 1] handshakes, sleeping after each but the last; the
    sleep before retry [k] is [min(baseDelay * 2^(k-1), maxDelay)] times
    the jitter factor [0.7 + 0.6 * random], computed in double precision,
    and lies between 0.7 and 1.3 times that delay; the first six sleeps,
    up to the first at the cap, are strictly increasing whatever the
    random numbers; the sleeps from the sixth on lie between 21000 and
    39000 ms, in no order; the delays before jitter are non-decreasing;
    [connect] then throws the error that carries the message of the last
    handshake's error, and the client is not connected. *)
Theorem connect_refused_exhausts (cfg : Config) (env : Env) (w : World) :
  connected w = false ->
  connecting w = false ->
  retryCount w = 0 ->
  always_refused env ->
  (forall n, (0 <= env_random env n)%Q /\ (env_random env n < 1)%Q) ->
  exists err w',
    run env (connect cfg) w
    = (Thrown (exhausted_error (Js.message_of err)), w') /\
    env_connect env (trace w') = inl err /\
    trace w' = trace w ++ retries_trace cfg env maxRetries 0 (randomDraws w) /\
    handshakes_of (retries_trace cfg env maxRetries 0 (randomDraws w))
    = maxRetries + 1 /\
    sleeps_of (retries_trace cfg env maxRetries 0 (randomDraws w))
    = map (fun k => jittered (backoff (S k))
                      (env_random env (randomDraws w + k)))
        (seq 0 maxRetries) /\
    (forall k,
       ((7 # 10) * backoff (S k)
        <= jittered (backoff (S k)) (env_random env (randomDraws w + k)))%Q /\
       (jittered (backoff (S k)) (env_random env (randomDraws w + k))
        <= (13 # 10) * backoff (S k))%Q) /\
    increasing
      (firstn 6
         (sleeps_of (retries_trace cfg env maxRetries 0 (randomDraws w)))) /\
    Forall (fun ms => (21000 <= ms)%Q /\ (ms <= 39000)%Q)
      (skipn 5
         (sleeps_of (retries_trace cfg env maxRetries 0 (randomDraws w)))) /\
    (forall j k, j <= k -> (backoff j <= backoff k)%Q) /\
    connected w' = false.
Proof.
  intros Hconn Hcing Hrc Hrefused Hrandom.
  unfold connect. cbn [bind perform run sync]. rewrite Hconn, Hcing.
  cbn [orb bind perform run sync].
  destruct (run_connect_loop_refused cfg env Hrefused maxRetries
              (maxRetries + 2) (with_connecting true w))
    as (err & w' & Hrun & Hlast & Htrace & Hc & _ & _).
  { world_simpl. lia. }
  { lia. }
  world_simpl. rewrite Hrc in Htrace.
  exists err, w'.
  split; [exact Hrun |]. split; [exact Hlast |]. split; [exact Htrace |].
  split; [apply handshakes_of_retries_trace |].
  split; [apply sleeps_of_retries_trace |].
  split; [intros k; apply jittered_bounds; [lia | apply Hrandom ..] |].
  split.
  { rewrite sleeps_of_retries_trace. unfold maxRetries.
    cbn [seq map firstn increasing Nat.add].
    repeat (split; [apply jittered_increase; [lia | lia | apply Hrandom ..] |]).
    exact I. }
  split.
  { rewrite sleeps_of_retries_trace. unfold maxRetries.
    cbn [seq map skipn Nat.add].
    repeat (apply Forall_cons;
            [apply jittered_capped; [lia | apply Hrandom ..] |]).
    apply Forall_nil. }
  split; [intros j k; apply backoff_monotone | congruence].
Qed.

Lemma connect_refused_exhausts_witness :
  exists err w',
    run (refusing_env "connect ECONNREFUSED 127.0.0.1:4455" sixth_half)
      (connect default_config) fresh_client
    = (Thrown (exhausted_error (Js.message_of err)), w') /\
    handshakes_of (trace w') = 11 /\
    connected w' = false.
Proof.
  destruct (connect_refused_exhausts default_config
              (refusing_env "connect ECONNREFUSED 127.0.0.1:4455" sixth_half)
              fresh_client eq_refl eq_refl eq_refl)
    as (err & w' & Hrun & _ & Htrace & Hn & _ & _ & _ & _ & _ & Hconn).
  - intros sent. eexists. split; [reflexivity |]. vm_compute. discriminate.
  - intros n. cbn. unfold sixth_half.
    destruct (Nat.eqb n 5); split; reflexivity || discriminate.
  - exists err, w'. rewrite Htrace.
    split; [exact Hrun |]. split; [exact Hn | exact Hconn].
Defined.

(** ** After the retries are used up *)

Lemma stays_dead_refl (w : World) : connected w = false -> stays_dead w w.
Proof. intros H. repeat split; auto. Qed.

Lemma run_serialize_not_connected {A : Type} (env : Env) (body : Prog A)
  (w : World) :
  connected w = false ->
  exists o w',
    run env (serialize (ensureConnected ;; body)) w = (o, w') /\
    stays_dead w w'.
Proof.
  intros Hconn. unfold serialize.
  cbn [bind perform run sync issue settle].
  destruct (is_resolved _ _).
  - rewrite run_try_finally_release, run_bind, run_ensureConnected.
    world_simpl. rewrite Hconn. cbn [and_then].
    do 2 eexists. split; [reflexivity |]. repeat split; auto.
  - do 2 eexists. split; [reflexivity |]. repeat split; auto.
Qed.

(** On a dead client [connect] skips the loop and returns, leaving
    [connecting] set. *)
Lemma run_connect_dead (cfg : Config) (env : Env) (w : World) :
  dead w ->
  exists w',
    run env (connect cfg) w = (Returned tt, w') /\
    connecting w' = true /\
    retryCount w' = retryCount w /\
    connected w' = false /\
    trace w' = trace w.
Proof.
  intros [Hrc Hconn]. unfold connect. cbn [bind perform run sync].
  rewrite Hconn. destruct (connecting w) eqn:Hg; cbn [orb run bind perform sync].
  - exists w. repeat split; assumption.
  - change (maxRetries + 2) with (S (maxRetries + 1)).
    cbn [connect_loop bind perform run sync]. world_simpl.
    replace (retryCount w <=? maxRetries)%nat with false
      by (symmetry; apply Nat.leb_gt; exact Hrc).
    cbn [run]. eexists. split; [reflexivity |]. repeat split; assumption.
Qed.

Ltac serialized_dead env w Hconn :=
  rewrite snd_run_ignore;
  match goal with
  | |- context [run env (serialize (bind ensureConnected ?f)) w] =>
      let o := fresh "o" in
      let w' := fresh "w'" in
      let Hrun := fresh "Hrun" in
      let Hstay := fresh "Hstay" in
      destruct (run_serialize_not_connected env (f tt) w Hconn)
        as (o & w' & Hrun & Hstay);
      cbv beta in Hrun; rewrite Hrun; exact Hstay
  end.

Lemma run_action_dead (cfg : Config) (env : Env) (a : Action) (w : World) :
  dead w -> stays_dead w (snd (run_action cfg env a w)).
Proof.
  intros Hdead. pose proof Hdead as [Hrc Hconn].
  destruct a; cbn [run_action action_prog].
  - destruct (run_connect_dead cfg env w Hdead)
      as (w' & -> & Hg & Hrc' & Hc & Htr).
    cbn [snd]. unfold stays_dead. rewrite Htr. auto.
  - unfold disconnect. cbn [bind perform run sync]. rewrite Hconn.
    cbn [run snd]. apply stays_dead_refl, Hconn.
  - unfold startStream, startStream_body. serialized_dead env w Hconn.
  - unfold stopStream, stopStream_body. serialized_dead env w Hconn.
  - unfold startRecording, startRecording_body. serialized_dead env w Hconn.
  - unfold stopRecording, stopRecording_body. serialized_dead env w Hconn.
  - rewrite snd_run_ignore. unfold getCurrentScene.
    rewrite run_bind, run_ensureConnected, Hconn. apply stays_dead_refl, Hconn.
  - rewrite snd_run_ignore. unfold getSceneList.
    rewrite run_bind, run_ensureConnected, Hconn. apply stays_dead_refl, Hconn.
  - unfold setScene, setScene_body. serialized_dead env w Hconn.
  - unfold setMicMute, setMicMute_body. serialized_dead env w Hconn.
  - unfold setSourceVisibility, setSourceVisibility_body.
    serialized_dead env w Hconn.
  - rewrite snd_run_ignore, (run_getStatus_offline env w Hconn).
    apply stays_dead_refl, Hconn.
  - rewrite snd_run_ignore. apply stays_dead_refl, Hconn.
  - unfold on_ConnectionClosed, scheduleReconnect.
    cbn [bind perform run sync log]. world_simpl.
    destruct (connecting w); cbn [negb run perform sync snd];
      repeat split; auto.
    world_simpl. unfold handshakes_of. rewrite filter_app, length_app.
    cbn. lia.
  - unfold on_ConnectionError. cbn [bind perform run sync log snd].
    repeat split; auto.
  - destruct (pendingReconnects w) as [| n];
      [apply stays_dead_refl, Hconn |].
    unfold reconnect_timer. rewrite run_try_catch.
    destruct (run_connect_dead cfg env (with_pendingReconnects n w))
      as (w' & -> & Hg & Hrc' & Hc & Htr); [split; assumption |].
    cbn [snd]. unfold stays_dead. rewrite Htr. auto.
Qed.

Lemma run_actions_dead (cfg : Config) (env : Env) (history : list Action) :
  forall w, dead w -> stays_dead w (run_actions cfg env history w).
Proof.
  induction history as [| a history IH]; intros w Hdead.
  - apply stays_dead_refl, Hdead.
  - change (run_actions cfg env (a :: history) w)
      with (run_actions cfg env history (snd (run_action cfg env a w))).
    pose proof (run_action_dead cfg env a w Hdead) as (Hrc & Hc & Hh & Hg).
    set (w1 := snd (run_action cfg env a w)) in *.
    assert (Hdead1 : dead w1) by (destruct Hdead; split; [lia | assumption]).
    destruct (IH w1 Hdead1) as (Hrc' & Hc' & Hh' & Hg').
    unfold stays_dead.
    repeat split; [congruence | assumption | congruence | auto].
Qed.

(** The state the exhaustion error leaves behind. *)
Lemma exhausted_leaves_dead (cfg : Config) (env : Env) (w0 w : World)
  (message : string) :
  run env (connect cfg) w0 = (Thrown (exhausted_error message), w) ->
  dead w /\ connecting w = false.
Proof.
  unfold connect. cbn [bind perform run sync].
  destruct (connected w0) eqn:Hc0; [discriminate |].
  destruct (connecting w0) eqn:Hg0; [discriminate |].
  cbn [orb bind perform run sync]. intros Hrun.
  destruct (run_connect_loop_ends cfg env (maxRetries + 2)
              (with_connecting true w0)) as (o & w' & Hrun' & Hend); [lia |].
  rewrite Hrun' in Hrun. injection Hrun as -> ->.
  inversion Hend as [| | | m w1 Hc Hg Hrc Ho]. world_simpl.
  repeat split; congruence.
Qed.

(** C9. Once [connect] has thrown the exhaustion error, whatever happens
    to the client afterwards ([history]: calls of any method, transport
    events, reconnect timers), [retryCount] keeps its value above
    [maxRetries], no handshake is sent and the client is not connected;
    a call of [connect], and the callback of a reconnect timer, returns
    without error and without sending anything, and from then on
    [connecting] is [true] whatever happens next. *)
Theorem connect_never_retries_after_exhaustion
  (cfg : Config) (env : Env) (w0 w : World) (message : string)
  (history : list Action) :
  run env (connect cfg) w0 = (Thrown (exhausted_error message), w) ->
  let w1 := run_actions cfg env history w in
  maxRetries < retryCount w1 /\
  retryCount w1 = retryCount w /\
  handshakes_of (trace w1) = handshakes_of (trace w) /\
  connected w1 = false /\
  (exists w2,
     run env (connect cfg) w1 = (Returned tt, w2) /\
     trace w2 = trace w1 /\
     forall later,
       connecting (run_actions cfg env later w2) = true /\
       retryCount (run_actions cfg env later w2) = retryCount w /\
       handshakes_of (trace (run_actions cfg env later w2))
       = handshakes_of (trace w)) /\
  (forall n, pendingReconnects w1 = S n ->
   exists w2,
     run_action cfg env reconnect_timer_fires w1 = (Returned tt, w2) /\
     trace w2 = trace w1 /\
     forall later,
       connecting (run_actions cfg env later w2) = true /\
       retryCount (run_actions cfg env later w2) = retryCount w /\
       handshakes_of (trace (run_actions cfg env later w2))
       = handshakes_of (trace w)).
Proof.
  intros Hrun w1.
  destruct (exhausted_leaves_dead cfg env w0 w message Hrun) as [Hdead _].
  pose proof (run_actions_dead cfg env history w Hdead)
    as (Hrc & Hc & Hh & _).
  fold w1 in Hrc, Hc, Hh.
  assert (Hdead1 : dead w1) by (destruct Hdead; split; [lia | assumption]).
  assert (Hafter : forall w2,
             connecting w2 = true -> retryCount w2 = retryCount w1 ->
             connected w2 = false -> trace w2 = trace w1 ->
             forall later,
               connecting (run_actions cfg env later w2) = true /\
               retryCount (run_actions cfg env later w2) = retryCount w /\
               handshakes_of (trace (run_actions cfg env later w2))
               = handshakes_of (trace w)).
  { intros w2 Hg2 Hrc2 Hc2 Htr2 later.
    assert (Hdead2 : dead w2) by (destruct Hdead1; split; [lia | assumption]).
    destruct (run_actions_dead cfg env later w2 Hdead2) as (H1 & _ & H3 & H4).
    repeat split; [auto | congruence | congruence]. }
  split; [apply Hdead1 |]. split; [exact Hrc |]. split; [exact Hh |].
  split; [exact Hc |]. split.
  - destruct (run_connect_dead cfg env w1 Hdead1)
      as (w2 & Hrun2 & Hg2 & Hrc2 & Hc2 & Htr2).
    exists w2. split; [exact Hrun2 |]. split; [exact Htr2 |].
    apply Hafter; assumption.
  - intros n Hpending. cbn [run_action]. rewrite Hpending.
    unfold reconnect_timer. rewrite run_try_catch.
    destruct (run_connect_dead cfg env (with_pendingReconnects n w1))
      as (w2 & Hrun2 & Hg2 & Hrc2 & Hc2 & Htr2); [exact Hdead1 |].
    rewrite Hrun2. exists w2. split; [reflexivity |]. split; [exact Htr2 |].
    apply Hafter; assumption.
Qed.

Lemma connect_never_retries_after_exhaustion_witness :
  let w0 := with_retryCount maxRetries fresh_client in
  let w := snd (run silent_env (connect default_config) w0) in
  let w1 := run_actions default_config silent_env
              [ConnectionClosed; reconnect_timer_fires; call_startStream] w in
  retryCount w1 = 11 /\
  handshakes_of (trace w1) = 1 /\
  connected w1 = false /\
  connecting w1 = true.
Proof.
  intros w0 w w1.
  assert (Hrun : run silent_env (connect default_config) w0
                 = (Thrown (exhausted_error
                              "connect ECONNREFUSED 127.0.0.1:4455"), w))
    by (vm_compute; reflexivity).
  destruct (connect_never_retries_after_exhaustion default_config silent_env
              w0 w "connect ECONNREFUSED 127.0.0.1:4455"
              [ConnectionClosed; reconnect_timer_fires; call_startStream]
              Hrun)
    as (_ & Hrc & Hh & Hc & (w2 & _ & _ & Hlater) & _).
  fold w1 in Hrc, Hh, Hc.
  split; [rewrite Hrc; vm_compute; reflexivity |].
  split; [rewrite Hh; vm_compute; reflexivity |].
  split; [exact Hc |].
  vm_compute. reflexivity.
Defined.

(** ** The serializer in the event loop *)

(** *** Programs that leave the queue alone *)

Lemma queue_free_weaken {A : Type} (p : Prog A) :
  queue_free false p -> queue_free true p.
Proof.
  induction p as [a | err | T e k IH |]; cbn; auto.
  intros [He Hk]. split; auto.
Qed.

Lemma queue_free_bind {A B : Type} (b : bool) (p : Prog A) (f : A -> Prog B) :
  queue_free b p -> (forall a, queue_free b (f a)) -> queue_free b (bind p f).
Proof.
  intros Hp Hf. induction p as [a | err | T e k IH |]; cbn in *; auto.
  destruct Hp as [He Hk]. split; auto.
Qed.

Lemma queue_free_try_catch {A : Type} (b : bool) (p : Prog A)
  (handler : Js.Thrown -> Prog A) :
  queue_free b p -> (forall err, queue_free b (handler err)) ->
  queue_free b (try_catch p handler).
Proof.
  intros Hp Hh. induction p as [a | err | T e k IH |]; cbn in *; auto.
  destruct Hp as [He Hk]. split; auto.
Qed.

Lemma sync_same_queue {T : Type} (random : nat -> Q) (e : clientE T)
  (w w' : World) (x : T) :
  touches_queue e = false ->
  sync random e w = Some (x, w') -> same_queue w w'.
Proof.
  destruct e; cbn; intros Hq Hs; try discriminate;
    injection Hs as <- <-; repeat split.
Qed.

Lemma issue_same_queue {T : Type} (e : clientE T) (w : World) :
  same_queue w (issue e w).
Proof. destruct e; repeat split. Qed.

Lemma same_queue_trans (w1 w2 w3 : World) :
  same_queue w1 w2 -> same_queue w2 w3 -> same_queue w1 w3.
Proof. unfold same_queue. intuition congruence. Qed.

Lemma same_queue_refl (w : World) : same_queue w w.
Proof. repeat split. Qed.

Lemma advance_queue_free {A : Type} (random : nat -> Q) (b : bool)
  (p : Prog A) :
  queue_free b p ->
  forall w,
    same_queue w (snd (advance random p w)) /\
    task_queue_free b (fst (advance random p w)).
Proof.
  induction p as [a | err | T e k IH |]; cbn [queue_free advance].
  - intros _ w. split; [apply same_queue_refl |]. cbn. split; discriminate.
  - intros _ w. split; [apply same_queue_refl |]. cbn. split; discriminate.
  - intros [He Hk] w. destruct (sync random e w) as [[x w'] |] eqn:Hs.
    + destruct (IH x (Hk x) w') as [Hq Ht]. split; [| exact Ht].
      eapply same_queue_trans; [| exact Hq].
      eapply sync_same_queue; eassumption.
    + cbn [fst snd task_queue_free]. split; [apply issue_same_queue | auto].
  - intros Hb w. split; [apply same_queue_refl |]. cbn. congruence.
Qed.

Lemma advance_guarded {A : Type} (random : nat -> Q) (fn : Prog A)
  (q : PromiseId) :
  forall w,
    advance random (guarded fn q) w
    = match advance random fn w with
      | (Finished (Returned _), w') => (Finished (Returned tt), release q w')
      | (Finished (Thrown err), w') => (Finished (Thrown err), release q w')
      | (Finished Blocked, w') => (Finished Blocked, w')
      | (Finished Diverged, w') => (Finished Diverged, w')
      | (Suspended e k, w') => (Suspended e (fun x => guarded (k x) q), w')
      end.
Proof.
  induction fn as [a | err | T e k IH |]; intros w; try reflexivity.
  cbn [guarded ignore try_finally bind advance].
  destruct (sync random e w) as [[x w'] |]; [apply IH | reflexivity].
Qed.

Lemma action_prog_mutating (cfg : Config) (a : Action) :
  mutating a = true ->
  action_prog cfg a = ignore (serialize (body_of cfg a)).
Proof. destruct a; intros H; try discriminate H; reflexivity. Qed.

Ltac queue_free_step :=
  match goal with
  | |- True => exact I
  | |- _ /\ _ => split
  | |- forall _, _ => intro
  | |- false = false => reflexivity
  | |- true = true => reflexivity
  | |- queue_free _ (bind _ _) => apply queue_free_bind
  | |- queue_free _ (try_catch _ _) => apply queue_free_try_catch
  | |- queue_free _ (if ?c then _ else _) => destruct c
  | |- queue_free _ (match ?x with _ => _ end) => destruct x
  | |- queue_free _ _ =>
      progress (unfold ensureConnected, getCurrentScene, getSceneList, call,
                  await, log, perform;
                cbn [queue_free touches_queue])
  end.

Lemma try_micNames_queue_free (mute : bool) (names : list string) :
  queue_free false (try_micNames mute names).
Proof.
  induction names as [| name rest IH]; cbn [try_micNames].
  - exact I.
  - repeat queue_free_step. exact IH.
Qed.

Lemma body_queue_free (cfg : Config) (a : Action) :
  queue_free false (body_of cfg a).
Proof.
  destruct a; cbn [body_of]; try exact I;
    unfold startStream_body, stopStream_body, startRecording_body,
      stopRecording_body, setScene_body, setMicMute_body,
      setSourceVisibility_body;
    repeat first [ exact (try_micNames_queue_free _ _) | queue_free_step ].
Qed.

Lemma connect_attempt_queue_free (cfg : Config) :
  queue_free true (connect_attempt cfg).
Proof. unfold connect_attempt. repeat queue_free_step. Qed.

Lemma connect_loop_queue_free (cfg : Config) (bound : nat) :
  queue_free true (connect_loop cfg bound).
Proof.
  induction bound as [| bound IH]; cbn [connect_loop].
  - reflexivity.
  - repeat first [ exact IH | exact (connect_attempt_queue_free cfg)
                 | queue_free_step ].
Qed.

Lemma connect_queue_free (cfg : Config) : queue_free true (connect cfg).
Proof.
  unfold connect.
  repeat first [ exact (connect_loop_queue_free cfg _) | queue_free_step ].
Qed.

Lemma other_queue_free (cfg : Config) (a : Action) :
  mutating a = false -> queue_free true (action_prog cfg a).
Proof.
  destruct a; intros H; try discriminate H; cbn [action_prog];
    unfold ignore, disconnect, getStatus, isConnected, on_ConnectionClosed,
      on_ConnectionError, scheduleReconnect, reconnect_timer, fulfilled;
    repeat first [ exact (connect_queue_free cfg) | queue_free_step ].
Qed.

(** *** The chain of serialized calls *)

Lemma slot_state_mono (w w' : World) (q p : PromiseId) (t : Task unit) :
  slot_state w q p t ->
  resolved_grows w w' ->
  is_resolved p w' = is_resolved p w ->
  slot_state w' q p t.
Proof.
  intros Hs Hgrow Hp. destruct Hs.
  - apply slot_gate; [assumption | congruence].
  - apply slot_inside; [assumption | assumption | auto | congruence].
  - apply slot_done; [assumption | auto | congruence].
Qed.

Lemma chain_le (w : World) (q q' : PromiseId) ts :
  chain w q ts q' -> q <= q'.
Proof. induction 1; lia. Qed.

Lemma chain_mono (w w' : World) (q q' : PromiseId) ts :
  chain w q ts q' ->
  resolved_grows w w' ->
  (forall x, q < x -> is_resolved x w' = is_resolved x w) ->
  chain w' q ts q'.
Proof.
  intros Hc Hgrow. induction Hc as [q | q a t ts q' Ha Ht Hc IH
                                   | q p a t ts q' Ha Hqp Hs Hc IH];
    intros Hsame.
  - apply chain_nil.
  - apply chain_other; auto.
  - apply chain_slot with (p := p); auto.
    + apply slot_state_mono with (w := w); auto.
    + apply IH. intros x Hx. apply Hsame. lia.
Qed.

Lemma chain_app_other (w : World) (q q' : PromiseId) ts a t :
  chain w q ts q' ->
  mutating a = false ->
  task_queue_free true t ->
  chain w q (ts ++ [(a, t)]) q'.
Proof.
  intros Hc Ha Ht. induction Hc.
  - apply chain_other; [assumption | assumption | apply chain_nil].
  - apply chain_other; assumption.
  - eapply chain_slot; eassumption.
Qed.

Lemma chain_app_slot (w : World) (q q' p : PromiseId) ts a t :
  chain w q ts q' ->
  mutating a = true ->
  q' < p ->
  slot_state w q' p t ->
  chain w q (ts ++ [(a, t)]) p.
Proof.
  intros Hc Ha Hp Hs. induction Hc.
  - eapply chain_slot; [assumption | eassumption | assumption
                       | apply chain_nil].
  - apply chain_other; auto.
  - eapply chain_slot; eauto.
Qed.

(** What the task at index [i] may be replaced with. *)
Lemma chain_update (w : World) (q q' : PromiseId) ts :
  chain w q ts q' ->
  forall i a t,
    nth_error ts i = Some (a, t) ->
    (mutating a = false /\
     task_queue_free true t /\
     forall w' t',
       (forall x, is_resolved x w' = is_resolved x w) ->
       task_queue_free true t' ->
       chain w' q (update i (a, t') ts) q') \/
    (mutating a = true /\
     exists qi pi,
       slot_state w qi pi t /\ q <= qi /\ qi < pi /\ pi <= q' /\
       forall w' t',
         resolved_grows w w' ->
         (forall x, x <> pi -> is_resolved x w' = is_resolved x w) ->
         slot_state w' qi pi t' ->
         chain w' q (update i (a, t') ts) q').
Proof.
  induction 1 as [q | q a0 t0 ts q' Ha Ht Hc IH
                 | q p a0 t0 ts q' Ha Hqp Hs Hc IH];
    intros i a t Hi.
  - destruct i; discriminate Hi.
  - destruct i as [| i]; cbn in Hi.
    + injection Hi as -> ->. left. split; [assumption |].
      split; [assumption |]. intros w' t' Hsame Ht'. cbn.
      apply chain_other; [assumption | assumption |].
      apply chain_mono with (w := w); auto.
      intros x Hx. rewrite <- Hx. apply Hsame.
    + destruct (IH i a t Hi)
        as [(Ha' & Ht' & Hk) | (Ha' & qi & pi & Hs & Hq & Hqp & Hp & Hk)].
      * left. split; [assumption |]. split; [assumption |].
        intros w' t' Hsame Hok. cbn. apply chain_other; auto.
      * right. split; [assumption |]. exists qi, pi.
        repeat split; try assumption.
        intros w' t' Hgrow Hsame Hs'. cbn. apply chain_other; auto.
  - destruct i as [| i]; cbn in Hi.
    + injection Hi as -> ->. right. split; [assumption |].
      exists q, p. pose proof (chain_le _ _ _ _ Hc).
      repeat split; try assumption; try lia.
      intros w' t' Hgrow Hsame Hs'. cbn.
      apply chain_slot with (p := p); auto.
      apply chain_mono with (w := w); auto.
      intros x Hx. apply Hsame. lia.
    + destruct (IH i a t Hi)
        as [(Ha' & Ht' & Hk) | (Ha' & qi & pi & Hs' & Hq & Hqp' & Hp & Hk)].
      * left. split; [assumption |]. split; [assumption |].
        intros w' t' Hsame Hok. cbn.
        apply chain_slot with (p := p); auto.
        apply slot_state_mono with (w := w); auto.
        intros x Hx. rewrite <- Hx. apply Hsame.
      * right. split; [assumption |]. exists qi, pi.
        repeat split; try assumption; try lia.
        intros w' t' Hgrow Hsame Hs''. cbn.
        apply chain_slot with (p := p); auto.
        apply slot_state_mono with (w := w); auto.
        apply Hsame. lia.
Qed.

Lemma slot_state_begun (w : World) (q p : PromiseId) (t : Task unit) :
  slot_state w q p t -> at_gate t = false -> is_resolved q w = true.
Proof.
  intros Hs. destruct Hs; cbn; [discriminate | auto | auto].
Qed.

Lemma slot_state_released (w : World) (q p : PromiseId) (t : Task unit) :
  slot_state w q p t -> is_resolved p w = completed t.
Proof. intros Hs. destruct Hs; [assumption | assumption | congruence]. Qed.

(** A serialized call past the gate means the promise the chain starts
    from is resolved. *)
Lemma chain_begun_resolved (w : World) (q q' : PromiseId) ts :
  chain w q ts q' ->
  forall j a t,
    nth_error ts j = Some (a, t) ->
    mutating a = true ->
    at_gate t = false ->
    is_resolved q w = true.
Proof.
  induction 1 as [q | q a0 t0 ts q' Ha Ht Hc IH
                 | q p a0 t0 ts q' Ha Hqp Hs Hc IH];
    intros j a t Hj Hmut Hgate.
  - destruct j; discriminate Hj.
  - destruct j as [| j]; cbn in Hj.
    + injection Hj as -> ->. congruence.
    + eapply IH; eassumption.
  - destruct j as [| j]; cbn in Hj.
    + injection Hj as -> ->. eapply slot_state_begun; eassumption.
    + assert (Hp : is_resolved p w = true) by (eapply IH; eassumption).
      rewrite (slot_state_released _ _ _ _ Hs) in Hp.
      destruct Hs; cbn in Hp; try discriminate Hp. assumption.
Qed.

(** The earlier of two serialized calls has completed when the later one
    is past the gate. *)
Lemma chain_order (w : World) (q q' : PromiseId) ts :
  chain w q ts q' ->
  forall i j a t a' t',
    i < j ->
    nth_error ts i = Some (a, t) -> mutating a = true ->
    nth_error ts j = Some (a', t') -> mutating a' = true ->
    at_gate t' = false ->
    completed t = true.
Proof.
  induction 1 as [q | q a0 t0 ts q' Ha Ht Hc IH
                 | q p a0 t0 ts q' Ha Hqp Hs Hc IH];
    intros i j a t a' t' Hij Hi Hmut Hj Hmut' Hgate.
  - destruct i; discriminate Hi.
  - destruct j as [| j]; [lia |]. destruct i as [| i]; cbn in Hi, Hj.
    + injection Hi as -> ->. congruence.
    + eapply (IH i j); try eassumption. lia.
  - destruct j as [| j]; [lia |]. destruct i as [| i]; cbn in Hi, Hj.
    + injection Hi as -> ->.
      rewrite <- (slot_state_released _ _ _ _ Hs).
      eapply chain_begun_resolved; eassumption.
    + eapply (IH i j); try eassumption. lia.
Qed.

Lemma can_resume_outside {T : Type} (e : clientE T) (x : T) (w : World) :
  touches_queue e = false -> can_resume e x w.
Proof. destruct e; cbn; intros H; try exact I; discriminate H. Qed.

(** The oldest serialized call that has not completed is never held
    back. *)
Lemma chain_no_stall (w : World) (q q' : PromiseId) ts :
  chain w q ts q' ->
  is_resolved q w = true ->
  forall j a t,
    nth_error ts j = Some (a, t) ->
    mutating a = true ->
    (forall i a' t',
       i < j -> nth_error ts i = Some (a', t') -> mutating a' = true ->
       completed t' = true) ->
    resumable t w.
Proof.
  induction 1 as [q | q a0 t0 ts q' Ha Ht Hc IH
                 | q p a0 t0 ts q' Ha Hqp Hs Hc IH];
    intros Hq j a t Hj Hmut Hbefore.
  - destruct j; discriminate Hj.
  - destruct j as [| j]; cbn in Hj.
    + injection Hj as -> ->. congruence.
    + apply (IH Hq j a t Hj Hmut).
      intros i a' t' Hi. apply (Hbefore (S i)). lia.
  - destruct j as [| j]; cbn in Hj.
    + injection Hj as -> ->. destruct Hs; cbn.
      * intros _. exact Hq.
      * intros x. apply can_resume_outside. assumption.
      * exact I.
    + apply (IH) with (j := j) (a := a); try assumption.
      * rewrite (slot_state_released _ _ _ _ Hs).
        apply (Hbefore 0 a0 t0); [lia | reflexivity | assumption].
      * intros i a' t' Hi. apply (Hbefore (S i)). lia.
Qed.

Lemma advance_serialize {A : Type} (random : nat -> Q) (fn : Prog A)
  (w : World) :
  advance random (ignore (serialize fn)) w
  = (Suspended (AwaitPromise (commandQueue w))
       (fun _ => guarded fn (nextPromise w)),
     enqueue w).
Proof. reflexivity. Qed.

(** *** Lists *)

Lemma nth_error_update_same {A : Type} (l : list A) :
  forall i x y, nth_error l i = Some y -> nth_error (update i x l) i = Some x.
Proof.
  induction l as [| z l IH]; intros [| i] x y H; cbn in *;
    try discriminate; eauto.
Qed.

Lemma nth_error_update_other {A : Type} (l : list A) :
  forall i j x, i <> j -> nth_error (update i x l) j = nth_error l j.
Proof.
  induction l as [| z l IH]; intros [| i] [| j] x H; cbn; auto; try lia.
Qed.

Lemma length_update {A : Type} (l : list A) :
  forall i x, length (update i x l) = length l.
Proof. induction l as [| z l IH]; intros [| i] x; cbn; auto. Qed.

Lemma mutating_at_update ts i a t t' j :
  nth_error ts i = Some (a, t) ->
  mutating_at (update i (a, t') ts) j = mutating_at ts j.
Proof.
  intros Hi. unfold mutating_at. destruct (Nat.eq_dec i j) as [Heq | Hne].
  - subst j. rewrite (nth_error_update_same _ _ (a, t') _ Hi), Hi.
    reflexivity.
  - rewrite nth_error_update_other by assumption. reflexivity.
Qed.

Lemma mutating_at_app ts l j :
  j < length ts -> mutating_at (ts ++ l) j = mutating_at ts j.
Proof. intros H. unfold mutating_at. rewrite nth_error_app1; auto. Qed.

Lemma skipn_self_calls (w : World) : issued_calls w w = [].
Proof. unfold issued_calls. rewrite skipn_all. reflexivity. Qed.

(** *** First in, first out *)

Lemma fifo_app ts cs i rs :
  fifo ts cs ->
  (rs <> [] -> mutating_at ts i = true ->
   forall j r, In (j, r) cs -> mutating_at ts j = true -> j <= i) ->
  fifo ts (cs ++ map (fun r => (i, r)) rs).
Proof.
  intros Hfifo Hle m n i1 r1 i2 r2 Hmn Hm Hn Hmut1 Hmut2.
  destruct (Nat.lt_ge_cases n (length cs)) as [Hn' | Hn'].
  - rewrite nth_error_app1 in Hm, Hn by lia.
    apply (Hfifo m n i1 r1 i2 r2); assumption.
  - rewrite nth_error_app2 in Hn by assumption.
    apply nth_error_In in Hn. apply in_map_iff in Hn.
    destruct Hn as (r & Heq & Hr). injection Heq as <- <-.
    assert (Hrs : rs <> []) by (intros ->; destruct Hr).
    destruct (Nat.lt_ge_cases m (length cs)) as [Hm' | Hm'].
    + rewrite nth_error_app1 in Hm by assumption.
      apply nth_error_In in Hm. apply (Hle Hrs Hmut2 i1 r1); assumption.
    + rewrite nth_error_app2 in Hm by assumption.
      apply nth_error_In in Hm. apply in_map_iff in Hm.
      destruct Hm as (r' & Heq & _). injection Heq as <- <-. lia.
Qed.

Lemma fifo_ext ts ts' cs :
  fifo ts cs ->
  (forall j r, In (j, r) cs -> mutating_at ts' j = mutating_at ts j) ->
  fifo ts' cs.
Proof.
  intros Hfifo Hext m n i r j r' Hmn Hm Hn Hi Hj.
  rewrite (Hext i r) in Hi by (eapply nth_error_In; eassumption).
  rewrite (Hext j r') in Hj by (eapply nth_error_In; eassumption).
  apply (Hfifo m n i r j r'); assumption.
Qed.

Lemma invariant_start (w : World) : queue_ready w -> invariant (start w).
Proof.
  intros (Hidle & Htail & Hfresh). unfold invariant. cbn.
  split; [exists (commandQueue w); split; [exact Hidle | apply chain_nil] |].
  split; [exact Htail |]. split; [exact Hfresh |].
  split; [intros j r [] |]. split; [intros j r a t [] |].
  intros m n i r j r' _ Hm. destruct m; discriminate Hm.
Qed.

(** *** The invariant is kept *)

Lemma before_action_resolved (a : Action) (w : World) (x : PromiseId) :
  is_resolved x (before_action a w) = is_resolved x w.
Proof. destruct a; reflexivity. Qed.

Lemma before_action_queue (a : Action) (w : World) :
  commandQueue (before_action a w) = commandQueue w /\
  nextPromise (before_action a w) = nextPromise w.
Proof. destruct a; split; reflexivity. Qed.

Lemma same_queue_resolved (w w' : World) (x : PromiseId) :
  same_queue w w' -> is_resolved x w' = is_resolved x w.
Proof. intros (_ & Hr & _). unfold is_resolved. rewrite Hr. reflexivity. Qed.

Lemma invariant_spawn (cfg : Config) (random : nat -> Q) (a : Action)
  (s : System) :
  invariant s -> invariant (spawn cfg random a s).
Proof.
  intros ((q0 & Hq0 & Hchain) & Htail & Hfresh & Htags & Hbegun & Hfifo).
  unfold spawn. set (w0 := before_action a (world s)).
  pose proof (before_action_resolved a (world s)) as Hres. fold w0 in Hres.
  destruct (before_action_queue a (world s)) as [Hcq Hnp].
  fold w0 in Hcq, Hnp.
  assert (Hold : forall j r, In (j, r) (calls s) ->
                   forall x, nth_error (tasks s ++ x) j = nth_error (tasks s) j).
  { intros j r Hin x. apply nth_error_app1. eapply Htags; eassumption. }
  assert (Hext : forall x, fifo (tasks s ++ x) (calls s)).
  { intros x. apply fifo_ext with (ts := tasks s); [assumption |].
    intros j r Hin. apply mutating_at_app. eapply Htags; eassumption. }
  destruct (mutating a) eqn:Hmut.
  - rewrite action_prog_mutating, advance_serialize by assumption.
    replace (issued_calls w0 (enqueue w0)) with (@nil Request)
      by (symmetry; exact (skipn_self_calls w0)).
    unfold invariant. cbn [map world tasks calls]. rewrite app_nil_r, Hcq.
    assert (Hres' : forall x, is_resolved x (enqueue w0)
                              = is_resolved x (world s))
      by (intros x; rewrite <- Hres; reflexivity).
    split.
    { exists q0. split; [rewrite Hres'; assumption |].
      change (commandQueue (enqueue w0)) with (nextPromise w0).
      apply chain_app_slot with (q' := commandQueue (world s)).
      - apply chain_mono with (w := world s); [assumption | |].
        + intros x Hx. rewrite Hres'. assumption.
        + intros x _. apply Hres'.
      - assumption.
      - lia.
      - apply slot_gate; [apply body_queue_free |].
        rewrite Hres'. destruct (is_resolved (nextPromise w0) (world s)) eqn:E;
          [apply Hfresh in E; lia | reflexivity]. }
    split; [cbn; lia |].
    split; [intros x Hx; rewrite Hres' in Hx; apply Hfresh in Hx; cbn; lia |].
    split; [intros j r Hin; rewrite length_app; cbn;
            pose proof (Htags j r Hin); lia |].
    split; [| apply Hext].
    intros j r a1 t1 Hin Hj. rewrite (Hold j r Hin) in Hj.
    eapply Hbegun; eassumption.
  - pose proof (advance_queue_free random true (action_prog cfg a)
                  (other_queue_free cfg a Hmut) w0) as [Hsame Hok].
    destruct (advance random (action_prog cfg a) w0) as [t w'].
    cbn [fst snd] in Hsame, Hok. unfold invariant. cbn [world tasks calls].
    pose proof (same_queue_resolved w0 w') as Hres'.
    destruct Hsame as (Hcq' & Hr' & Hnp').
    assert (Hsame' : forall x, is_resolved x w' = is_resolved x (world s)).
    { intros x. rewrite Hres' by (repeat split; assumption). apply Hres. }
    split.
    { exists q0. split; [rewrite Hsame'; assumption |].
      replace (commandQueue w') with (commandQueue (world s)) by congruence.
      apply chain_app_other; [| assumption | assumption].
      apply chain_mono with (w := world s); [assumption | |].
      - intros x Hx. rewrite Hsame'. assumption.
      - intros x _. apply Hsame'. }
    split; [congruence |].
    split; [intros x Hx; rewrite Hsame' in Hx; apply Hfresh in Hx; congruence |].
    split.
    { intros j r Hin. rewrite length_app. cbn. apply in_app_or in Hin.
      destruct Hin as [Hin | Hin].
      - pose proof (Htags j r Hin). lia.
      - apply in_map_iff in Hin. destruct Hin as (r' & Heq & _).
        injection Heq as <- <-. lia. }
    split.
    { intros j r a1 t1 Hin Hj Hmut1. apply in_app_or in Hin.
      destruct Hin as [Hin | Hin].
      - rewrite (Hold j r Hin) in Hj. eapply Hbegun; eassumption.
      - apply in_map_iff in Hin. destruct Hin as (r' & Heq & _).
        injection Heq as <- <-.
        rewrite nth_error_app2, Nat.sub_diag in Hj by lia.
        injection Hj as <- <-. congruence. }
    apply fifo_app; [apply Hext |].
    intros _ _ j r Hin _. pose proof (Htags j r Hin). lia.
Qed.

Lemma is_resolved_release (p x : PromiseId) (w : World) :
  is_resolved x (release p w) = (x =? p)%nat || is_resolved x w.
Proof. reflexivity. Qed.

(** A serialized call resumed past the gate: it stays inside its body or
    completes and resolves its promise, whether it returns or throws. *)
Lemma advance_slot (random : nat -> Q) (fn : Prog OpResult)
  (q p : PromiseId) (w : World) :
  queue_free false fn ->
  is_resolved q w = true ->
  is_resolved p w = false ->
  let t' := fst (advance random (guarded fn p) w) in
  let w' := snd (advance random (guarded fn p) w) in
  slot_state w' q p t' /\
  at_gate t' = false /\
  resolved_grows w w' /\
  (forall x, x <> p -> is_resolved x w' = is_resolved x w) /\
  commandQueue w' = commandQueue w /\
  nextPromise w' = nextPromise w.
Proof.
  intros Hfn Hq Hp. rewrite advance_guarded.
  destruct (advance_queue_free random false fn Hfn w) as [Hsame Hok].
  destruct (advance random fn w) as [[o | T e k] w1];
    cbn [fst snd task_queue_free] in Hsame, Hok.
  - pose proof (same_queue_resolved w w1) as Hres.
    destruct Hsame as (Hcq & Hr & Hnp).
    assert (Hres1 : forall x, is_resolved x w1 = is_resolved x w)
      by (intros x; apply Hres; repeat split; assumption).
    destruct (Hok eq_refl) as [Hdiv Hblk].
    destruct o as [v | err | |]; try congruence; cbn [fst snd].
    + split; [apply slot_done; [reflexivity | |];
              rewrite is_resolved_release, ?Hres1, ?Hq, ?Nat.eqb_refl;
              auto using orb_true_r |].
      split; [reflexivity |].
      split; [intros x Hx; rewrite is_resolved_release, Hres1, Hx;
              apply orb_true_r |].
      split; [| split; assumption].
      intros x Hx. rewrite is_resolved_release, Hres1.
      apply Nat.eqb_neq in Hx. rewrite Hx. reflexivity.
    + split; [apply slot_done; [reflexivity | |];
              rewrite is_resolved_release, ?Hres1, ?Hq, ?Nat.eqb_refl;
              auto using orb_true_r |].
      split; [reflexivity |].
      split; [intros x Hx; rewrite is_resolved_release, Hres1, Hx;
              apply orb_true_r |].
      split; [| split; assumption].
      intros x Hx. rewrite is_resolved_release, Hres1.
      apply Nat.eqb_neq in Hx. rewrite Hx. reflexivity.
  - pose proof (same_queue_resolved w w1) as Hres.
    destruct Hsame as (Hcq & Hr & Hnp).
    assert (Hres1 : forall x, is_resolved x w1 = is_resolved x w)
      by (intros x; apply Hres; repeat split; assumption).
    destruct Hok as [He Hk]. cbn [fst snd].
    split; [apply slot_inside; rewrite ?Hres1; assumption |].
    split; [destruct e; try reflexivity; discriminate He |].
    split; [intros x Hx; rewrite Hres1; assumption |].
    split; [intros x _; apply Hres1 | split; assumption].
Qed.

Lemma invariant_resume (random : nat -> Q) (i : nat) (a : Action)
  (t : Task unit) (p : Prog unit) (s : System) :
  invariant s ->
  nth_error (tasks s) i = Some (a, t) ->
  next t (world s) p ->
  invariant (resume random i a p s).
Proof.
  intros ((q0 & Hq0 & Hchain) & Htail & Hfresh & Htags & Hbegun & Hfifo)
    Hi Hnext.
  assert (Hext : forall t', fifo (update i (a, t') (tasks s)) (calls s)).
  { intros t'. apply fifo_ext with (ts := tasks s); [assumption |].
    intros j r _. eapply mutating_at_update; eassumption. }
  assert (Hother : forall j t' a1 t1,
             j <> i ->
             nth_error (update i (a, t') (tasks s)) j = Some (a1, t1) ->
             nth_error (tasks s) j = Some (a1, t1)).
  { intros j t' a1 t1 Hne Hj.
    rewrite nth_error_update_other in Hj by auto. exact Hj. }
  assert (Hin_new : forall j r rs,
             In (j, r) (calls s ++ map (fun r => (i, r)) rs) ->
             In (j, r) (calls s) \/ j = i).
  { intros j r rs Hin. apply in_app_or in Hin. destruct Hin as [Hin | Hin];
      [left; assumption |].
    apply in_map_iff in Hin. destruct Hin as (r' & Heq & _).
    injection Heq as <- <-. right. reflexivity. }
  assert (Hlt : i < length (tasks s))
    by (apply nth_error_Some; congruence).
  unfold resume, invariant.
  destruct (chain_update _ _ _ _ Hchain i a t Hi)
    as [(Hmut & Hok & Hk)
       | (Hmut & qi & pi & Hs & Hqi & Hqp & Hpi & Hk)].
  - destruct t as [o | T e k]; cbn [next] in Hnext; [contradiction |].
    destruct Hnext as (x & _ & ->). destruct Hok as [_ Hfree].
    pose proof (advance_queue_free random true (k x) (Hfree x) (world s))
      as [Hsame Hok'].
    destruct (advance random (k x) (world s)) as [t' w'].
    cbn [fst snd] in Hsame, Hok'. cbn [world tasks calls].
    pose proof (same_queue_resolved (world s) w') as Hres.
    destruct Hsame as (Hcq & Hr & Hnp).
    assert (Hres' : forall y, is_resolved y w' = is_resolved y (world s))
      by (intros y; apply Hres; repeat split; assumption).
    split; [exists q0; split; [rewrite Hres'; assumption |];
            rewrite Hcq; apply Hk; assumption |].
    split; [congruence |].
    split; [intros y Hy; rewrite Hres' in Hy; apply Hfresh in Hy;
            congruence |].
    split.
    { intros j r Hin. rewrite length_update.
      destruct (Hin_new j r _ Hin) as [Hin' | ->];
        [eapply Htags; eassumption | assumption]. }
    split.
    { intros j r a1 t1 Hin Hj Hmut1.
      destruct (Nat.eq_dec j i) as [-> | Hne].
      - rewrite (nth_error_update_same _ _ (a, t') _ Hi) in Hj.
        injection Hj as <- <-. congruence.
      - destruct (Hin_new j r _ Hin) as [Hin' | ->]; [| congruence].
        apply Hother in Hj; [| assumption].
        eapply Hbegun; eassumption. }
    apply fifo_app; [apply Hext |].
    intros _ Hmi. rewrite (mutating_at_update _ _ _ _ _ _ Hi) in Hmi.
    unfold mutating_at in Hmi. rewrite Hi in Hmi. congruence.
  - assert (Hlive : exists fn : Prog OpResult,
               p = guarded fn pi /\ queue_free false fn /\
               is_resolved qi (world s) = true /\
               is_resolved pi (world s) = false /\
               completed t = false).
    { destruct Hs as [fn Hfn Hp | T e k He Hfree Hq Hp | o Ho Hq Hp];
        cbn [next] in Hnext; [| | contradiction].
      - destruct Hnext as (x & Hres & ->). exists fn. auto.
      - destruct Hnext as (x & _ & ->). exists (k x). auto. }
    destruct Hlive as (fn & -> & Hfn & Hq & Hp & Hlive).
    pose proof (advance_slot random fn qi pi (world s) Hfn Hq Hp)
      as (Hs' & Hgate & Hgrow & Hsame & Hcq & Hnp).
    destruct (advance random (guarded fn pi) (world s)) as [t' w'].
    cbn [fst snd] in Hs', Hgate, Hgrow, Hsame, Hcq, Hnp.
    cbn [world tasks calls].
    split; [exists q0; split; [apply Hgrow; assumption |];
            rewrite Hcq; apply Hk; assumption |].
    split; [congruence |].
    split.
    { intros y Hy. rewrite Hnp. destruct (Nat.eq_dec y pi) as [-> | Hne];
        [lia |].
      rewrite Hsame in Hy by assumption. apply Hfresh. assumption. }
    split.
    { intros j r Hin. rewrite length_update.
      destruct (Hin_new j r _ Hin) as [Hin' | ->];
        [eapply Htags; eassumption | assumption]. }
    split.
    { intros j r a1 t1 Hin Hj Hmut1.
      destruct (Nat.eq_dec j i) as [-> | Hne].
      - rewrite (nth_error_update_same _ _ (a, t') _ Hi) in Hj.
        injection Hj as <- <-. assumption.
      - destruct (Hin_new j r _ Hin) as [Hin' | ->]; [| congruence].
        apply Hother in Hj; [| assumption].
        eapply Hbegun; eassumption. }
    apply fifo_app; [apply Hext |].
    intros _ _ j r Hin Hmj. rewrite (mutating_at_update _ _ _ _ _ _ Hi) in Hmj.
    destruct (Nat.le_gt_cases j i) as [Hle | Hgt]; [assumption |].
    exfalso. unfold mutating_at in Hmj.
    destruct (nth_error (tasks s) j) as [[aj tj] |] eqn:Hj;
      [| discriminate Hmj].
    pose proof (Hbegun j r aj tj Hin Hj Hmj) as Hgj.
    pose proof (chain_order _ _ _ _ Hchain i j a t aj tj Hgt Hi Hmut Hj Hmj Hgj).
    congruence.
Qed.

Lemma reachable_invariant (cfg : Config) (random : nat -> Q) (s : System) :
  reachable cfg random s -> invariant s.
Proof.
  induction 1 as [w Hw | s s' _ IH Hstep].
  - apply invariant_start. assumption.
  - destruct Hstep as [a s _ | i a t p s Hi Hnext].
    + apply invariant_spawn. assumption.
    + eapply invariant_resume; eassumption.
Qed.

Lemma chain_settled (w : World) (q q' : PromiseId) ts :
  chain w q ts q' ->
  forall j a o,
    nth_error ts j = Some (a, Finished o) ->
    mutating a = true ->
    completed (Finished o) = true.
Proof.
  intros Hc j a o Hj Hmut.
  destruct (chain_update _ _ _ _ Hc j a _ Hj)
    as [(Hmut' & _) | (_ & qi & pi & Hs & _)]; [congruence |].
  inversion Hs. assumption.
Qed.

(** C1. In every state the event loop can reach, whatever calls, events
    and timers are in flight and in whatever order they are resumed and
    answered:
    - the requests of the serialized (mutating) calls reach the controller
      call by call in the order of the calls: a request of a later call
      never comes before a request of an earlier one;
    - a serialized call has sent requests only past the gate;
    - a serialized call is past the gate only when every serialized call
      made before it has returned or thrown;
    - the oldest serialized call that has not completed can be resumed
      with any answer: the queue does not stall, whether the calls before
      it returned or threw;
    - a serialized call that has ended has returned or thrown. *)
Theorem serialized_calls_never_interleave
  (cfg : Config) (random : nat -> Q) (s : System) :
  reachable cfg random s ->
  fifo (tasks s) (calls s) /\
  (forall j r a t,
     In (j, r) (calls s) -> nth_error (tasks s) j = Some (a, t) ->
     mutating a = true -> at_gate t = false) /\
  (forall i j a t a' t',
     i < j ->
     nth_error (tasks s) i = Some (a, t) -> mutating a = true ->
     nth_error (tasks s) j = Some (a', t') -> mutating a' = true ->
     at_gate t' = false ->
     completed t = true) /\
  (forall j a t,
     nth_error (tasks s) j = Some (a, t) ->
     mutating a = true ->
     (forall i a' t',
        i < j -> nth_error (tasks s) i = Some (a', t') ->
        mutating a' = true -> completed t' = true) ->
     resumable t (world s)) /\
  (forall j a o,
     nth_error (tasks s) j = Some (a, Finished o) ->
     mutating a = true ->
     completed (Finished o) = true).
Proof.
  intros Hreach.
  destruct (reachable_invariant cfg random s Hreach)
    as ((q0 & Hq0 & Hchain) & _ & _ & _ & Hbegun & Hfifo).
  split; [exact Hfifo |]. split; [exact Hbegun |].
  split; [exact (chain_order _ _ _ _ Hchain) |].
  split; [exact (chain_no_stall _ _ _ _ Hchain Hq0) |].
  exact (chain_settled _ _ _ _ Hchain).
Qed.

Lemma serialized_calls_never_interleave_witness :
  fifo (tasks second_inside) (calls second_inside) /\
  calls second_inside = [(0, GetSceneList); (1, GetCurrentProgramScene)] /\
  task_at second_inside 0 = Finished (Thrown (Js.Error "socket hang up")) /\
  resumable (task_at second_inside 1) (world second_inside).
Proof.
  destruct (serialized_calls_never_interleave default_config no_jitter
              second_inside)
    as (Hfifo & _ & _ & Hstall & _).
  - apply reach_step with (s := first_rejected).
    + apply reach_step with (s := two_calls_first_inside).
      * apply reach_step with (s := two_calls).
        -- apply reach_step with (s := one_call).
           ++ apply reach_step with (s := start connected_client).
              ** apply reach_start. split; [reflexivity |].
                 split; [cbn; lia |].
                 intros p. unfold is_resolved. cbn.
                 destruct p; [lia | discriminate].
              ** apply step_spawn. exact I.
           ++ apply step_spawn. exact I.
        -- eapply step_resume; [reflexivity |].
           exists tt. split; reflexivity.
      * eapply step_resume; [reflexivity |].
        exists (inl (Js.Error "socket hang up")).
        split; [exact I | reflexivity].
    + eapply step_resume; [reflexivity |]. exists tt. split; reflexivity.
  - split; [exact Hfifo |]. split; [reflexivity |]. split; [reflexivity |].
    apply (Hstall 1 call_startStream); [reflexivity | reflexivity |].
    intros i a t Hi Hnth _. destruct i as [| i]; [| lia].
    injection Hnth as _ <-. reflexivity.
Defined.

(** * Further properties *)

Lemma handshakes_of_app (a b : list Event) :
  handshakes_of (a ++ b) = handshakes_of a + handshakes_of b.
Proof. unfold handshakes_of. rewrite filter_app, length_app. reflexivity. Qed.

Lemma issued_app (w w' : World) (ev : list Event) :
  trace w' = trace w ++ ev -> issued w w' = ev.
Proof.
  intros H. unfold issued. rewrite H, skipn_app, skipn_all, Nat.sub_diag.
  reflexivity.
Qed.

(** The retry loop, whatever the controller answers: [j] retries, each a
    handshake and a sleep, and a last handshake. *)
Lemma run_connect_loop_trace (cfg : Config) (env : Env) (bound : nat) :
  forall w,
    maxRetries + 1 - retryCount w < bound ->
    retryCount w <= maxRetries ->
    exists o w' j,
      run env (connect_loop cfg bound) w = (o, w') /\
      retryCount w + j <= maxRetries /\
      trace w'
      = trace w ++ retries_trace cfg env j (retryCount w) (randomDraws w) /\
      connecting w' = false /\
      connect_end w j o w'.
Proof.
  induction bound as [| bound IH]; intros w Hbound Hrc; [lia |].
  cbn [connect_loop bind perform run sync].
  replace (retryCount w <=? maxRetries)%nat with true
    by (symmetry; apply Nat.leb_le; exact Hrc).
  rewrite run_bind.
  destruct (env_connect env (trace w ++ [handshake cfg]))
    as [err | hello] eqn:Hans.
  - destruct (classify (Js.message_of err)) eqn:Hclass.
    2:{ destruct (run_connect_attempt_auth cfg env w err Hans Hclass)
          as (w' & Hrun & Htr & Hc & Hg & Hcount).
        rewrite Hrun. cbn [and_then]. exists (Thrown auth_error), w', 0.
        split; [reflexivity |]. split; [lia |]. split; [exact Htr |].
        split; [exact Hg |]. cbn [connect_end].
        split; [exact Hc |]. split; [lia | left; reflexivity]. }
    all: destruct (run_connect_attempt_failed cfg env w err Hans)
           as (w1 & Hrun & Htr & Hc & Hg & Hcount & Hdraws); [congruence |];
         rewrite Hrun; unfold retry_events in Htr;
         destruct (maxRetries <? retryCount w + 1)%nat eqn:Hlt;
         cbn [and_then];
         [ apply Nat.ltb_lt in Hlt;
           exists (Thrown (exhausted_error (Js.message_of err))), w1, 0;
           split; [reflexivity |]; split; [lia |]; split; [exact Htr |];
           split; [exact Hg |]; cbn [connect_end];
           split; [exact Hc |]; split; [lia |];
           right; eexists; split; [reflexivity | lia]
         | apply Nat.ltb_ge in Hlt;
           destruct (IH w1) as (o & w' & j & Hrun' & Hj & Htr' & Hg' & Hend);
           [lia | lia |];
           exists o, w', (S j); split; [exact Hrun' |]; split; [lia |];
           split;
           [ rewrite Htr', Htr, Hcount, Hdraws; cbn [retries_trace];
             rewrite <- app_assoc; reflexivity |];
           split; [exact Hg' |];
           destruct o as [[] | e | |]; cbn [connect_end] in *;
           [ exact Hend
           | destruct Hend as (H1 & H2 & H3);
             split; [congruence |]; split; [lia |];
             destruct H3 as [-> | (m & -> & Hm)];
             [left; reflexivity | right; eexists; split; [reflexivity | lia]]
           | exact Hend | exact Hend ] ].
  - destruct (run_connect_attempt_ok cfg env w hello Hans)
      as (w' & Hrun & Htr & Hc & Hg & Hcount).
    rewrite Hrun. cbn [and_then run]. exists (Returned tt), w', 0.
    split; [reflexivity |]. split; [lia |]. split; [exact Htr |].
    split; [exact Hg |]. cbn [connect_end]. split; assumption.
Qed.

Lemma connect_outcome_trace (cfg : Config) (env : Env) (w : World) :
  connected w = false ->
  connecting w = false ->
  retryCount w <= maxRetries ->
  exists o w' j,
    run env (connect cfg) w = (o, w') /\
    retryCount w + j <= maxRetries /\
    trace w'
    = trace w ++ retries_trace cfg env j (retryCount w) (randomDraws w) /\
    connecting w' = false /\
    connect_end w j o w'.
Proof.
  intros Hc Hg Hrc. unfold connect. cbn [bind perform run sync].
  rewrite Hc, Hg. cbn [orb bind perform run sync].
  destruct (run_connect_loop_trace cfg env (maxRetries + 2)
              (with_connecting true w))
    as (o & w' & j & Hrun & Hj & Htr & Hg' & Hend);
    [world_simpl; lia | exact Hrc |].
  exists o, w', j. split; [exact Hrun |]. split; [exact Hj |].
  split; [exact Htr |]. split; [exact Hg' |].
  destruct o as [[] | e | |]; cbn [connect_end] in *; exact Hend.
Qed.

(** X1. Whatever the controller answers, a call of [connect] on a client
    that is neither connected nor connecting and has retries left settles
    after [j] retries (a handshake and a sleep each) and one last
    handshake, [retryCount + j] not exceeding [maxRetries], and leaves
    [connecting] at [false].  If it returned, the client is connected and
    [retryCount] is 0.  If it threw, [connected] is as before,
    [retryCount] has grown by [j + 1], and the error is AUTH_FAILED or the
    exhaustion error, the latter only with the retries used up. *)
Theorem connect_outcome (cfg : Config) (env : Env) (w : World) :
  connected w = false ->
  connecting w = false ->
  retryCount w <= maxRetries ->
  exists o w' j,
    run env (connect cfg) w = (o, w') /\
    retryCount w + j <= maxRetries /\
    trace w'
    = trace w ++ retries_trace cfg env j (retryCount w) (randomDraws w) /\
    connecting w' = false /\
    connect_end w j o w'.
Proof. exact (connect_outcome_trace cfg env w). Qed.

Lemma run_connect_loop_recovers (cfg : Config) (env : Env) (hello : Hello) :
  forall k bound w,
    retryCount w + k <= maxRetries ->
    k < bound ->
    recovers_after env (trace w) k hello ->
    exists w',
      run env (connect_loop cfg bound) w = (Returned tt, w') /\
      trace w'
      = trace w ++ retries_trace cfg env k (retryCount w) (randomDraws w) /\
      connected w' = true /\
      connecting w' = false /\
      retryCount w' = 0.
Proof.
  induction k as [| k IH]; intros bound w Hrc Hbound [Hfail Hok];
    (destruct bound as [| bound]; [lia |]);
    cbn [connect_loop bind perform run sync];
    (replace (retryCount w <=? maxRetries)%nat with true
       by (symmetry; apply Nat.leb_le; lia));
    rewrite run_bind.
  - destruct (run_connect_attempt_ok cfg env w hello)
      as (w' & Hrun & Htr & Hc & Hg & Hcount).
    { apply Hok. rewrite handshakes_of_app. cbn. lia. }
    rewrite Hrun. cbn [and_then run]. exists w'. repeat split; assumption.
  - destruct (Hfail (trace w ++ [handshake cfg])) as (err & Hans & Hclass).
    { rewrite handshakes_of_app. cbn. lia. }
    destruct (run_connect_attempt_failed cfg env w err Hans Hclass)
      as (w1 & Hrun & Htr & Hc & Hg & Hcount & Hdraws).
    unfold retry_events in Htr.
    replace (maxRetries <? retryCount w + 1)%nat with false in *
      by (symmetry; apply Nat.ltb_ge; lia).
    rewrite Hrun. cbn [and_then].
    assert (Hh : handshakes_of (trace w1) = handshakes_of (trace w) + 1).
    { rewrite Htr, handshakes_of_app. reflexivity. }
    destruct (IH bound w1) as (w' & Hrun' & Htr' & Hrest); [lia | lia | |].
    { split; intros sent Hsent; [apply Hfail | apply Hok]; lia. }
    exists w'. split; [exact Hrun' |]. split; [| exact Hrest].
    rewrite Htr', Htr, Hcount, Hdraws. cbn [retries_trace].
    rewrite <- app_assoc. reflexivity.
Qed.

(** X2. When the first [k] handshakes fail otherwise than by
    authentication, [k] being within the retries left, and the next one is
    accepted, [connect] returns: it has sent [k + 1] handshakes and slept
    [k] times, the client is connected, and [retryCount] is back to 0. *)
Theorem connect_recovers
  (cfg : Config) (env : Env) (w : World) (k : nat) (hello : Hello) :
  connected w = false ->
  connecting w = false ->
  retryCount w + k <= maxRetries ->
  recovers_after env (trace w) k hello ->
  exists w',
    run env (connect cfg) w = (Returned tt, w') /\
    trace w'
    = trace w ++ retries_trace cfg env k (retryCount w) (randomDraws w) /\
    handshakes_of (issued w w') = k + 1 /\
    length (sleeps_of (issued w w')) = k /\
    connected w' = true /\
    connecting w' = false /\
    retryCount w' = 0.
Proof.
  intros Hc Hg Hrc Hrec. unfold connect. cbn [bind perform run sync].
  rewrite Hc, Hg. cbn [orb bind perform run sync].
  destruct (run_connect_loop_recovers cfg env hello k (maxRetries + 2)
              (with_connecting true w))
    as (w' & Hrun & Htr & Hrest); [exact Hrc | lia | exact Hrec |].
  world_simpl. exists w'. split; [exact Hrun |]. split; [exact Htr |].
  rewrite (issued_app w w' _ Htr).
  rewrite handshakes_of_retries_trace, sleeps_of_retries_trace.
  rewrite length_map, length_seq.
  split; [lia |]. split; [reflexivity | exact Hrest].
Qed.

Lemma connect_recovers_witness :
  exists w',
    run (flaky_env 2) (connect default_config) fresh_client
    = (Returned tt, w') /\
    handshakes_of (issued fresh_client w') = 3 /\
    length (sleeps_of (issued fresh_client w')) = 2 /\
    connected w' = true /\
    retryCount w' = 0.
Proof.
  destruct (connect_recovers default_config (flaky_env 2) fresh_client 2
              {| obsWebSocketVersion := "5.1.0"; negotiatedRpcVersion := 1 |}
              eq_refl eq_refl)
    as (w' & Hrun & _ & Hh & Hs & Hc & _ & Hrc).
  - unfold maxRetries. cbn. lia.
  - split; intros sent Hsent; cbn [flaky_env env_connect].
    + replace (handshakes_of sent <=? 2)%nat with true
        by (symmetry; apply Nat.leb_le; exact Hsent).
      eexists. split; [reflexivity | discriminate].
    + replace (handshakes_of sent <=? 2)%nat with false
        by (symmetry; apply Nat.leb_gt; rewrite Hsent; cbn; lia).
      reflexivity.
  - exists w'. repeat split; assumption.
Defined.

(** *** Delays *)

Lemma backoff_at_least (rc : nat) : 1 <= rc -> (1000 <= backoff rc)%Q.
Proof.
  intros H. apply Qle_trans with (backoff 1).
  - apply Qle_bool_imp_le. reflexivity.
  - apply backoff_monotone. exact H.
Qed.

Lemma backoff_at_most (rc : nat) : (backoff rc <= 30000)%Q.
Proof. unfold backoff. apply Q.le_min_r. Qed.

Lemma calls_of_retries_trace (cfg : Config) (env : Env) (n : nat) :
  forall rc d, calls_of (retries_trace cfg env n rc d) = [].
Proof.
  induction n as [| n IH]; intros rc d; [reflexivity |].
  cbn [retries_trace calls_of flat_map handshake app]. apply IH.
Qed.

Lemma sleeps_in_range (cfg : Config) (env : Env) (n rc d : nat) :
  unit_interval (env_random env) ->
  Forall (fun ms => (700 <= ms)%Q /\ (ms <= 39000)%Q)
    (sleeps_of (retries_trace cfg env n rc d)).
Proof.
  intros Hrandom. rewrite sleeps_of_retries_trace.
  apply Forall_map, Forall_forall. intros k _.
  destruct (Hrandom (d + k)) as [H0 H1].
  pose proof (backoff_at_least (rc + S k) ltac:(lia)) as Hlo.
  pose proof (backoff_at_most (rc + S k)) as Hhi.
  destruct (jittered_bounds (rc + S k) (env_random env (d + k)))
    as [Hj1 Hj2]; [lia | exact H0 | exact H1 |].
  split; lra.
Qed.

(** X3. With [Math.random] in the interval [0, 1), whatever the state of
    the client and whatever the controller answers, a call of [connect]
    sends no request and at most [maxRetries + 1] handshakes, and sleeps
    at most [maxRetries] times, each time between 700 ms and 39000 ms. *)
Theorem connect_sends_bounded
  (cfg : Config) (env : Env) (w w' : World) (o : Outcome unit) :
  unit_interval (env_random env) ->
  run env (connect cfg) w = (o, w') ->
  calls_of (issued w w') = [] /\
  handshakes_of (issued w w') <= maxRetries + 1 /\
  length (sleeps_of (issued w w')) <= maxRetries /\
  Forall (fun ms => (700 <= ms)%Q /\ (ms <= 39000)%Q)
    (sleeps_of (issued w w')).
Proof.
  intros Hrandom Hrun.
  assert (Hnone : trace w' = trace w ++ [] ->
                  calls_of (issued w w') = [] /\
                  handshakes_of (issued w w') <= maxRetries + 1 /\
                  length (sleeps_of (issued w w')) <= maxRetries /\
                  Forall (fun ms => (700 <= ms)%Q /\ (ms <= 39000)%Q)
                    (sleeps_of (issued w w'))).
  { intros Htr. rewrite (issued_app w w' _ Htr). cbn.
    repeat split; try lia. constructor. }
  destruct (connected w || connecting w) eqn:Hguard.
  - unfold connect in Hrun. cbn [bind perform run sync] in Hrun.
    rewrite Hguard in Hrun. cbn [run] in Hrun. injection Hrun as _ <-.
    apply Hnone. rewrite app_nil_r. reflexivity.
  - apply orb_false_elim in Hguard as [Hc Hg].
    destruct (le_gt_dec (retryCount w) maxRetries) as [Hrc | Hrc].
    + destruct (connect_outcome_trace cfg env w Hc Hg Hrc)
        as (o1 & w1 & j & Hrun1 & Hj & Htr & _).
      rewrite Hrun1 in Hrun. injection Hrun as _ <-.
      rewrite (issued_app w w1 _ Htr).
      rewrite calls_of_retries_trace, handshakes_of_retries_trace.
      split; [reflexivity |]. split; [lia |]. split.
      * rewrite sleeps_of_retries_trace, length_map, length_seq. lia.
      * apply sleeps_in_range, Hrandom.
    + destruct (run_connect_dead cfg env w (conj Hrc Hc))
        as (w1 & Hrun1 & _ & _ & _ & Htr).
      rewrite Hrun1 in Hrun. injection Hrun as _ <-.
      apply Hnone. rewrite Htr, app_nil_r. reflexivity.
Qed.

Lemma connect_outcome_witness :
  exists o w' j,
    run (studio_env "Main" ["Main"]) (connect default_config) fresh_client
    = (o, w') /\
    retryCount fresh_client + j <= maxRetries /\
    trace w'
    = trace fresh_client
      ++ retries_trace default_config (studio_env "Main" ["Main"]) j
           (retryCount fresh_client) (randomDraws fresh_client) /\
    connecting w' = false /\
    connect_end fresh_client j o w'.
Proof.
  apply (connect_outcome default_config (studio_env "Main" ["Main"])
           fresh_client); [reflexivity | reflexivity |].
  unfold maxRetries. cbn. lia.
Defined.

Lemma unit_interval_const (x : Q) :
  (0 <= x)%Q -> (x < 1)%Q -> unit_interval (fun _ => x).
Proof. intros H0 H1 n. split; assumption. Qed.

Lemma connect_sends_bounded_witness :
  let w' := snd (run silent_env (connect default_config) fresh_client) in
  calls_of (issued fresh_client w') = [] /\
  handshakes_of (issued fresh_client w') <= maxRetries + 1 /\
  length (sleeps_of (issued fresh_client w')) <= maxRetries /\
  Forall (fun ms => (700 <= ms)%Q /\ (ms <= 39000)%Q)
    (sleeps_of (issued fresh_client w')).
Proof.
  intros w'.
  apply (connect_sends_bounded default_config silent_env fresh_client w'
           (fst (run silent_env (connect default_config) fresh_client))).
  - intros n. cbn. split; [discriminate | reflexivity].
  - apply surjective_pairing.
Defined.

Lemma total_jittered_bounds (rc : nat -> nat) (random : nat -> Q)
  (l : list nat) :
  (forall k, 1 <= rc k) ->
  unit_interval random ->
  ((7 # 10) * total (map (fun k => backoff (rc k)) l)
   <= total (map (fun k => jittered (backoff (rc k)) (random k)) l))%Q /\
  (total (map (fun k => jittered (backoff (rc k)) (random k)) l)
   <= (13 # 10) * total (map (fun k => backoff (rc k)) l))%Q.
Proof.
  intros Hrc Hrandom.
  induction l as [| k l [IH1 IH2]]; cbn [map total fold_right].
  - split; lra.
  - fold (total (map (fun k => backoff (rc k)) l)).
    fold (total (map (fun k => jittered (backoff (rc k)) (random k)) l)).
    destruct (Hrandom k) as [H0 H1].
    destruct (jittered_bounds (rc k) (random k) (Hrc k) H0 H1) as [Hj1 Hj2].
    split; lra.
Qed.

(** X4. The delay before jitter doubles from one second and is capped
    from the sixth retry on: for [rc >= 1], [backoff rc] is
    [1000 * 2 ^ (rc - 1)] when [rc <= 5], and 30000 otherwise. *)
Theorem backoff_schedule (rc : nat) :
  1 <= rc ->
  (backoff rc
   == if (rc <=? 5)%nat then inject_Z (1000 * 2 ^ (Z.of_nat rc - 1))
      else 30000)%Q.
Proof.
  intros H. destruct (rc <=? 5)%nat eqn:Hle.
  - apply Nat.leb_le in Hle.
    assert (Hcases : rc = 1 \/ rc = 2 \/ rc = 3 \/ rc = 4 \/ rc = 5) by lia.
    destruct Hcases as [-> | [-> | [-> | [-> | ->]]]];
      apply Qeq_bool_eq; reflexivity.
  - apply Nat.leb_gt in Hle. apply Qle_antisym.
    + apply backoff_at_most.
    + apply Qle_trans with (backoff 6).
      * apply Qle_bool_imp_le. reflexivity.
      * apply backoff_monotone. lia.
Qed.

Lemma backoff_schedule_witness :
  (backoff 3 == 4000)%Q /\ (backoff 9 == 30000)%Q.
Proof.
  split.
  - apply (backoff_schedule 3). lia.
  - apply (backoff_schedule 9). lia.
Defined.

(** X5. When every handshake is refused, a call of [connect] on a client
    with [retryCount = 0] sleeps, over its ten retries, between 126700 ms
    and 235300 ms in all ([Math.random] in [0, 1)) before it gives up. *)
Theorem connect_total_backoff
  (cfg : Config) (env : Env) (w w' : World) (o : Outcome unit) :
  always_refused env ->
  unit_interval (env_random env) ->
  connected w = false ->
  connecting w = false ->
  retryCount w = 0 ->
  run env (connect cfg) w = (o, w') ->
  (126700 <= total (sleeps_of (issued w w')))%Q /\
  (total (sleeps_of (issued w w')) <= 235300)%Q.
Proof.
  intros Hrefused Hrandom Hc Hg Hrc Hrun.
  unfold connect in Hrun. cbn [bind perform run sync] in Hrun.
  rewrite Hc, Hg in Hrun. cbn [orb bind perform run sync] in Hrun.
  destruct (run_connect_loop_refused cfg env Hrefused maxRetries
              (maxRetries + 2) (with_connecting true w))
    as (err & w1 & Hrun1 & _ & Htr & _); [world_simpl; lia | lia |].
  rewrite Hrun1 in Hrun. injection Hrun as _ <-. world_simpl.
  rewrite (issued_app w w1 _ Htr), sleeps_of_retries_trace, Hrc.
  set (d := randomDraws w).
  destruct (total_jittered_bounds
              (fun k => 0 + S k) (fun k => env_random env (d + k))
              (seq 0 maxRetries))
    as [Hlo Hhi].
  { intros k. lia. }
  { intros k. apply Hrandom. }
  assert (Hsum : (total (map (fun k => backoff (0 + S k)) (seq 0 maxRetries))
                  == 181000)%Q)
    by (apply Qeq_bool_eq; reflexivity).
  rewrite Hsum in Hlo, Hhi. split; lra.
Qed.

Lemma connect_total_backoff_witness :
  let w' := snd (run silent_env (connect default_config) fresh_client) in
  (126700 <= total (sleeps_of (issued fresh_client w')))%Q /\
  (total (sleeps_of (issued fresh_client w')) <= 235300)%Q.
Proof.
  intros w'.
  apply (connect_total_backoff default_config silent_env fresh_client w'
           (fst (run silent_env (connect default_config) fresh_client))).
  - intros sent. eexists. split; [reflexivity | discriminate].
  - intros n. cbn. split; [discriminate | reflexivity].
  - reflexivity.
  - reflexivity.
  - reflexivity.
  - apply surjective_pairing.
Defined.

(** *** A password that stays wrong *)

Lemma run_connect_auth (cfg : Config) (env : Env) (w : World) :
  always_auth env ->
  connected w = false ->
  connecting w = false ->
  retryCount w <= maxRetries ->
  exists w',
    run env (connect cfg) w = (Thrown auth_error, w') /\
    trace w' = trace w ++ [handshake cfg] /\
    connected w' = false /\
    connecting w' = false /\
    retryCount w' = retryCount w + 1.
Proof.
  intros Hauth Hc Hg Hrc. unfold connect. cbn [bind perform run sync].
  rewrite Hc, Hg. cbn [orb bind perform run sync].
  change (maxRetries + 2) with (S (maxRetries + 1)).
  cbn [connect_loop bind perform run sync]. world_simpl.
  replace (retryCount w <=? maxRetries)%nat with true
    by (symmetry; apply Nat.leb_le; exact Hrc).
  rewrite run_bind.
  destruct (Hauth (trace (with_connecting true w) ++ [handshake cfg]))
    as (err & Hans & Hclass).
  destruct (run_connect_attempt_auth cfg env (with_connecting true w) err
              Hans Hclass) as (w' & Hrun & Htr & Hc' & Hg' & Hcount).
  rewrite Hrun. cbn [and_then]. exists w'. world_simpl.
  repeat split; congruence.
Qed.

Lemma run_connects_auth (cfg : Config) (env : Env) :
  always_auth env ->
  forall n w,
    connected w = false ->
    connecting w = false ->
    retryCount w + n <= maxRetries + 1 ->
    let w' := run_actions cfg env (repeat call_connect n) w in
    trace w' = trace w ++ repeat (handshake cfg) n /\
    connected w' = false /\
    connecting w' = false /\
    retryCount w' = retryCount w + n.
Proof.
  intros Hauth. induction n as [| n IH]; intros w Hc Hg Hrc.
  - cbn. rewrite app_nil_r. repeat split; auto.
  - cbn [repeat].
    change (run_actions cfg env (call_connect :: repeat call_connect n) w)
      with (run_actions cfg env (repeat call_connect n)
              (snd (run env (connect cfg) w))).
    destruct (run_connect_auth cfg env w Hauth Hc Hg)
      as (w1 & Hrun & Htr & Hc1 & Hg1 & Hrc1); [lia |].
    rewrite Hrun. cbn [snd].
    destruct (IH w1 Hc1 Hg1) as (Htr' & Hc' & Hg' & Hrc'); [lia |].
    cbv zeta. rewrite Htr', Htr, <- app_assoc.
    repeat split; try assumption. lia.
Qed.

(** X6. A failed authentication uses up a retry that nothing gives back.
    While the controller rejects the password, call after call of
    [connect], each sends one handshake and throws; after
    [maxRetries + 1 - retryCount] of them [retryCount] is
    [maxRetries + 1], and from then on a call of [connect] returns
    without error and without a handshake, the client not connected,
    whatever the controller would answer. *)
Theorem auth_failures_use_up_retries
  (cfg : Config) (env : Env) (w : World) :
  always_auth env ->
  connected w = false ->
  connecting w = false ->
  retryCount w <= maxRetries ->
  let n := maxRetries + 1 - retryCount w in
  let w1 := run_actions cfg env (repeat call_connect n) w in
  trace w1 = trace w ++ repeat (handshake cfg) n /\
  retryCount w1 = maxRetries + 1 /\
  connected w1 = false /\
  connecting w1 = false /\
  forall env' : Env,
    exists w2,
      run env' (connect cfg) w1 = (Returned tt, w2) /\
      trace w2 = trace w1 /\
      connected w2 = false /\
      connecting w2 = true.
Proof.
  intros Hauth Hc Hg Hrc n w1.
  destruct (run_connects_auth cfg env Hauth n w Hc Hg)
    as (Htr & Hc1 & Hg1 & Hrc1); [subst n; lia |].
  fold w1 in Htr, Hc1, Hg1, Hrc1.
  split; [exact Htr |]. split; [subst n; lia |].
  split; [exact Hc1 |]. split; [exact Hg1 |].
  intros env'.
  destruct (run_connect_dead cfg env' w1) as (w2 & Hrun & Hg2 & _ & Hc2 & Htr2).
  { split; [subst n; lia | exact Hc1]. }
  exists w2. repeat split; assumption.
Qed.

Lemma auth_failures_use_up_retries_witness :
  let w1 := run_actions default_config wrong_password_env
              (repeat call_connect 11) fresh_client in
  retryCount w1 = 11 /\
  connected w1 = false /\
  exists w2,
    run (studio_env "Main" ["Main"]) (connect default_config) w1
    = (Returned tt, w2) /\
    trace w2 = trace w1 /\
    connected w2 = false.
Proof.
  intros w1.
  destruct (auth_failures_use_up_retries default_config wrong_password_env
              fresh_client)
    as (_ & Hrc & Hc & _ & Hlater).
  - intros sent. eexists. split; reflexivity.
  - reflexivity.
  - reflexivity.
  - unfold maxRetries. cbn. lia.
  - split; [exact Hrc |]. split; [exact Hc |].
    destruct (Hlater (studio_env "Main" ["Main"]))
      as (w2 & Hrun & Htr & Hc2 & _).
    exists w2. repeat split; assumption.
Defined.

(** ** What a program is limited to *)

Lemma only_bind {A B : Type} (allowed : Allowed) (p : Prog A)
  (f : A -> Prog B) :
  only allowed p -> (forall a, only allowed (f a)) -> only allowed (bind p f).
Proof.
  intros Hp Hf. induction p as [a | err | T e k IH |]; cbn in *; auto.
  destruct Hp as [He Hk]. split; auto.
Qed.

Lemma only_try_catch {A : Type} (allowed : Allowed) (p : Prog A)
  (handler : Js.Thrown -> Prog A) :
  only allowed p -> (forall err, only allowed (handler err)) ->
  only allowed (try_catch p handler).
Proof.
  intros Hp Hh. induction p as [a | err | T e k IH |]; cbn in *; auto.
  destruct Hp as [He Hk]. split; auto.
Qed.

Lemma only_try_finally {A : Type} (allowed : Allowed) (p : Prog A)
  (cleanup : Prog unit) :
  only allowed p -> only allowed cleanup ->
  only allowed (try_finally p cleanup).
Proof.
  intros Hp Hc. induction p as [a | err | T e k IH |]; cbn in *; auto.
  - apply only_bind; [exact Hc | intros; exact I].
  - apply only_bind; [exact Hc | intros; exact I].
  - destruct Hp as [He Hk]. split; auto.
Qed.

Ltac only_step :=
  match goal with
  | |- True => exact I
  | |- _ /\ _ => split
  | |- forall _, _ => intro
  | |- _ = true => reflexivity
  | |- only _ (bind _ _) => apply only_bind
  | |- only _ (try_catch _ _) => apply only_try_catch
  | |- only _ (try_finally _ _) => apply only_try_finally
  | |- only _ (if ?c then _ else _) => destruct c
  | |- only _ (match ?x with _ => _ end) => destruct x
  | |- only _ _ =>
      progress (unfold ensureConnected, getCurrentScene, getSceneList, call,
                  await, log, perform, serialize, ignore, fulfilled;
                cbn [only])
  end.

Lemma try_micNames_only (allowed : Allowed) (mute : bool)
  (names : list string) :
  (forall r, allowed _ (ObsCall r) = true) ->
  (forall line, allowed _ (StderrWrite line) = true) ->
  only allowed (try_micNames mute names).
Proof.
  intros Hcall Hlog. induction names as [| name rest IH]; cbn [try_micNames].
  - exact I.
  - repeat first [ exact IH | apply Hcall | apply Hlog | only_step ].
Qed.

Lemma operation_only (cfg : Config) (a : Action) :
  operation a = true -> only operation_effect (action_prog cfg a).
Proof.
  destruct a; intros H; try discriminate H; cbn [action_prog];
    unfold startStream, stopStream, startRecording, stopRecording, setScene,
      setMicMute, setSourceVisibility, startStream_body, stopStream_body,
      startRecording_body, stopRecording_body, setScene_body, setMicMute_body,
      setSourceVisibility_body, getStatus, isConnected;
    repeat first [ apply try_micNames_only; intros; reflexivity | only_step ].
Qed.

(** A field of the world that no allowed effect writes keeps its value. *)
Lemma run_only_keeps {A X : Type} (env : Env) (allowed : Allowed)
  (field : World -> X) (p : Prog A) :
  (forall T (e : clientE T) w,
     allowed T e = true ->
     field (issue e w) = field w /\
     forall x w', sync (env_random env) e w = Some (x, w') ->
                  field w' = field w) ->
  only allowed p ->
  forall w, field (snd (run env p w)) = field w.
Proof.
  intros Hkeep. induction p as [a | err | T e k IH |]; intros Hp w;
    cbn [run snd]; try reflexivity.
  destruct Hp as [He Hk]. destruct (Hkeep T e w He) as [Hissue Hsync].
  destruct (sync (env_random env) e w) as [[x w1] |].
  - rewrite IH by apply Hk. eapply Hsync. reflexivity.
  - destruct (settle env e (issue e w)) as [x |].
    + rewrite IH by apply Hk. exact Hissue.
    + exact Hissue.
Qed.

Ltac keeps_field :=
  intros ? e ? He; destruct e; try discriminate He;
  (split; [reflexivity |]); cbn [sync];
  intros ? ? Hs; try discriminate Hs; injection Hs as <- <-; reflexivity.

(** What an operation adds to the trace is requests. *)
Lemma run_operation_trace {A : Type} (env : Env) (p : Prog A) :
  only operation_effect p ->
  forall w, exists rs, trace (snd (run env p w)) = trace w ++ map EvCall rs.
Proof.
  induction p as [a | err | T e k IH |]; intros Hp w; cbn [run snd];
    try (exists []; rewrite app_nil_r; reflexivity).
  destruct Hp as [He Hk].
  assert (Hsync : forall x w1, sync (env_random env) e w = Some (x, w1) ->
                               trace w1 = trace w).
  { destruct e; try discriminate He; cbn [sync]; intros x w1 Hs;
      try discriminate Hs; injection Hs as <- <-; reflexivity. }
  assert (Hissue : exists rs, trace (issue e w) = trace w ++ map EvCall rs).
  { destruct e; try discriminate He; cbn [issue emit trace with_trace];
      try (exists []; rewrite app_nil_r; reflexivity).
    - exists [r]. reflexivity.
    - exists rs. reflexivity. }
  destruct (sync (env_random env) e w) as [[x w1] |].
  - destruct (IH x (Hk x) w1) as (rs & Htr). exists rs.
    rewrite Htr, (Hsync x w1 eq_refl). reflexivity.
  - destruct Hissue as (rs1 & Htr1).
    destruct (settle env e (issue e w)) as [x |].
    + destruct (IH x (Hk x) (issue e w)) as (rs & Htr). exists (rs1 ++ rs).
      rewrite Htr, Htr1, map_app, app_assoc. reflexivity.
    + exists rs1. exact Htr1.
Qed.

(** X7. The operations (the seven serialized ones, [getCurrentScene],
    [getSceneList], [getStatus], [isConnected]) leave [connected],
    [connecting], [retryCount] and the pending reconnect timers as they
    were, however their requests are answered, and add nothing but
    requests to the trace: a failed request does not mark the client
    disconnected. *)
Theorem operations_keep_connection_state
  (cfg : Config) (env : Env) (a : Action) (w : World) :
  operation a = true ->
  let w' := snd (run env (action_prog cfg a) w) in
  connected w' = connected w /\
  connecting w' = connecting w /\
  retryCount w' = retryCount w /\
  pendingReconnects w' = pendingReconnects w /\
  exists rs, trace w' = trace w ++ map EvCall rs.
Proof.
  intros Hop w'. pose proof (operation_only cfg a Hop) as Honly.
  subst w'.
  split; [apply (run_only_keeps env operation_effect connected);
            [keeps_field | exact Honly] |].
  split; [apply (run_only_keeps env operation_effect connecting);
            [keeps_field | exact Honly] |].
  split; [apply (run_only_keeps env operation_effect retryCount);
            [keeps_field | exact Honly] |].
  split; [apply (run_only_keeps env operation_effect pendingReconnects);
            [keeps_field | exact Honly] |].
  apply run_operation_trace. exact Honly.
Qed.

Lemma operations_keep_connection_state_witness :
  let w' := snd (run silent_env
                   (action_prog default_config (call_setScene "Main"))
                   connected_client) in
  connected w' = true /\
  retryCount w' = 0 /\
  exists rs, trace w' = trace connected_client ++ map EvCall rs.
Proof.
  intros w'.
  destruct (operations_keep_connection_state default_config silent_env
              (call_setScene "Main") connected_client eq_refl)
    as (Hc & _ & Hrc & _ & Htr).
  split; [exact Hc |]. split; [exact Hrc | exact Htr].
Defined.

(** ** One call after the other *)

Lemma run_queue_free_same {A : Type} (env : Env) (b : bool) (p : Prog A) :
  queue_free b p -> forall w, same_queue w (snd (run env p w)).
Proof.
  induction p as [a | err | T e k IH |]; intros Hp w; cbn [run snd];
    try apply same_queue_refl.
  destruct Hp as [He Hk].
  destruct (sync (env_random env) e w) as [[x w1] |] eqn:Hs.
  - eapply same_queue_trans; [| apply IH, Hk].
    eapply sync_same_queue; eassumption.
  - destruct (settle env e (issue e w)) as [x |]; cbn [snd].
    + eapply same_queue_trans; [apply (issue_same_queue e) | apply IH, Hk].
    + apply (issue_same_queue e).
Qed.

Lemma run_queue_free_settles {A : Type} (env : Env) (p : Prog A) :
  queue_free false p -> forall w, settles (fst (run env p w)).
Proof.
  induction p as [a | err | T e k IH |]; intros Hp w; cbn [run fst];
    try exact I; [| discriminate Hp].
  destruct Hp as [He Hk].
  destruct (sync (env_random env) e w) as [[x w1] |]; [apply IH, Hk |].
  destruct e; try discriminate He; cbn [settle]; apply IH, Hk.
Qed.

Lemma queue_ready_same (w w' : World) :
  same_queue w w' -> queue_ready w -> queue_ready w'.
Proof.
  unfold same_queue, queue_ready, idle, is_resolved.
  intros (Hq & Hr & Hn). rewrite Hq, Hr, Hn. auto.
Qed.

Lemma queue_ready_release (w w' : World) :
  queue_ready w ->
  same_queue (enqueue w) w' ->
  queue_ready (release (nextPromise w) w').
Proof.
  unfold same_queue, queue_ready, idle, is_resolved.
  intros (Hidle & Hlt & Hres) (Hq & Hr & Hn). world_simpl.
  rewrite Hq, Hr, Hn. cbn [existsb]. rewrite Nat.eqb_refl.
  split; [reflexivity |]. split; [lia |].
  intros p Hp. apply orb_true_iff in Hp as [Hp | Hp].
  - apply Nat.eqb_eq in Hp. lia.
  - specialize (Hres p Hp). lia.
Qed.

Lemma run_serialized_settles (cfg : Config) (env : Env) (a : Action)
  (w : World) :
  mutating a = true ->
  queue_ready w ->
  settles (fst (run env (action_prog cfg a) w)) /\
  queue_ready (snd (run env (action_prog cfg a) w)).
Proof.
  intros Hmut Hready. rewrite (action_prog_mutating cfg a Hmut).
  unfold ignore. rewrite run_bind, run_serialize by apply Hready.
  pose proof (run_queue_free_settles env (body_of cfg a)
                (body_queue_free cfg a) (enqueue w)) as Hsettles.
  pose proof (run_queue_free_same env false (body_of cfg a)
                (body_queue_free cfg a) (enqueue w)) as Hsame.
  destruct (run env (body_of cfg a) (enqueue w)) as [[r | err | |] w1];
    cbn [fst snd and_then run settles] in *;
    try contradiction;
    (split; [exact I | apply queue_ready_release; assumption]).
Qed.

Lemma run_reconnect_timer (cfg : Config) (env : Env) (w : World) :
  exists w', run env (reconnect_timer cfg) w = (Returned tt, w').
Proof.
  unfold reconnect_timer. rewrite run_try_catch.
  destruct (connect_returns_or_throws cfg env w)
    as (o & w' & Hrun & [-> | (err & ->)]);
    rewrite Hrun; cbn [run]; eexists; reflexivity.
Qed.

(** X8. Called when no serialized call is in progress, every method,
    event handler and timer callback settles (it returns or throws; it
    neither waits for the queue nor loops for ever) and leaves the queue
    ready for the next call. *)
Theorem methods_settle_in_turn
  (cfg : Config) (env : Env) (a : Action) (w : World) :
  queue_ready w ->
  settles (fst (run_action cfg env a w)) /\
  queue_ready (snd (run_action cfg env a w)).
Proof.
  intros Hready.
  assert (Hstrict : forall p : Prog unit,
             queue_free false p ->
             settles (fst (run env p w)) /\ queue_ready (snd (run env p w))).
  { intros p Hp. split; [apply run_queue_free_settles, Hp |].
    eapply queue_ready_same; [| exact Hready].
    eapply run_queue_free_same, Hp. }
  destruct (mutating a) eqn:Hmut.
  { replace (run_action cfg env a w) with (run env (action_prog cfg a) w)
      by (destruct a; try discriminate Hmut; reflexivity).
    apply run_serialized_settles; assumption. }
  destruct a; try discriminate Hmut; cbn [run_action action_prog].
  - destruct (connect_returns_or_throws cfg env w)
      as (o & w' & Hrun & Ho).
    pose proof (run_queue_free_same env true (connect cfg)
                  (connect_queue_free cfg) w) as Hsame.
    rewrite Hrun in *. cbn [fst snd] in *. split.
    + destruct Ho as [-> | (err & ->)]; exact I.
    + eapply queue_ready_same; eassumption.
  - apply Hstrict. unfold disconnect. repeat queue_free_step.
  - apply Hstrict. unfold ignore. repeat queue_free_step.
  - apply Hstrict. unfold ignore. repeat queue_free_step.
  - apply Hstrict. unfold ignore, getStatus, fulfilled.
    repeat queue_free_step.
  - apply Hstrict. unfold ignore, isConnected. repeat queue_free_step.
  - apply Hstrict. unfold on_ConnectionClosed, scheduleReconnect.
    repeat queue_free_step.
  - apply Hstrict. unfold on_ConnectionError. repeat queue_free_step.
  - destruct (pendingReconnects w) as [| n]; [split; [exact I | exact Hready] |].
    destruct (run_reconnect_timer cfg env (with_pendingReconnects n w))
      as (w' & Hrun).
    pose proof (run_queue_free_same env true (reconnect_timer cfg)
                  (other_queue_free cfg reconnect_timer_fires eq_refl)
                  (with_pendingReconnects n w)) as Hsame.
    rewrite Hrun in *. cbn [fst snd] in *. split; [exact I |].
    eapply queue_ready_same; [exact Hsame |]. exact Hready.
Qed.

Lemma methods_settle_in_turn_witness :
  settles (fst (run_action default_config silent_env call_startStream
                  fresh_client)) /\
  queue_ready (snd (run_action default_config silent_env call_startStream
                      fresh_client)).
Proof.
  apply (methods_settle_in_turn default_config silent_env call_startStream
           fresh_client).
  split; [reflexivity |]. split; [cbn; lia |].
  intros p Hp. cbn in Hp. apply orb_true_iff in Hp as [Hp | Hp];
    [| discriminate Hp].
  apply Nat.eqb_eq in Hp. subst p. cbn. lia.
Defined.

(** ** Reconnecting *)

Lemma connect_no_timer (cfg : Config) : only no_timer (connect cfg).
Proof.
  assert (Hattempt : only no_timer (connect_attempt cfg))
    by (unfold connect_attempt; repeat only_step).
  assert (Hloop : forall bound, only no_timer (connect_loop cfg bound)).
  { induction bound as [| bound IH]; cbn [connect_loop]; [exact I |].
    repeat first [ exact IH | exact Hattempt | only_step ]. }
  unfold connect. repeat first [ apply Hloop | only_step ].
Qed.

Lemma operation_no_timer (cfg : Config) (a : Action) :
  operation a = true -> only no_timer (action_prog cfg a).
Proof.
  intros Hop. pose proof (operation_only cfg a Hop) as Honly.
  induction (action_prog cfg a) as [x | err | T e k IH |]; cbn in *; auto.
  destruct Honly as [He Hk]. split; [| auto].
  destruct e; try discriminate He; reflexivity.
Qed.

(** X9. Only a [ConnectionClosed] event arms a reconnect timer, and only
    when no [connect] is marked in progress; a timer that fires is used
    up; no method, and no [ConnectionError] event, changes the number of
    pending timers. *)
Theorem reconnect_timer_sources
  (cfg : Config) (env : Env) (a : Action) (w : World) :
  pendingReconnects (snd (run_action cfg env a w))
  = match a with
    | ConnectionClosed =>
        if connecting w then pendingReconnects w
        else S (pendingReconnects w)
    | reconnect_timer_fires => pred (pendingReconnects w)
    | _ => pendingReconnects w
    end.
Proof.
  assert (Hkeep : forall (p : Prog unit) w0,
             only no_timer p ->
             pendingReconnects (snd (run env p w0)) = pendingReconnects w0).
  { intros p w0 Hp.
    apply (run_only_keeps env no_timer pendingReconnects);
      [keeps_field | exact Hp]. }
  destruct a; cbn [run_action];
    try (apply Hkeep, operation_no_timer; reflexivity).
  - apply Hkeep, connect_no_timer.
  - apply Hkeep. unfold action_prog, disconnect. repeat only_step.
  - unfold action_prog, on_ConnectionClosed, scheduleReconnect.
    cbn [bind perform run sync log]. world_simpl.
    destruct (connecting w); reflexivity.
  - apply Hkeep. unfold action_prog, on_ConnectionError. repeat only_step.
  - destruct (pendingReconnects w) as [| n] eqn:Hn; cbn [snd pred];
      [exact Hn |].
    unfold reconnect_timer.
    rewrite Hkeep; [reflexivity |].
    apply only_try_catch; [apply connect_no_timer | intros; exact I].
Qed.

(** X10. The callback of the reconnect timer never throws: whatever
    [connect] does, the rejection is swallowed. *)
Theorem reconnect_timer_never_throws
  (cfg : Config) (env : Env) (w : World) :
  exists w', run env (reconnect_timer cfg) w = (Returned tt, w').
Proof. exact (run_reconnect_timer cfg env w). Qed.

(** X11. A closed connection is re-established by the timer: after a
    [ConnectionClosed] event on a client with no [connect] in progress,
    retries left and no timer pending, the timer is armed for 3000 ms
    and, when it fires and the controller accepts the handshake, the
    client is connected again with [retryCount = 0] and no timer
    pending. *)
Theorem connection_closed_reconnects
  (cfg : Config) (env : Env) (w : World) (hello : Hello) :
  connecting w = false ->
  retryCount w <= maxRetries ->
  pendingReconnects w = 0 ->
  env_connect env (trace w ++ [EvSetTimeout 3000; handshake cfg])
  = inr hello ->
  let w' := run_actions cfg env [ConnectionClosed; reconnect_timer_fires] w in
  issued w w' = [EvSetTimeout 3000; handshake cfg] /\
  connected w' = true /\
  connecting w' = false /\
  retryCount w' = 0 /\
  pendingReconnects w' = 0.
Proof.
  intros Hg Hrc Hpending Hans w'. subst w'.
  cbn [run_actions fold_left run_action action_prog].
  unfold on_ConnectionClosed, scheduleReconnect.
  cbn [bind perform run sync log]. world_simpl. rewrite Hg.
  cbn [negb run perform sync snd]. world_simpl. rewrite Hpending.
  unfold reconnect_timer. rewrite run_try_catch.
  unfold connect. cbn [bind perform run sync]. world_simpl. rewrite Hg.
  cbn [orb bind perform run sync].
  change (maxRetries + 2) with (S (maxRetries + 1)).
  cbn [connect_loop bind perform run sync]. world_simpl.
  replace (retryCount w <=? maxRetries)%nat with true
    by (symmetry; apply Nat.leb_le; exact Hrc).
  rewrite run_bind.
  match goal with
  | |- context [run env (connect_attempt cfg) ?w0] =>
      destruct (run_connect_attempt_ok cfg env w0 hello)
        as (w1 & Hrun & Htr & Hc1 & Hg1 & Hrc1)
  end.
  { world_simpl. rewrite <- app_assoc. exact Hans. }
  rewrite Hrun. cbn [and_then run snd].
  split.
  - apply issued_app. rewrite Htr. world_simpl. rewrite <- app_assoc.
    reflexivity.
  - repeat split; try assumption.
    pose proof (run_only_keeps env no_timer pendingReconnects
                  (connect_attempt cfg)) as Hkeep.
    match type of Hrun with
    | run env _ ?w0 = _ =>
        specialize (Hkeep ltac:(keeps_field)
                      ltac:(unfold connect_attempt; repeat only_step) w0)
    end.
    rewrite Hrun in Hkeep. exact Hkeep.
Qed.

Lemma connection_closed_reconnects_witness :
  let w' := run_actions default_config (studio_env "Main" ["Main"])
              [ConnectionClosed; reconnect_timer_fires] connected_client in
  issued connected_client w' = [EvSetTimeout 3000; handshake default_config] /\
  connected w' = true /\
  connecting w' = false /\
  retryCount w' = 0 /\
  pendingReconnects w' = 0.
Proof.
  apply (connection_closed_reconnects default_config
           (studio_env "Main" ["Main"]) connected_client
           {| obsWebSocketVersion := "5.1.0"; negotiatedRpcVersion := 1 |});
    try reflexivity.
  unfold maxRetries. cbn. lia.
Defined.

(** ** Disconnecting *)

(** X12. [disconnect] on a client that is not connected does nothing.
    On a connected client it asks the transport to disconnect; if that
    succeeds the client is marked disconnected and a second [disconnect]
    does nothing; if it fails the error is thrown and the client stays
    marked connected. *)
Theorem disconnect_outcome (env : Env) (w : World) :
  (connected w = false -> run env disconnect w = (Returned tt, w)) /\
  (connected w = true ->
   exists w',
     issued w w' = [EvDisconnect] /\
     match env_disconnect env (trace w ++ [EvDisconnect]) with
     | inr _ =>
         run env disconnect w = (Returned tt, w') /\
         connected w' = false /\
         run env disconnect w' = (Returned tt, w')
     | inl err =>
         run env disconnect w = (Thrown err, w') /\
         connected w' = true
     end).
Proof.
  unfold disconnect. split; intros Hc;
    cbn [bind perform await run sync issue settle]; rewrite Hc;
    cbn [bind perform await run sync issue settle].
  - reflexivity.
  - world_simpl.
    destruct (env_disconnect env (trace w ++ [EvDisconnect])) as [err | []];
      cbn [run bind perform sync log]; world_simpl; eexists; split.
    + shelve.
    + split; [reflexivity | exact Hc].
    + shelve.
    + world_simpl. split; [reflexivity |]. split; reflexivity.
    Unshelve.
    * apply issued_app. reflexivity.
    * apply issued_app. reflexivity.
Qed.

Lemma disconnect_outcome_witness :
  exists w',
    run silent_env disconnect connected_client = (Returned tt, w') /\
    connected w' = false /\
    issued connected_client w' = [EvDisconnect].
Proof.
  destruct (disconnect_outcome silent_env connected_client) as [_ Hon].
  destruct (Hon eq_refl) as (w' & Hsent & Hrun & Hc & _).
  exists w'. repeat split; assumption.
Defined.

(** ** Operations on a client that is not connected *)

Lemma idle_release (w w' : World) :
  commandQueue w' = nextPromise w ->
  idle (release (nextPromise w) w').
Proof.
  intros Hq. unfold idle, is_resolved. world_simpl. rewrite Hq.
  cbn [existsb]. rewrite Nat.eqb_refl. reflexivity.
Qed.

Lemma run_serialized_not_connected {A : Type} (env : Env) (rest : Prog A)
  (w : World) :
  connected w = false ->
  idle w ->
  run env (ignore (serialize (ensureConnected ;; rest))) w
  = (Thrown not_connected_error, release (nextPromise w) (enqueue w)).
Proof.
  intros Hc Hidle. unfold ignore.
  rewrite run_bind, run_serialize by exact Hidle.
  rewrite run_bind, run_ensureConnected. world_simpl. rewrite Hc.
  reflexivity.
Qed.

(** X13. On a client that is not connected, with the queue idle, each of
    the seven serialized operations and of [getCurrentScene],
    [getSceneList] throws the NOT_CONNECTED error without sending
    anything, and the queue is idle again afterwards. *)
Theorem operations_need_connection
  (cfg : Config) (env : Env) (a : Action) (w : World) :
  needs_connection a = true ->
  connected w = false ->
  idle w ->
  exists w',
    run env (action_prog cfg a) w = (Thrown not_connected_error, w') /\
    trace w' = trace w /\
    connected w' = false /\
    idle w'.
Proof.
  intros Hneeds Hc Hidle.
  assert (Hser : forall rest : Prog OpResult,
             exists w',
               run env (ignore (serialize (ensureConnected ;; rest))) w
               = (Thrown not_connected_error, w') /\
               trace w' = trace w /\ connected w' = false /\ idle w').
  { intros rest. eexists.
    split; [apply run_serialized_not_connected; assumption |].
    split; [reflexivity |]. split; [exact Hc |].
    apply idle_release. reflexivity. }
  assert (Hquery : forall (B : Type) (rest : Prog B),
             exists w',
               run env (ignore (ensureConnected ;; rest)) w
               = (Thrown not_connected_error, w') /\
               trace w' = trace w /\ connected w' = false /\ idle w').
  { intros B rest. exists w. unfold ignore.
    rewrite !run_bind, run_ensureConnected, Hc.
    repeat split; assumption. }
  destruct a; try discriminate Hneeds; cbn [action_prog];
    first [ apply Hser | apply Hquery ].
Qed.

Lemma operations_need_connection_witness :
  exists w',
    run (studio_env "Main" ["Main"])
      (action_prog default_config (call_setMicMute true None)) fresh_client
    = (Thrown not_connected_error, w') /\
    trace w' = trace fresh_client /\
    connected w' = false /\
    idle w'.
Proof.
  apply (operations_need_connection default_config
           (studio_env "Main" ["Main"]) (call_setMicMute true None)
           fresh_client);
    reflexivity.
Defined.

(** ** Starting and stopping outputs *)

Lemma arr_includes_In (x : string) (arr : list string) :
  Js.arr_includes x arr = true <-> In x arr.
Proof.
  unfold Js.arr_includes. rewrite existsb_exists. split.
  - intros (y & Hin & Heq). apply String.eqb_eq in Heq. subst y. exact Hin.
  - intros Hin. exists x. split; [exact Hin | apply String.eqb_refl].
Qed.

(** X14. Starting or stopping is idempotent: on a connected client with
    the queue idle, when the controller reports the output already in
    the requested state, [startStream] (safe mode off), [stopStream],
    [startRecording] and [stopRecording] return [success = true] without
    an output path, having sent the status request only. *)
Theorem output_already_in_state
  (cfg : Config) (env : Env) (w : World) (t : Toggle) (status : OutputStatus) :
  (t = start_stream -> SAFE_MODE cfg = false) ->
  connected w = true ->
  idle w ->
  status_answer env (trace w ++ [EvCall (toggle_status t)]) t = inr status ->
  outputActive status = toggle_wanted t ->
  exists r w',
    run env (toggle_op cfg t) w = (Returned r, w') /\
    success r = true /\
    outputPath r = None /\
    issued w w' = [EvCall (toggle_status t)] /\
    idle w'.
Proof.
  intros Hsafe Hconn Hidle Hans Hactive.
  destruct t; cbn [toggle_op toggle_status status_answer toggle_wanted] in *;
    unfold startStream, stopStream, startRecording, stopRecording;
    rewrite run_serialize by exact Hidle;
    unfold startStream_body, stopStream_body, startRecording_body,
      stopRecording_body;
    try rewrite (Hsafe eq_refl);
    repeat run_step; rewrite Hconn; cbn [and_then];
    repeat run_step; rewrite Hans; cbn [and_then]; rewrite Hactive;
    cbn [negb run];
    do 2 eexists; (split; [reflexivity |]);
    (split; [reflexivity |]); (split; [reflexivity |]);
    (split; [apply issued_app; reflexivity | apply idle_release; reflexivity]).
Qed.

Lemma output_already_in_state_witness :
  exists r w',
    run (studio_env "Main" ["Main"]) stopRecording connected_client
    = (Returned r, w') /\
    success r = true /\
    outputPath r = None /\
    issued connected_client w' = [EvCall GetRecordStatus] /\
    idle w'.
Proof.
  apply (output_already_in_state default_config (studio_env "Main" ["Main"])
           connected_client stop_recording
           {| outputActive := false; outputTimecode := EmptyString |});
    try reflexivity.
  discriminate.
Defined.

(** X15. When the controller reports the output not in the requested
    state, [startStream] (safe mode off), [stopStream], [startRecording]
    and [stopRecording] send the switching request right after the
    status request; if the controller rejects it the error is thrown,
    otherwise the result has [success = true], with the path the
    controller reported for [stopRecording] and no path for the others.
    The queue is idle afterwards either way. *)
Theorem output_switched
  (cfg : Config) (env : Env) (w : World) (t : Toggle) (status : OutputStatus) :
  (t = start_stream -> SAFE_MODE cfg = false) ->
  connected w = true ->
  idle w ->
  status_answer env (trace w ++ [EvCall (toggle_status t)]) t = inr status ->
  outputActive status = negb (toggle_wanted t) ->
  let sent := trace w ++ [EvCall (toggle_status t); EvCall (toggle_request t)] in
  exists o w',
    run env (toggle_op cfg t) w = (o, w') /\
    trace w' = sent /\
    idle w' /\
    match env_call env sent (toggle_request t) with
    | inl err => o = Thrown err
    | inr _ =>
        exists r,
          o = Returned r /\ success r = true /\
          outputPath r = stopped_path env sent t
    end.
Proof.
  intros Hsafe Hconn Hidle Hans Hactive.
  destruct t;
    cbn [toggle_op toggle_status toggle_request status_answer toggle_wanted
         stopped_path negb] in *;
    unfold startStream, stopStream, startRecording, stopRecording;
    rewrite run_serialize by exact Hidle;
    unfold startStream_body, stopStream_body, startRecording_body,
      stopRecording_body;
    try rewrite (Hsafe eq_refl);
    repeat run_step; rewrite Hconn; cbn [and_then];
    repeat run_step; rewrite Hans; cbn [and_then]; rewrite Hactive;
    cbn [negb]; repeat run_step; rewrite <- app_assoc; cbn [app];
    match goal with
    | |- context [env_call env ?sent ?r] =>
        destruct (env_call env sent r) as [err | v]
    end;
    cbn [and_then]; repeat run_step;
    do 2 eexists; (split; [reflexivity |]); world_simpl;
    rewrite <- ?app_assoc;
    (split; [reflexivity |]);
    (split; [apply idle_release; reflexivity |]);
    try reflexivity;
    (eexists; split; [reflexivity |]; split; reflexivity).
Qed.

Lemma output_switched_witness :
  exists r w',
    run (studio_env "Main" ["Main"]) startRecording connected_client
    = (Returned r, w') /\
    success r = true /\
    trace w' = [EvCall GetRecordStatus; EvCall StartRecord].
Proof.
  destruct (output_switched default_config (studio_env "Main" ["Main"])
              connected_client start_recording
              {| outputActive := false; outputTimecode := EmptyString |})
    as (o & w' & Hrun & Htr & _ & r & -> & Hok & _);
    try reflexivity.
  - discriminate.
  - exists r, w'. repeat split; assumption.
Defined.

(** X16. With safe mode on and the current scene in the allow-list,
    [startStream] goes on to the stream status: if the stream is active
    it returns "Stream already active" after the two queries; otherwise it
    sends [StartStream] and returns "Stream started", or throws the error
    of the controller. *)
Theorem startStream_approved_scene
  (cfg : Config) (env : Env) (w : World) (scene : string)
  (status : OutputStatus) :
  SAFE_MODE cfg = true ->
  connected w = true ->
  idle w ->
  env_call env (trace w ++ [EvCall GetCurrentProgramScene])
    GetCurrentProgramScene = inr scene ->
  In scene (SAFE_SCENES cfg) ->
  env_call env
    (trace w ++ [EvCall GetCurrentProgramScene; EvCall GetStreamStatus])
    GetStreamStatus = inr status ->
  let asked := [EvCall GetCurrentProgramScene; EvCall GetStreamStatus] in
  exists o w',
    run env (startStream cfg) w = (o, w') /\
    idle w' /\
    if outputActive status
    then o = Returned (result true "Stream already active") /\
         issued w w' = asked
    else issued w w' = asked ++ [EvCall StartStream] /\
         match env_call env (trace w ++ asked ++ [EvCall StartStream])
                 StartStream with
         | inl err => o = Thrown err
         | inr _ => o = Returned (result true "Stream started")
         end.
Proof.
  intros Hsafe Hconn Hidle Hscene Hin Hstatus asked. subst asked.
  cbn [app]. apply arr_includes_In in Hin.
  unfold startStream. rewrite run_serialize by exact Hidle.
  unfold startStream_body, getCurrentScene. rewrite Hsafe.
  repeat run_step. rewrite Hconn. cbn [and_then].
  repeat run_step. rewrite Hconn. cbn [and_then].
  repeat run_step. rewrite Hscene. cbn [and_then].
  rewrite Hin. cbn [and_then negb run].
  repeat run_step. rewrite <- app_assoc. cbn [app]. rewrite Hstatus.
  cbn [and_then].
  destruct (outputActive status); cbn [run].
  - do 2 eexists. split; [reflexivity |].
    split; [apply idle_release; reflexivity |].
    split; [reflexivity |]. apply issued_app. world_simpl.
    rewrite <- app_assoc. reflexivity.
  - repeat run_step. rewrite <- !app_assoc. cbn [app].
    destruct (env_call env _ StartStream) as [err | []];
      cbn [and_then]; repeat run_step;
      do 2 eexists; (split; [reflexivity |]);
      (split; [apply idle_release; reflexivity |]);
      (split; [apply issued_app; world_simpl; rewrite <- ?app_assoc;
               reflexivity | reflexivity]).
Qed.

Lemma startStream_approved_scene_witness :
  exists w',
    run (studio_env "Main" ["StartingSoon"; "Main"; "BRB"])
      (startStream default_config) connected_client
    = (Returned (result true "Stream started"), w') /\
    issued connected_client w'
    = [EvCall GetCurrentProgramScene; EvCall GetStreamStatus;
       EvCall StartStream].
Proof.
  destruct (startStream_approved_scene default_config
              (studio_env "Main" ["StartingSoon"; "Main"; "BRB"])
              connected_client "Main"
              {| outputActive := false; outputTimecode := EmptyString |})
    as (o & w' & Hrun & _ & Hsent & Ho);
    try reflexivity.
  - right. left. reflexivity.
  - cbn in Ho. subst o. exists w'. split; assumption.
Defined.

(** ** Switching to a scene the controller has *)

(** X17. [setScene name], [name] being in the scene list the controller
    returns, sends [SetCurrentProgramScene name] right after
    [GetSceneList] and returns [success = true] with the message
    "Switched to scene: name"; if the controller rejects the request, the
    error is thrown. *)
Theorem setScene_known_scene
  (env : Env) (w : World) (name : string) (scenes : list SceneEntry) :
  connected w = true ->
  idle w ->
  env_call env (trace w ++ [EvCall GetSceneList]) GetSceneList = inr scenes ->
  In name (scene_names scenes) ->
  let sent :=
    trace w ++ [EvCall GetSceneList; EvCall (SetCurrentProgramScene name)] in
  exists o w',
    run env (setScene name) w = (o, w') /\
    trace w' = sent /\
    idle w' /\
    match env_call env sent (SetCurrentProgramScene name) with
    | inl err => o = Thrown err
    | inr _ => o = Returned (result true ("Switched to scene: " ++ name))
    end.
Proof.
  intros Hconn Hidle Hlist Hin sent. subst sent.
  apply arr_includes_In in Hin.
  unfold setScene. rewrite run_serialize by exact Hidle.
  unfold setScene_body, getSceneList.
  repeat run_step. rewrite Hconn. cbn [and_then].
  repeat run_step. rewrite Hconn. cbn [and_then].
  repeat run_step. rewrite Hlist. cbn [and_then run].
  rewrite Hin. cbn [and_then negb].
  repeat run_step. rewrite <- app_assoc. cbn [app].
  destruct (env_call env _ (SetCurrentProgramScene name)) as [err | []];
    cbn [and_then]; repeat run_step;
    do 2 eexists; (split; [reflexivity |]); world_simpl;
    rewrite <- ?app_assoc;
    (split; [reflexivity |]);
    (split; [apply idle_release; reflexivity | reflexivity]).
Qed.

Lemma setScene_known_scene_witness :
  exists w',
    run (studio_env "Main" ["StartingSoon"; "Main"]) (setScene "StartingSoon")
      connected_client
    = (Returned (result true "Switched to scene: StartingSoon"), w') /\
    trace w' = [EvCall GetSceneList;
                EvCall (SetCurrentProgramScene "StartingSoon")].
Proof.
  destruct (setScene_known_scene
              (studio_env "Main" ["StartingSoon"; "Main"]) connected_client
              "StartingSoon" [{| sceneName := "StartingSoon" |};
                              {| sceneName := "Main" |}])
    as (o & w' & Hrun & Htr & _ & Ho);
    try reflexivity.
  - left. reflexivity.
  - cbn in Ho. subst o. exists w'. split; assumption.
Defined.

(** ** Showing and hiding a source *)

(** X18. When the controller accepts both requests,
    [setSourceVisibility] sends [GetSceneItemId] and then
    [SetSceneItemEnabled] with the identifier the controller returned,
    and returns [success = true] with a message naming the source, the
    scene and the new state. *)
Theorem setSourceVisibility_switches
  (env : Env) (w : World) (sceneName sourceName : string) (visible : bool)
  (id : Z) :
  connected w = true ->
  idle w ->
  env_call env (trace w ++ [EvCall (GetSceneItemId sceneName sourceName)])
    (GetSceneItemId sceneName sourceName) = inr id ->
  visibility_failure env w sceneName sourceName visible = None ->
  exists w',
    run env (setSourceVisibility sceneName sourceName visible) w
    = (Returned (result true (sourceName ++ " in " ++ sceneName ++ " set to "
                              ++ (if visible then "visible" else "hidden"))),
       w') /\
    issued w w' = [EvCall (GetSceneItemId sceneName sourceName);
                   EvCall (SetSceneItemEnabled sceneName id visible)] /\
    idle w'.
Proof.
  intros Hconn Hidle Hid Hok.
  unfold setSourceVisibility. rewrite run_serialize by exact Hidle.
  unfold setSourceVisibility_body.
  repeat run_step. rewrite Hconn. cbn [and_then].
  repeat run_step.
  unfold visibility_failure in Hok. rewrite Hid in *. cbn [and_then].
  repeat run_step.
  destruct (env_call env _ (SetSceneItemEnabled sceneName id visible))
    as [err | []]; [discriminate Hok |].
  cbn [and_then]. repeat run_step.
  eexists. split; [reflexivity |].
  split; [apply issued_app; world_simpl; rewrite <- ?app_assoc; reflexivity |].
  apply idle_release. reflexivity.
Qed.

Lemma setSourceVisibility_switches_witness :
  exists w',
    run (answering_env 7) (setSourceVisibility "Main" "Webcam" false)
      connected_client
    = (Returned (result true "Webcam in Main set to hidden"), w') /\
    issued connected_client w'
    = [EvCall (GetSceneItemId "Main" "Webcam");
       EvCall (SetSceneItemEnabled "Main" 7 false)] /\
    idle w'.
Proof.
  apply (setSourceVisibility_switches (answering_env 7) connected_client
           "Main" "Webcam" false 7);
    reflexivity.
Defined.

(** ** Calls that do not go through the queue *)

(** X19. In every state the event loop can reach, a call that does not
    go through [serialize] ([connect], [disconnect], [getCurrentScene],
    [getSceneList], [getStatus], [isConnected], the event handlers, the
    timer callback) never waits at the gate of the queue, and can be
    resumed whatever the serialized calls are doing. *)
Theorem unserialized_calls_never_wait
  (cfg : Config) (random : nat -> Q) (s : System) :
  reachable cfg random s ->
  forall j a t,
    nth_error (tasks s) j = Some (a, t) ->
    mutating a = false ->
    at_gate t = false /\ resumable t (world s).
Proof.
  intros Hreach j a t Hj Hmut.
  destruct (reachable_invariant cfg random s Hreach)
    as ((q0 & _ & Hchain) & _).
  destruct (chain_update _ _ _ _ Hchain j a t Hj)
    as [(_ & Hfree & _) | (Hmut' & _)]; [| congruence].
  destruct t as [o | T e k]; cbn [at_gate resumable]; [split; auto |].
  destruct Hfree as [He _].
  destruct e; try discriminate He; split; try reflexivity; intros x; exact I.
Qed.

Lemma unserialized_calls_never_wait_witness :
  at_gate (task_at status_during_call 0) = true /\
  calls status_during_call = map (fun r => (1, r)) status_requests /\
  resumable (task_at status_during_call 1) (world status_during_call).
Proof.
  split; [reflexivity |]. split; [reflexivity |].
  apply (unserialized_calls_never_wait default_config no_jitter
           status_during_call) with (j := 1) (a := call_getStatus).
  - apply reach_step with (s := one_call).
    + apply reach_step with (s := start connected_client).
      * apply reach_start. split; [reflexivity |].
        split; [cbn; lia |].
        intros p. unfold is_resolved. cbn.
        destruct p; [lia | discriminate].
      * apply step_spawn. exact I.
    + apply step_spawn. exact I.
  - reflexivity.
  - reflexivity.
Defined.

(** ** Calls of connect in the event loop *)

Lemma only_weaken {A : Type} (allowed allowed' : Allowed) (p : Prog A) :
  (forall T (e : clientE T), allowed T e = true -> allowed' T e = true) ->
  only allowed p -> only allowed' p.
Proof.
  intros Hsub. induction p as [a | err | T e k IH |]; cbn; auto.
  intros [He Hk]. split; auto.
Qed.

Lemma advance_only {A : Type} (random : nat -> Q) (allowed : Allowed)
  (p : Prog A) :
  only allowed p ->
  forall w, continuation (only allowed) (fst (advance random p w)).
Proof.
  induction p as [a | err | T e k IH |]; intros Hp w; cbn [advance];
    try exact I.
  destruct Hp as [He Hk].
  destruct (sync random e w) as [[x w1] |]; [apply IH, Hk | exact Hk].
Qed.

Lemma advance_no_flag {A : Type} (random : nat -> Q) (p : Prog A) :
  only no_flag p ->
  forall w, connecting (snd (advance random p w)) = connecting w.
Proof.
  induction p as [a | err | T e k IH |]; intros Hp w; cbn [advance snd];
    try reflexivity.
  destruct Hp as [He Hk].
  destruct (sync random e w) as [[x w1] |] eqn:Hs.
  - rewrite IH by apply Hk.
    destruct e; try discriminate He; cbn [sync] in Hs;
      try discriminate Hs; injection Hs as <- <-; reflexivity.
  - destruct e; reflexivity.
Qed.

Lemma flagged_weaken {A : Type} (p : Prog A)
  (ret ret' : bool -> A -> Prop) (thr thr' : bool -> Prop) :
  (forall b a, ret b a -> ret' b a) ->
  (forall b, thr b -> thr' b) ->
  forall flag, flagged flag p ret thr -> flagged flag p ret' thr'.
Proof.
  intros Hret Hthr. induction p as [a | err | T e k IH |]; intros flag;
    cbn [flagged]; auto.
  intros [Hs Hk]. split; auto.
Qed.

Lemma flagged_bind {A B : Type} (p : Prog A) (f : A -> Prog B)
  (ret : bool -> B -> Prop) (thr : bool -> Prop) :
  forall flag,
    flagged flag p (fun b a => flagged b (f a) ret thr) thr ->
    flagged flag (bind p f) ret thr.
Proof.
  induction p as [a | err | T e k IH |]; intros flag; cbn [flagged bind];
    auto.
  intros [Hs Hk]. split; auto.
Qed.

Lemma flagged_try_catch {A : Type} (p : Prog A)
  (handler : Js.Thrown -> Prog A)
  (ret : bool -> A -> Prop) (thr : bool -> Prop) :
  forall flag,
    flagged flag p ret (fun b => forall err, flagged b (handler err) ret thr) ->
    flagged flag (try_catch p handler) ret thr.
Proof.
  induction p as [a | err | T e k IH |]; intros flag;
    cbn [flagged try_catch]; auto.
  intros [Hs Hk]. split; auto.
Qed.

Lemma sync_suspends {T : Type} (random : nat -> Q) (e : clientE T)
  (w : World) :
  sync random e w = None -> suspends e = true.
Proof. destruct e; cbn; intros H; try discriminate H; reflexivity. Qed.

Lemma advance_flagged {A : Type} (random : nat -> Q) (p : Prog A)
  (ret : bool -> A -> Prop) (thr : bool -> Prop) :
  forall w,
    flagged (connecting w) p ret thr ->
    in_flight (fst (advance random p w)) = true ->
    connecting (snd (advance random p w)) = true /\
    continuation (fun q => flagged true q ret thr) (fst (advance random p w)).
Proof.
  induction p as [a | err | T e k IH |]; intros w Hp; cbn [advance fst snd];
    try discriminate.
  destruct Hp as [Hs Hk].
  destruct (sync random e w) as [[x w1] |] eqn:Hsync.
  - apply IH. specialize (Hk x).
    replace (connecting w1)
      with (match writes_connecting e with
            | Some b => b
            | None => connecting w
            end); [exact Hk |].
    destruct e; cbn [sync] in Hsync; try discriminate Hsync;
      injection Hsync as <- <-; reflexivity.
  - intros _. cbn [fst snd continuation].
    pose proof (Hs (sync_suspends random e w Hsync)) as Hflag.
    split.
    + destruct e; exact Hflag.
    + intros x. specialize (Hk x).
      destruct e; cbn [sync writes_connecting] in *;
        try discriminate Hsync; rewrite Hflag in Hk; exact Hk.
Qed.

Ltac flagged_step :=
  match goal with
  | |- True => exact I
  | |- _ /\ _ => split
  | |- false = true -> _ => let H := fresh in intro H; discriminate H
  | |- _ -> true = true => intros _; reflexivity
  | |- true = true => reflexivity
  | |- forall _, _ => intro
  | |- flagged _ (bind _ _) _ _ => apply flagged_bind
  | |- flagged _ (try_catch _ _) _ _ => apply flagged_try_catch
  | |- flagged _ (if ?c then _ else _) _ _ => destruct c
  | |- flagged _ (match ?x with _ => _ end) _ _ => destruct x
  | |- flagged _ _ _ _ =>
      progress (unfold await, log, perform;
                cbn [flagged suspends writes_connecting])
  end.

Lemma connect_attempt_flagged (cfg : Config) :
  flagged true (connect_attempt cfg)
    (fun b flow => match flow with
                   | Continue => b = true
                   | Return _ => True
                   end)
    (fun _ => True).
Proof. unfold connect_attempt. repeat flagged_step. Qed.

Lemma connect_loop_flagged (cfg : Config) (bound : nat) :
  flagged true (connect_loop cfg bound) (fun _ _ => True) (fun _ => True).
Proof.
  induction bound as [| bound IH]; cbn [connect_loop]; [exact I |].
  repeat flagged_step.
  eapply flagged_weaken; [| | apply connect_attempt_flagged]; auto.
  intros b [| v] Hb; cbn [flagged]; [subst b; exact IH | exact I].
Qed.

Lemma connect_flagged (cfg : Config) (flag : bool) :
  flagged flag (connect cfg) (fun _ _ => True) (fun _ => True).
Proof.
  unfold connect. repeat first [ apply connect_loop_flagged | flagged_step ].
Qed.

Lemma connects_flagged (cfg : Config) (a : Action) (flag : bool) :
  connects a = true ->
  flagged flag (action_prog cfg a) (fun _ _ => True) (fun _ => True).
Proof.
  destruct a; intros H; try discriminate H; cbn [action_prog].
  - apply connect_flagged.
  - unfold reconnect_timer. apply flagged_try_catch.
    eapply flagged_weaken; [| | apply connect_flagged]; auto.
Qed.

(** While a call of [connect] holds [connecting], another returns at
    once. *)
Lemma advance_connects_busy (cfg : Config) (random : nat -> Q) (a : Action)
  (w : World) :
  connects a = true ->
  connecting w = true ->
  advance random (action_prog cfg a) w = (Finished (Returned tt), w).
Proof.
  destruct a; intros H Hg; try discriminate H; cbn [action_prog];
    unfold reconnect_timer, connect;
    cbn [try_catch bind perform advance sync]; rewrite Hg, orb_true_r;
    reflexivity.
Qed.

Lemma others_no_flag (cfg : Config) (a : Action) :
  connects a = false -> only no_flag (action_prog cfg a).
Proof.
  intros Hc. destruct (operation a) eqn:Hop.
  - eapply only_weaken; [| apply operation_only; exact Hop].
    intros T e He. destruct e; try discriminate He; reflexivity.
  - destruct a; try discriminate Hc; try discriminate Hop; cbn [action_prog];
      unfold disconnect, on_ConnectionClosed, on_ConnectionError,
        scheduleReconnect;
      repeat only_step.
Qed.

Lemma before_action_connecting (a : Action) (w : World) :
  connecting (before_action a w) = connecting w.
Proof. destruct a; reflexivity. Qed.

Lemma connect_invariant_start (w : World) : connect_invariant (start w).
Proof.
  unfold connect_invariant. cbn [start tasks]. split; [| split].
  - intros [| n] a t H; discriminate H.
  - intros [| n] a t H; discriminate H.
  - intros [| n] j a b t u H; discriminate H.
Qed.

Lemma nth_error_snoc {A : Type} (l : list A) (x y : A) (i : nat) :
  nth_error (l ++ [x]) i = Some y ->
  nth_error l i = Some y \/ (i = length l /\ y = x).
Proof.
  intros H. destruct (Nat.lt_ge_cases i (length l)) as [Hlt | Hge].
  - left. rewrite nth_error_app1 in H by exact Hlt. exact H.
  - right. rewrite nth_error_app2 in H by exact Hge.
    destruct (i - length l) as [| n] eqn:Hn; cbn in H.
    + injection H as <-. split; [lia | reflexivity].
    + destruct n; discriminate H.
Qed.

Lemma connect_invariant_spawn (cfg : Config) (random : nat -> Q)
  (a : Action) (s : System) :
  connect_invariant s -> connect_invariant (spawn cfg random a s).
Proof.
  intros (Hothers & Hholds & Hone). unfold spawn.
  set (w0 := before_action a (world s)).
  pose proof (before_action_connecting a (world s)) as Hg0. fold w0 in Hg0.
  destruct (advance random (action_prog cfg a) w0) as [t w'] eqn:Hadv.
  unfold connect_invariant. cbn [world tasks].
  destruct (connects a) eqn:Hca.
  - (* a call of connect *)
    destruct (connecting (world s)) eqn:Hbusy.
    + rewrite (advance_connects_busy cfg random a w0 Hca Hg0) in Hadv.
      injection Hadv as <- <-.
      split; [| split].
      * intros i b u Hi Hb.
        destruct (nth_error_snoc _ _ _ _ Hi) as [Hold | [_ Heq]];
          [eapply Hothers; eassumption |].
        injection Heq as -> ->. exact I.
      * intros i b u Hi Hb Hu.
        destruct (nth_error_snoc _ _ _ _ Hi) as [Hold | [_ Heq]].
        -- split; [exact Hg0 |]. eapply Hholds; eassumption.
        -- injection Heq as -> ->. discriminate Hu.
      * intros i j b c u v Hi Hj Hb Hc Hu Hv.
        destruct (nth_error_snoc _ _ _ _ Hi) as [Hi' | [_ Heq]];
          [| injection Heq as -> ->; discriminate Hu].
        destruct (nth_error_snoc _ _ _ _ Hj) as [Hj' | [_ Heq]];
          [| injection Heq as -> ->; discriminate Hv].
        eapply Hone; eassumption.
    + assert (Hnone : forall i b u,
                 nth_error (tasks s) i = Some (b, u) ->
                 connects b = true -> in_flight u = true -> False).
      { intros i b u Hi Hb Hu.
        destruct (Hholds i b u Hi Hb Hu) as [Hg _]. discriminate Hg. }
      pose proof (advance_flagged random (action_prog cfg a)
                    (fun _ _ => True) (fun _ => True) w0) as Hnew.
      rewrite Hadv in Hnew. cbn [fst snd] in Hnew.
      specialize (Hnew (connects_flagged cfg a _ Hca)).
      split; [| split].
      * intros i b u Hi Hb.
        destruct (nth_error_snoc _ _ _ _ Hi) as [Hold | [_ Heq]];
          [eapply Hothers; eassumption |].
        injection Heq as -> ->. congruence.
      * intros i b u Hi Hb Hu.
        destruct (nth_error_snoc _ _ _ _ Hi) as [Hold | [_ Heq]];
          [exfalso; eapply Hnone; eassumption |].
        injection Heq as -> ->. apply Hnew, Hu.
      * intros i j b c u v Hi Hj Hb Hc Hu Hv.
        destruct (nth_error_snoc _ _ _ _ Hi) as [Hi' | [-> _]];
          [exfalso; eapply Hnone; eassumption |].
        destruct (nth_error_snoc _ _ _ _ Hj) as [Hj' | [-> _]];
          [exfalso; eapply Hnone; eassumption |].
        reflexivity.
  - (* another call *)
    pose proof (others_no_flag cfg a Hca) as Hfree.
    pose proof (advance_no_flag random _ Hfree w0) as Hg.
    pose proof (advance_only random no_flag _ Hfree w0) as Hcont.
    rewrite Hadv in Hg, Hcont. cbn [fst snd] in Hg, Hcont.
    split; [| split].
    + intros i b u Hi Hb.
      destruct (nth_error_snoc _ _ _ _ Hi) as [Hold | [_ Heq]];
        [eapply Hothers; eassumption |].
      injection Heq as -> ->. exact Hcont.
    + intros i b u Hi Hb Hu.
      destruct (nth_error_snoc _ _ _ _ Hi) as [Hold | [_ Heq]].
      * rewrite Hg, Hg0. eapply Hholds; eassumption.
      * injection Heq as -> ->. congruence.
    + intros i j b c u v Hi Hj Hb Hc Hu Hv.
      destruct (nth_error_snoc _ _ _ _ Hi) as [Hi' | [_ Heq]];
        [| injection Heq as -> ->; congruence].
      destruct (nth_error_snoc _ _ _ _ Hj) as [Hj' | [_ Heq]];
        [| injection Heq as -> ->; congruence].
      eapply Hone; eassumption.
Qed.

Lemma connect_invariant_resume (random : nat -> Q) (i : nat) (a : Action)
  (t : Task unit) (p : Prog unit) (s : System) :
  connect_invariant s ->
  nth_error (tasks s) i = Some (a, t) ->
  next t (world s) p ->
  connect_invariant (resume random i a p s).
Proof.
  intros (Hothers & Hholds & Hone) Hi Hnext. unfold resume.
  destruct (advance random p (world s)) as [t' w'] eqn:Hadv.
  unfold connect_invariant. cbn [world tasks].
  destruct t as [o | T e k]; [contradiction Hnext |].
  destruct Hnext as (x & _ & ->).
  assert (Hat : forall j b u,
             nth_error (update i (a, t') (tasks s)) j = Some (b, u) ->
             (j = i /\ b = a /\ u = t') \/
             (j <> i /\ nth_error (tasks s) j = Some (b, u))).
  { intros j b u Hj. destruct (Nat.eq_dec i j) as [<- | Hne].
    - rewrite (nth_error_update_same _ _ (a, t') _ Hi) in Hj.
      injection Hj as <- <-. left. auto.
    - rewrite nth_error_update_other in Hj by exact Hne. right. auto. }
  destruct (connects a) eqn:Hca.
  - destruct (Hholds i a _ Hi Hca eq_refl) as [Hg Hk].
    cbn [continuation] in Hk.
    assert (Halone : forall j b u,
               j <> i -> nth_error (tasks s) j = Some (b, u) ->
               connects b = true -> in_flight u = true -> False).
    { intros j b u Hne Hj Hb Hu. apply Hne.
      eapply (Hone j i); try eassumption. reflexivity. }
    pose proof (advance_flagged random (k x) (fun _ _ => True)
                  (fun _ => True) (world s)) as Hnew.
    rewrite Hadv, Hg in Hnew. cbn [fst snd] in Hnew.
    specialize (Hnew (Hk x)).
    split; [| split].
    + intros j b u Hj Hb.
      destruct (Hat j b u Hj) as [(-> & -> & ->) | (Hne & Hj')];
        [congruence | eapply Hothers; eassumption].
    + intros j b u Hj Hb Hu.
      destruct (Hat j b u Hj) as [(-> & -> & ->) | (Hne & Hj')];
        [apply Hnew, Hu | exfalso; eapply Halone; eassumption].
    + intros j1 j2 b c u v Hj1 Hj2 Hb Hc Hu Hv.
      destruct (Hat j1 b u Hj1) as [(-> & -> & ->) | (Hne1 & Hj1')];
        [| exfalso; eapply Halone; eassumption].
      destruct (Hat j2 c v Hj2) as [(-> & -> & ->) | (Hne2 & Hj2')];
        [reflexivity | exfalso; eapply Halone; eassumption].
  - pose proof (Hothers i a _ Hi Hca) as Hk. cbn [continuation] in Hk.
    pose proof (advance_no_flag random _ (Hk x) (world s)) as Hg.
    pose proof (advance_only random no_flag _ (Hk x) (world s)) as Hcont.
    rewrite Hadv in Hg, Hcont. cbn [fst snd] in Hg, Hcont.
    split; [| split].
    + intros j b u Hj Hb.
      destruct (Hat j b u Hj) as [(-> & -> & ->) | (Hne & Hj')];
        [exact Hcont | eapply Hothers; eassumption].
    + intros j b u Hj Hb Hu.
      destruct (Hat j b u Hj) as [(-> & -> & ->) | (Hne & Hj')];
        [congruence |].
      rewrite Hg. eapply Hholds; eassumption.
    + intros j1 j2 b c u v Hj1 Hj2 Hb Hc Hu Hv.
      destruct (Hat j1 b u Hj1) as [(-> & -> & ->) | (Hne1 & Hj1')];
        [congruence |].
      destruct (Hat j2 c v Hj2) as [(-> & -> & ->) | (Hne2 & Hj2')];
        [congruence |].
      eapply Hone; eassumption.
Qed.

Lemma reachable_connect_invariant (cfg : Config) (random : nat -> Q)
  (s : System) :
  reachable cfg random s -> connect_invariant s.
Proof.
  induction 1 as [w Hw | s s' _ IH Hstep].
  - apply connect_invariant_start.
  - destruct Hstep as [a s _ | i a t p s Hi Hnext].
    + apply connect_invariant_spawn. assumption.
    + eapply connect_invariant_resume; eassumption.
Qed.

(** X20. In every state the event loop can reach, at most one call of
    [connect] (made by a caller or by a reconnect timer) is in flight, and
    while one is, [connecting] is [true]: a second call returns at once,
    so two retry loops never run side by side. *)
Theorem connect_calls_never_overlap
  (cfg : Config) (random : nat -> Q) (s : System) :
  reachable cfg random s ->
  (forall i j a b t u,
     nth_error (tasks s) i = Some (a, t) ->
     nth_error (tasks s) j = Some (b, u) ->
     connects a = true -> connects b = true ->
     in_flight t = true -> in_flight u = true ->
     i = j) /\
  (forall i a t,
     nth_error (tasks s) i = Some (a, t) ->
     connects a = true -> in_flight t = true ->
     connecting (world s) = true).
Proof.
  intros Hreach.
  destruct (reachable_connect_invariant cfg random s Hreach)
    as (_ & Hholds & Hone).
  split; [exact Hone |].
  intros i a t Hi Ha Ht. apply (Hholds i a t Hi Ha Ht).
Qed.

Lemma connect_calls_never_overlap_witness :
  in_flight (task_at connecting_twice 0) = true /\
  task_at connecting_twice 1 = Finished (Returned tt) /\
  handshakes_of (trace (world connecting_twice)) = 1 /\
  connecting (world connecting_twice) = true.
Proof.
  destruct (connect_calls_never_overlap default_config no_jitter
              connecting_twice) as [_ Hholds].
  - apply reach_step
      with (s := spawn default_config no_jitter call_connect
                   (start fresh_client)).
    + apply reach_step with (s := start fresh_client).
      * apply reach_start. split; [reflexivity |].
        split; [cbn; lia |].
        intros p. unfold is_resolved. cbn.
        destruct p; [lia | discriminate].
      * apply step_spawn. exact I.
    + apply step_spawn. exact I.
  - split; [reflexivity |]. split; [reflexivity |]. split; [reflexivity |].
    apply (Hholds 0 call_connect (task_at connecting_twice 0));
      reflexivity.
Defined.

(** ** The HTTP client *)

Lemma clear_fresh_timer (n : Node.Net) (ms : Z) :
  fresh_timers n ->
  filter (fun t => negb (fst t =? Node.nextTimer n)%nat)
    ((Node.nextTimer n, ms) :: Node.timers n)
  = Node.timers n.
Proof.
  intros Hfresh. cbn [filter fst]. rewrite Nat.eqb_refl. cbn [negb].
  apply forallb_filter_id, forallb_forall. intros t Ht.
  apply negb_true_iff, Nat.eqb_neq. specialize (Hfresh t Ht). lia.
Qed.

Lemma fresh_timers_requested (request : Node.Request) (n : Node.Net) :
  fresh_timers n -> fresh_timers (requested request n).
Proof. intros H t Ht. specialize (H t Ht). cbn. lia. Qed.

Lemma run_fetchWithTimeout (h : Node.Host) (n : Node.Net) (url : string)
  (options : Node.Options) :
  fresh_timers n ->
  let request := {| Node.url := url; Node.options := options |} in
  Client.fetchWithTimeout url options h n
  = (fetched url (Node.fetch_answer h (Node.sent n ++ [request]) request),
     requested request n).
Proof.
  intros Hfresh request.
  unfold Client.fetchWithTimeout, Node.bind, Node.try_finally,
    Node.try_catch, Node.setTimeout, Node.fetch, Node.clearTimeout,
    Node.ret, Node.throw, fetched, requested, timeout_error.
  cbn [Node.sent Node.timers Node.nextTimer Node.written].
  fold request.
  destruct (Node.fetch_answer h (Node.sent n ++ [request]) request)
    as [error | response]; [destruct (Client.is_AbortError error) |];
    cbn [Node.sent Node.timers Node.nextTimer Node.written];
    rewrite (clear_fresh_timer n Client.TIMEOUT_MS Hfresh); reflexivity.
Qed.

Lemma run_isAvailable (h : Node.Host) (n : Node.Net) :
  fresh_timers n ->
  Client.isAvailable h n
  = (inr (healthy h (Node.sent n)), requested health_request n).
Proof.
  intros Hfresh. unfold Client.isAvailable, Node.try_catch, Node.bind.
  rewrite run_fetchWithTimeout by exact Hfresh.
  change {| Node.url := Client.BASE_URL ++ "/health";
            Node.options := Node.no_options |} with health_request.
  unfold healthy, fetched.
  destruct (Node.fetch_answer h (Node.sent n ++ [health_request])
              health_request) as [error | response]; reflexivity.
Qed.

Lemma run_checkConnection (h : Node.Host) (n : Node.Net) :
  fresh_timers n ->
  Client.checkConnection h n
  = (if healthy h (Node.sent n) then inr tt else inl not_running_error,
     requested health_request n).
Proof.
  intros Hfresh. unfold Client.checkConnection, Node.bind.
  rewrite run_isAvailable by exact Hfresh.
  destruct (healthy h (Node.sent n)); reflexivity.
Qed.

Lemma fresh_timers_logged (line : string) (n : Node.Net) :
  fresh_timers n -> fresh_timers (logged line n).
Proof. intros H. exact H. Qed.

Lemma run_get (h : Node.Host) (n : Node.Net) (path : string) :
  fresh_timers n ->
  Client.get path h n
  = if healthy h (Node.sent n)
    then (outcome "GET" path Node.json (answer_to h n (get_request path)),
          exchanged ("GET " ++ path) (get_request path) n)
    else (inl not_running_error, requested health_request n).
Proof.
  intros Hfresh. unfold Client.get, Node.bind.
  rewrite run_checkConnection by exact Hfresh.
  destruct (healthy h (Node.sent n)); [| reflexivity].
  unfold Client.log, Node.stderr_write.
  fold (logged ("[chromadon-mcp] " ++ ("GET " ++ path) ++ Js.newline)
          (requested health_request n)).
  rewrite run_fetchWithTimeout
    by apply fresh_timers_logged, fresh_timers_requested, Hfresh.
  unfold answer_to, exchanged, get_request.
  cbn [Node.sent logged requested Node.url]. rewrite <- app_assoc.
  cbn [app].
  match goal with
  | |- context [fetched ?u ?a] => destruct (fetched u a) as [error | response]
  end; [reflexivity |].
  unfold outcome, Node.await, Node.throw.
  destruct (Node.ok response); cbn [negb]; [reflexivity |].
  destruct (Node.text response); reflexivity.
Qed.

Lemma run_post (h : Node.Host) (n : Node.Net) (path : string)
  (body : Json.value) :
  fresh_timers n ->
  Client.post path body h n
  = if healthy h (Node.sent n)
    then (outcome "POST" path Node.json
            (answer_to h n (post_request h path body)),
          exchanged ("POST " ++ path) (post_request h path body) n)
    else (inl not_running_error, requested health_request n).
Proof.
  intros Hfresh. unfold Client.post, Node.bind.
  rewrite run_checkConnection by exact Hfresh.
  destruct (healthy h (Node.sent n)); [| reflexivity].
  unfold Client.log, Node.stderr_write, Node.builtin.
  fold (logged ("[chromadon-mcp] " ++ ("POST " ++ path) ++ Js.newline)
          (requested health_request n)).
  rewrite run_fetchWithTimeout
    by apply fresh_timers_logged, fresh_timers_requested, Hfresh.
  unfold answer_to, exchanged, post_request.
  cbn [Node.sent logged requested Node.url]. rewrite <- app_assoc.
  cbn [app].
  match goal with
  | |- context [fetched ?u ?a] => destruct (fetched u a) as [error | response]
  end; [reflexivity |].
  unfold outcome, Node.await, Node.throw.
  destruct (Node.ok response); cbn [negb]; [reflexivity |].
  destruct (Node.text response); reflexivity.
Qed.

Lemma run_getBinary (h : Node.Host) (n : Node.Net) (path : string) :
  fresh_timers n ->
  Client.getBinary path h n
  = if healthy h (Node.sent n)
    then (outcome "GET" path Node.arrayBuffer
            (answer_to h n (get_request path)),
          exchanged ("GET (binary) " ++ path) (get_request path) n)
    else (inl not_running_error, requested health_request n).
Proof.
  intros Hfresh. unfold Client.getBinary, Node.bind.
  rewrite run_checkConnection by exact Hfresh.
  destruct (healthy h (Node.sent n)); [| reflexivity].
  unfold Client.log, Node.stderr_write.
  fold (logged ("[chromadon-mcp] " ++ ("GET (binary) " ++ path) ++ Js.newline)
          (requested health_request n)).
  rewrite run_fetchWithTimeout
    by apply fresh_timers_logged, fresh_timers_requested, Hfresh.
  unfold answer_to, exchanged, get_request.
  cbn [Node.sent logged requested Node.url]. rewrite <- app_assoc.
  cbn [app].
  match goal with
  | |- context [fetched ?u ?a] => destruct (fetched u a) as [error | response]
  end; [reflexivity |].
  unfold outcome, Node.await, Node.throw.
  destruct (Node.ok response); cbn [negb]; [reflexivity |].
  destruct (Node.text response); reflexivity.
Qed.

(** X21. [isAvailable] never throws: it makes the one request for
    [/health], and returns whether the server answered it with a success
    status, [false] when the request failed or timed out; the timer of
    the request is cleared. *)
Theorem isAvailable_never_throws (h : Node.Host) (n : Node.Net) :
  fresh_timers n ->
  Client.isAvailable h n
  = (inr (healthy h (Node.sent n)), requested health_request n).
Proof. exact (run_isAvailable h n). Qed.

Lemma isAvailable_never_throws_witness :
  Client.isAvailable down_host Node.offline
  = (inr false, requested health_request Node.offline).
Proof.
  apply (isAvailable_never_throws down_host Node.offline).
  intros t [].
Defined.

(** X22. When the health check fails, [get], [post] and [getBinary]
    throw the error that tells to start the Desktop app, and the request
    itself is never made: the health check is the only request sent. *)
Theorem requests_need_desktop
  (h : Node.Host) (n : Node.Net) (path : string) (body : Json.value) :
  fresh_timers n ->
  healthy h (Node.sent n) = false ->
  Client.get path h n = (inl not_running_error, requested health_request n) /\
  Client.post path body h n
  = (inl not_running_error, requested health_request n) /\
  Client.getBinary path h n
  = (inl not_running_error, requested health_request n).
Proof.
  intros Hfresh Hdown.
  rewrite run_get, run_post, run_getBinary by exact Hfresh.
  rewrite Hdown. repeat split.
Qed.

Lemma requests_need_desktop_witness :
  Client.post "/tabs/close" (Json.Obj [("id", Json.Number 3)]) down_host
    Node.offline
  = (inl not_running_error, requested health_request Node.offline).
Proof.
  apply (requests_need_desktop down_host Node.offline "/tabs/close"
           (Json.Obj [("id", Json.Number 3)])).
  - intros t [].
  - reflexivity.
Defined.

(** X23. When the health check succeeds, [get], [post] and [getBinary]
    write their log line and make one request after the health check,
    [post] with the method POST, the JSON content type and the serialized
    body (no body when the argument is left out).  A request that failed
    is thrown as it is, an aborted one as the timed-out error that names
    the URL; an answer with a failure status is thrown as
    "VERB path failed (status): text"; otherwise the result is the body
    read as JSON, or as bytes for [getBinary]. *)
Theorem request_outcomes
  (h : Node.Host) (n : Node.Net) (path : string) (body : Json.value) :
  fresh_timers n ->
  healthy h (Node.sent n) = true ->
  Client.get path h n
  = (outcome "GET" path Node.json (answer_to h n (get_request path)),
     exchanged ("GET " ++ path) (get_request path) n) /\
  Client.post path body h n
  = (outcome "POST" path Node.json
       (answer_to h n (post_request h path body)),
     exchanged ("POST " ++ path) (post_request h path body) n) /\
  Client.getBinary path h n
  = (outcome "GET" path Node.arrayBuffer (answer_to h n (get_request path)),
     exchanged ("GET (binary) " ++ path) (get_request path) n).
Proof.
  intros Hfresh Hup.
  rewrite run_get, run_post, run_getBinary by exact Hfresh.
  rewrite Hup. repeat split.
Qed.

Lemma request_outcomes_witness :
  fst (Client.get "/tabs" (answering_host 503) Node.offline)
  = inl (Node.new_Error "GET /tabs failed (503): Service Unavailable").
Proof.
  destruct (request_outcomes (answering_host 503) Node.offline "/tabs"
              Json.Undefined) as (Hget & _).
  - intros t [].
  - reflexivity.
  - rewrite Hget. reflexivity.
Defined.

(** ** The tools *)

(** *** Timers *)

Lemma tidy_ret {A : Type} (a : A) : tidy (Node.ret a).
Proof. intros h n H. split; [exact H | reflexivity]. Qed.

Lemma tidy_throw {A : Type} (error : Node.Thrown) : tidy (@Node.throw A error).
Proof. intros h n H. split; [exact H | reflexivity]. Qed.

Lemma tidy_await {A : Type} (p : Node.Host -> Node.Settled A) :
  tidy (Node.await p).
Proof. intros h n H. split; [exact H | reflexivity]. Qed.

Lemma tidy_builtin {A : Type} (f : Node.Host -> A) : tidy (Node.builtin f).
Proof. intros h n H. split; [exact H | reflexivity]. Qed.

Lemma tidy_stderr_write (line : string) : tidy (Node.stderr_write line).
Proof. intros h n H. split; [exact H | reflexivity]. Qed.

Lemma tidy_bind {A B : Type} (m : Node.M A) (f : A -> Node.M B) :
  tidy m -> (forall a, tidy (f a)) -> tidy (Node.bind m f).
Proof.
  intros Hm Hf h n Hfresh. unfold Node.bind.
  destruct (Hm h n Hfresh) as [Hfresh1 Hsame1].
  destruct (m h n) as [[error | a] n1]; cbn [snd] in *; [auto |].
  destruct (Hf a h n1 Hfresh1) as [Hfresh2 Hsame2].
  split; [exact Hfresh2 | congruence].
Qed.

Lemma tidy_try_catch {A : Type} (m : Node.M A)
  (handler : Node.Thrown -> Node.M A) :
  tidy m -> (forall error, tidy (handler error)) ->
  tidy (Node.try_catch m handler).
Proof.
  intros Hm Hh h n Hfresh. unfold Node.try_catch.
  destruct (Hm h n Hfresh) as [Hfresh1 Hsame1].
  destruct (m h n) as [[error | a] n1]; cbn [snd] in *; [| auto].
  destruct (Hh error h n1 Hfresh1) as [Hfresh2 Hsame2].
  split; [exact Hfresh2 | congruence].
Qed.

Lemma tidy_fetchWithTimeout (url : string) (options : Node.Options) :
  tidy (Client.fetchWithTimeout url options).
Proof.
  intros h n Hfresh. rewrite run_fetchWithTimeout by exact Hfresh.
  split; [apply fresh_timers_requested, Hfresh | reflexivity].
Qed.

Lemma tidy_checkConnection : tidy Client.checkConnection.
Proof.
  intros h n Hfresh. rewrite run_checkConnection by exact Hfresh.
  split; [apply fresh_timers_requested, Hfresh | reflexivity].
Qed.

Lemma tidy_read {A : Type} (verb path : string)
  (read : Node.Response -> Node.Settled A) (response : Node.Response) :
  tidy (if negb (Node.ok response)
        then Node.bind (Node.await (fun _ => Node.text response))
               (fun text =>
                  Node.throw
                    (Node.new_Error
                       (verb ++ " " ++ path ++ " failed ("
                        ++ Js.show_int (Node.status response) ++ "): "
                        ++ text)))
        else Node.await (fun _ => read response)).
Proof.
  destruct (negb (Node.ok response)).
  - apply tidy_bind; [apply tidy_await | intros text; apply tidy_throw].
  - apply tidy_await.
Qed.

Lemma tidy_get (path : string) : tidy (Client.get path).
Proof.
  unfold Client.get, Client.log.
  apply tidy_bind; [apply tidy_checkConnection | intros _].
  apply tidy_bind; [apply tidy_stderr_write | intros _].
  apply tidy_bind; [apply tidy_fetchWithTimeout | intros response].
  apply (tidy_read "GET").
Qed.

Lemma tidy_post (path : string) (body : Json.value) :
  tidy (Client.post path body).
Proof.
  unfold Client.post, Client.log.
  apply tidy_bind; [apply tidy_checkConnection | intros _].
  apply tidy_bind; [apply tidy_stderr_write | intros _].
  apply tidy_bind; [apply tidy_builtin | intros serialized].
  apply tidy_bind; [apply tidy_fetchWithTimeout | intros response].
  apply (tidy_read "POST").
Qed.

Lemma tidy_getBinary (path : string) : tidy (Client.getBinary path).
Proof.
  unfold Client.getBinary, Client.log.
  apply tidy_bind; [apply tidy_checkConnection | intros _].
  apply tidy_bind; [apply tidy_stderr_write | intros _].
  apply tidy_bind; [apply tidy_fetchWithTimeout | intros response].
  apply (tidy_read "GET").
Qed.

Lemma tidy_stringified (request : Node.M Json.value) :
  tidy request -> tidy (stringified request).
Proof.
  intros H. unfold stringified.
  apply tidy_bind; [exact H | intros result].
  apply tidy_bind; [apply tidy_builtin | intros text; apply tidy_ret].
Qed.

Lemma tidy_processScreenshot (pngBuffer : Node.Buffer) :
  tidy (Screenshot.processScreenshot pngBuffer).
Proof.
  unfold Screenshot.processScreenshot.
  apply tidy_bind; [apply tidy_await | intros metadata].
  apply tidy_bind.
  - destruct (_ || _).
    + apply tidy_bind; [apply tidy_await | intros resized].
      apply tidy_bind; [apply tidy_stderr_write | intros _; apply tidy_ret].
    + apply tidy_ret.
  - intros outputBuffer.
    apply tidy_bind; [apply tidy_builtin | intros encoded; apply tidy_ret].
Qed.

Ltac tidy_handler :=
  repeat match goal with
         | |- tidy (if ?c then _ else _) => destruct c
         | |- tidy (Node.bind _ _) => apply tidy_bind; [| intro]
         | |- tidy (Node.try_catch _ _) => apply tidy_try_catch; [| intro]
         | |- tidy (stringified _) => apply tidy_stringified
         | |- tidy (Client.get _) => apply tidy_get
         | |- tidy (Client.post _ _) => apply tidy_post
         | |- tidy (Client.getBinary _) => apply tidy_getBinary
         | |- tidy (Screenshot.processScreenshot _) =>
             apply tidy_processScreenshot
         | |- tidy (Node.builtin _) => apply tidy_builtin
         | |- tidy (Node.ret _) => apply tidy_ret
         end.

Lemma tidy_ObservationJs_handle (name : string) (args : Json.object) :
  tidy (ObservationJs.handle name args).
Proof. unfold ObservationJs.handle. tidy_handler. Qed.

Lemma tidy_Tabs_handle (name : string) (args : Json.object) :
  tidy (Tabs.handle name args).
Proof. unfold Tabs.handle. tidy_handler. Qed.

Lemma tidy_Interaction_handle (name : string) (args : Json.object) :
  tidy (Interaction.handle name args).
Proof. unfold Interaction.handle. tidy_handler. Qed.

Lemma tidy_SystemTools_handle (name : string) (args : Json.object) :
  tidy (SystemTools.handle name args).
Proof. unfold SystemTools.handle. tidy_handler. Qed.

Lemma tidy_or_else (first second : Node.M (option string)) :
  tidy first -> tidy second -> tidy (Registry.or_else first second).
Proof.
  intros H1 H2. unfold Registry.or_else.
  apply tidy_bind; [exact H1 | intros [text |]];
    [apply tidy_ret | exact H2].
Qed.

Lemma tidy_handleToolCall (name : string) (args : Json.object) :
  tidy (Registry.handleToolCall name args).
Proof.
  unfold Registry.handleToolCall.
  apply tidy_try_catch.
  - apply tidy_bind; [apply tidy_ObservationJs_handle |].
    intros [blocks |]; [apply tidy_ret |].
    apply tidy_bind.
    + apply tidy_or_else; [apply tidy_Tabs_handle |].
      apply tidy_or_else;
        [apply tidy_Interaction_handle | apply tidy_SystemTools_handle].
    + intros [text |]; apply tidy_ret.
  - intros error.
    apply tidy_bind; [apply tidy_stderr_write | intros _; apply tidy_ret].
Qed.

(** *** Dispatch *)

Lemma not_in_eqb (name tool : string) (tools : list string) :
  ~ In name tools -> In tool tools -> String.eqb name tool = false.
Proof.
  intros Hnot Hin. apply String.eqb_neq. intros ->. contradiction.
Qed.

Ltac other_tool Hnot :=
  repeat match goal with
         | |- context [String.eqb ?name ?tool] =>
             rewrite (not_in_eqb name tool _ Hnot) by (cbn; tauto)
         end;
  reflexivity.

Lemma ObservationJs_handle_other (name : string) (args : Json.object)
  (h : Node.Host) (n : Node.Net) :
  ~ In name ObservationJs.tool_names ->
  ObservationJs.handle name args h n = (inr None, n).
Proof. intros Hnot. unfold ObservationJs.handle. other_tool Hnot. Qed.

Lemma Tabs_handle_other (name : string) (args : Json.object)
  (h : Node.Host) (n : Node.Net) :
  ~ In name Tabs.tool_names -> Tabs.handle name args h n = (inr None, n).
Proof. intros Hnot. unfold Tabs.handle. other_tool Hnot. Qed.

Lemma Interaction_handle_other (name : string) (args : Json.object)
  (h : Node.Host) (n : Node.Net) :
  ~ In name Interaction.tool_names ->
  Interaction.handle name args h n = (inr None, n).
Proof. intros Hnot. unfold Interaction.handle. other_tool Hnot. Qed.

Lemma SystemTools_handle_other (name : string) (args : Json.object)
  (h : Node.Host) (n : Node.Net) :
  ~ In name SystemTools.tool_names ->
  SystemTools.handle name args h n = (inr None, n).
Proof. intros Hnot. unfold SystemTools.handle. other_tool Hnot. Qed.

(** *** Without the Desktop app *)

Section Down.

Variables (h : Node.Host) (n : Node.Net).
Hypothesis Hfresh : fresh_timers n.
Hypothesis Hdown : healthy h (Node.sent n) = false.

Lemma down_get (path : string) :
  Client.get path h n = (inl not_running_error, requested health_request n).
Proof. rewrite run_get by exact Hfresh. rewrite Hdown. reflexivity. Qed.

Lemma down_post (path : string) (body : Json.value) :
  Client.post path body h n
  = (inl not_running_error, requested health_request n).
Proof. rewrite run_post by exact Hfresh. rewrite Hdown. reflexivity. Qed.

Lemma down_getBinary (path : string) :
  Client.getBinary path h n
  = (inl not_running_error, requested health_request n).
Proof. rewrite run_getBinary by exact Hfresh. rewrite Hdown. reflexivity. Qed.

Ltac known_tool :=
  repeat match goal with
         | |- context [String.eqb ?a ?b] =>
             let v := eval vm_compute in (String.eqb a b) in
             change (String.eqb a b) with v
         end;
  cbv beta iota;
  unfold stringified, Node.bind, Node.builtin;
  repeat match goal with
         | |- context [if ?c then _ else _] => destruct c
         end;
  rewrite ?down_get, ?down_post, ?down_getBinary; reflexivity.

Lemma ObservationJs_handle_down (name : string) (args : Json.object) :
  In name ObservationJs.tool_names ->
  ObservationJs.handle name args h n
  = (inl not_running_error, requested health_request n).
Proof.
  intros Hin. unfold ObservationJs.handle.
  cbn in Hin. destruct Hin as [<- | [<- | [<- | []]]]; known_tool.
Qed.

Lemma Tabs_handle_down (name : string) (args : Json.object) :
  In name Tabs.tool_names ->
  Tabs.handle name args h n
  = (inl not_running_error, requested health_request n).
Proof.
  intros Hin. unfold Tabs.handle.
  cbn in Hin. destruct Hin as [<- | [<- | [<- | [<- | [<- | []]]]]];
    known_tool.
Qed.

Lemma Interaction_handle_down (name : string) (args : Json.object) :
  In name Interaction.tool_names ->
  Interaction.handle name args h n
  = (inl not_running_error, requested health_request n).
Proof.
  intros Hin. unfold Interaction.handle.
  cbn in Hin.
  destruct Hin as [<- | [<- | [<- | [<- | [<- | [<- | []]]]]]]; known_tool.
Qed.

Lemma SystemTools_upload_down (args : Json.object) :
  SystemTools.handle "upload_file" args h n
  = (inl not_running_error, requested health_request n).
Proof. unfold SystemTools.handle. known_tool. Qed.

Lemma SystemTools_health_down (args : Json.object) :
  SystemTools.handle "health_check" args h n
  = (inr (Some (Node.JSON_pretty h (unreachable_report not_running_error))),
     requested health_request n).
Proof.
  unfold SystemTools.handle.
  change (String.eqb "health_check" "health_check") with true. cbv beta iota.
  unfold Node.try_catch, stringified, Node.bind.
  rewrite down_get. reflexivity.
Qed.

End Down.

(** X24. [handleToolCall] never throws, whatever the tool, the arguments
    and the answers of the server: an error of a handler is caught and
    comes back as a result. *)
Theorem tool_calls_never_throw
  (name : string) (args : Json.object) (h : Node.Host) (n : Node.Net) :
  exists result n',
    Registry.handleToolCall name args h n = (inr result, n').
Proof.
  unfold Registry.handleToolCall, Node.try_catch.
  match goal with
  | |- context [match ?m h n with _ => _ end] =>
      destruct (m h n) as [[error | result] n1]
  end.
  - unfold Node.bind, Node.stderr_write, Node.ret. do 2 eexists. reflexivity.
  - do 2 eexists. reflexivity.
Qed.

(** X25. A tool call leaves no timer behind: every request it makes, the
    health checks included, has its timeout cleared, however the request
    ends. *)
Theorem tool_calls_leave_no_timer
  (name : string) (args : Json.object) (h : Node.Host) (n : Node.Net) :
  fresh_timers n ->
  Node.timers (snd (Registry.handleToolCall name args h n)) = Node.timers n /\
  fresh_timers (snd (Registry.handleToolCall name args h n)).
Proof.
  intros Hfresh.
  destruct (tidy_handleToolCall name args h n Hfresh) as [H1 H2].
  split; assumption.
Qed.

Lemma tool_calls_leave_no_timer_witness :
  Node.timers
    (snd (Registry.handleToolCall "list_tabs" [] (answering_host 200)
            Node.offline))
  = [].
Proof.
  apply (tool_calls_leave_no_timer "list_tabs" [] (answering_host 200)
           Node.offline).
  intros t [].
Defined.

(** X26. A name that is not in [TOOLS] makes no request and writes
    nothing: [handleToolCall] returns the error result
    "Unknown tool: name". *)
Theorem unknown_tool_reported
  (name : string) (args : Json.object) (h : Node.Host) (n : Node.Net) :
  ~ In name Registry.TOOLS ->
  Registry.handleToolCall name args h n = (inr (unknown_tool_result name), n).
Proof.
  intros Hnot. unfold Registry.TOOLS in Hnot.
  rewrite !in_app_iff in Hnot.
  unfold Registry.handleToolCall, Registry.or_else, Node.try_catch, Node.bind.
  rewrite ObservationJs_handle_other by tauto.
  rewrite Tabs_handle_other by tauto.
  rewrite Interaction_handle_other by tauto.
  rewrite SystemTools_handle_other by tauto.
  reflexivity.
Qed.

Lemma unknown_tool_reported_witness :
  Registry.handleToolCall "reload_tab" [] down_host Node.offline
  = (inr (unknown_tool_result "reload_tab"), Node.offline).
Proof.
  apply (unknown_tool_reported "reload_tab" [] down_host Node.offline).
  cbn. intros H.
  repeat (destruct H as [H | H]; [discriminate H |]). exact H.
Defined.

(** X27. When the health check fails, a call of any tool of [TOOLS] makes
    that one request and no other.  [health_check] reports the server
    unreachable, with the error message and a hint, as an ordinary
    result; every other tool returns the error result that tells to start
    the Desktop app, and the error is logged under the name of the
    tool. *)
Theorem tools_need_desktop
  (name : string) (args : Json.object) (h : Node.Host) (n : Node.Net) :
  fresh_timers n ->
  healthy h (Node.sent n) = false ->
  In name Registry.TOOLS ->
  Registry.handleToolCall name args h n
  = if String.eqb name "health_check"
    then (inr {| Registry.content :=
                   [text_block
                      (Node.JSON_pretty h
                         (unreachable_report not_running_error))];
                 Registry.isError := None |},
          requested health_request n)
    else (inr (error_result (Node.message_of not_running_error)),
          logged (error_line name (Node.message_of not_running_error))
            (requested health_request n)).
Proof.
  intros Hfresh Hdown Hin. unfold Registry.TOOLS in Hin.
  unfold Registry.handleToolCall, Registry.or_else, Node.try_catch, Node.bind.
  destruct (in_dec string_dec name ObservationJs.tool_names) as [Ho | Ho].
  { rewrite (ObservationJs_handle_down h n Hfresh Hdown name args Ho).
    replace (String.eqb name "health_check") with false; [reflexivity |].
    cbn in Ho. destruct Ho as [<- | [<- | [<- | []]]]; reflexivity. }
  rewrite ObservationJs_handle_other by exact Ho.
  destruct (in_dec string_dec name Tabs.tool_names) as [Ht | Ht].
  { rewrite (Tabs_handle_down h n Hfresh Hdown name args Ht).
    replace (String.eqb name "health_check") with false; [reflexivity |].
    cbn in Ht. destruct Ht as [<- | [<- | [<- | [<- | [<- | []]]]]];
      reflexivity. }
  rewrite Tabs_handle_other by exact Ht.
  destruct (in_dec string_dec name Interaction.tool_names) as [Hi | Hi].
  { rewrite (Interaction_handle_down h n Hfresh Hdown name args Hi).
    replace (String.eqb name "health_check") with false; [reflexivity |].
    cbn in Hi.
    destruct Hi as [<- | [<- | [<- | [<- | [<- | [<- | []]]]]]];
      reflexivity. }
  rewrite Interaction_handle_other by exact Hi.
  rewrite !in_app_iff in Hin.
  destruct Hin as [Hin | [Hin | [Hin | Hin]]]; try contradiction.
  cbn in Hin. destruct Hin as [<- | [<- | []]].
  - rewrite (SystemTools_health_down h n Hfresh Hdown). reflexivity.
  - rewrite (SystemTools_upload_down h n Hfresh Hdown). reflexivity.
Qed.

Lemma tools_need_desktop_witness :
  Registry.handleToolCall "click" [("tabId", Json.Number 1)] down_host
    Node.offline
  = (inr (error_result (Node.message_of not_running_error)),
     logged (error_line "click" (Node.message_of not_running_error))
       (requested health_request Node.offline)).
Proof.
  apply (tools_need_desktop "click" [("tabId", Json.Number 1)] down_host
           Node.offline).
  - intros t [].
  - reflexivity.
  - cbn. tauto.
Defined.
